(** * The Gibbs/Metropolis sweep of the Bayesian mediation sampler

    A shallow embedding of [src/frame/bslmm.hpp] (namespace [hmlp::mcmc]):
    the function [Normalize], the class [Variables<T>] with its
    constructor, [Residual], [PostDistribution1], [PostDistribution2] and
    [Iteration], and the driver [mcmc].  The class [beta_distribution],
    which nothing in the file uses, is left out: its members are
    [std::gamma_distribution] objects, whose state between two draws the
    standard does not describe.

    Conventions of the embedding.
    - The template parameter [T] is read as the field of real numbers:
      [double] without rounding and overflow.  [std::exp], [std::sqrt] and
      [std::abs] are [exp], [sqrt] and [Rabs].  The real numbers have no
      infinities and no NaN.  In [PostDistribution1], [PostDistribution2]
      and the acceptance test built on them, where the code takes
      logarithms of numbers that need not be positive and compares the
      result, the logarithm and the arithmetic on it are those of IEEE 754
      on infinities and NaN (type [xreal]).  Everywhere else [std::log] is
      [ln] and a quotient is the quotient of the reals, which agree with
      the code where the logarithm is taken of a positive number and no
      divisor is zero.
    - The order in which the two operands of a sum are evaluated, which
      C++ leaves to the build, is a parameter (class [EvaluationOrder]) of
      the two assignments both operands of which draw from the engine.
    - An [hmlp::Data<T>] is the list of its entries in column-major order;
      [X(i, j)] of a matrix with [m] rows is entry [j * m + i].  Reading
      past the end yields [0] and writing past the end does nothing (the
      C++ behaviour there is undefined); the theorems that depend on it
      assume the dimensions the driver supplies.
    - The object is a store from member names to their current values; the
      four members that are references to caller storage ([beta_m],
      [alpha_a], [pi_m], [pi_a]) are assumed to name four distinct objects.
    - The standard distributions, the engine, [srand] and
      [hmlp::Data::rand] are not part of the source: they are operations of
      the class [RandomSource], threaded through the code as explicit
      state. *)

From Stdlib Require Import String DecimalString.
From Stdlib Require Import Reals Lra Lia ZArith DecimalZ Bool Arith List.
Import ListNotations.

Open Scope R_scope.

Set Warnings "-abstract-large-number".

(** ** Vectors *)

Definition vec : Type := list R.

Notation "v .[ i ]" := (nth i v 0) (at level 1, left associativity,
  format "v .[ i ]").

(** [v[i] = x]. *)
Fixpoint vset (i : nat) (x : R) (v : vec) : vec :=
  match v, i with
  | [], _ => []
  | _ :: t, O => x :: t
  | h :: t, S i' => h :: vset i' x t
  end.

(** [std::vector::resize(len, init)], which [hmlp::Data::resize(m, n, init)]
    calls with [len = m * n]. *)
Definition resize (len : nat) (init : R) (v : vec) : vec :=
  firstn len v ++ repeat init (len - length v).

(** [for (size_t i = 0; i < k; i++) body(i)], as a state transformer. *)
Fixpoint for_ {S : Type} (k : nat) (body : nat -> S -> S) (s : S) : S :=
  match k with
  | O => s
  | Datatypes.S k' => body k' (for_ k' body s)
  end.

(** [T acc = 0.0; for (size_t i = 0; i < k; i++) acc += f(i);] *)
Fixpoint sum_for (k : nat) (f : nat -> R) : R :=
  match k with
  | O => 0
  | Datatypes.S k' => sum_for k' f + f k'
  end.

(** ** Values that need not be finite *)

(** A value of type [T] that may be an infinity or NaN. *)
Inductive xreal : Set :=
  | xfinite (x : R)
  | xpinf
  | xninf
  | xnan.

(** [std::log( x )]: minus infinity at zero, NaN below it. *)
Definition xlog (x : R) : xreal :=
  if Rlt_dec 0 x then xfinite (ln x)
  else if Rlt_dec x 0 then xnan else xninf.

Definition xopp (a : xreal) : xreal :=
  match a with
  | xfinite x => xfinite (- x)
  | xpinf => xninf
  | xninf => xpinf
  | xnan => xnan
  end.

(** [a + b]: NaN is absorbing and the sum of the two infinities is NaN. *)
Definition xadd (a b : xreal) : xreal :=
  match a, b with
  | xnan, _ | _, xnan => xnan
  | xfinite x, xfinite y => xfinite (x + y)
  | xpinf, xninf | xninf, xpinf => xnan
  | xpinf, _ | _, xpinf => xpinf
  | xninf, _ | _, xninf => xninf
  end.

(** [a - b] *)
Definition xsub (a b : xreal) : xreal := xadd a (xopp b).

(** An infinity with the sign of the real number [y]; NaN when [y] is
    zero. *)
Definition xinf_signed (y : R) : xreal :=
  if Rlt_dec 0 y then xpinf else if Rlt_dec y 0 then xninf else xnan.

(** [a * b]: NaN is absorbing and an infinity times zero is NaN. *)
Definition xmul (a b : xreal) : xreal :=
  match a, b with
  | xnan, _ | _, xnan => xnan
  | xfinite x, xfinite y => xfinite (x * y)
  | xpinf, xfinite y | xfinite y, xpinf => xinf_signed y
  | xninf, xfinite y | xfinite y, xninf => xinf_signed (- y)
  | xpinf, xpinf | xninf, xninf => xpinf
  | xpinf, xninf | xninf, xpinf => xninf
  end.

(** [a > b], which is false when an operand is NaN. *)
Definition xgt (a b : xreal) : bool :=
  match a, b with
  | xfinite x, xfinite y => if Rgt_dec x y then true else false
  | xpinf, xfinite _ | xpinf, xninf | xfinite _, xninf => true
  | _, _ => false
  end.

(** [T acc = 0.0; for (size_t i = 0; i < k; i++) acc += f(i);] on such
    values. *)
Fixpoint xsum_for (k : nat) (f : nat -> xreal) : xreal :=
  match k with
  | O => xfinite 0
  | Datatypes.S k' => xadd (xsum_for k' f) (f k')
  end.

(** Modelled from the spec: the dense matrix multiply-accumulate of the
    linear-algebra collaborator ([xgemm] with both operands untransposed),
    which is declared outside the source file: [C := alpha * A * B + beta * C]
    on column-major storage with leading dimensions [lda], [ldb], [ldc]. *)
Definition xgemm (m n k : nat) (alpha : R) (a : vec) (lda : nat)
    (b : vec) (ldb : nat) (beta : R) (c : vec) (ldc : nat) : vec :=
  for_ n (fun j c =>
    for_ m (fun i c =>
      vset (j * ldc + i)
        (alpha * sum_for k (fun p => a.[p * lda + i] * b.[j * ldb + p])
         + beta * c.[j * ldc + i]) c) c) c.

(** ** The random sources *)

(** [G] is the state of the member [std::default_random_engine generator];
    [E] is the process-wide state behind [srand] and [hmlp::Data::rand].
    Each distribution maps its parameters and an engine state to a draw and
    the next engine state.  [gamma_distribution k theta] has shape [k] and
    scale [theta]; [normal_distribution mu sd] has mean [mu] and standard
    deviation [sd]; [Data_rand a b len] fills [len] entries uniformly from
    [a] to [b]. *)
Class RandomSource (G E : Type) : Type := {
  default_random_engine : G;
  gamma_distribution : R -> R -> G -> R * G;
  normal_distribution : R -> R -> G -> R * G;
  bernoulli_distribution : R -> G -> bool * G;
  srand : nat -> E -> E;
  Data_rand : R -> R -> nat -> E -> vec * E
}.

(** ** The order of evaluation *)

(** The assignments to [beta_m[ j ]] and to [alpha_a[ j ]] store a sum both
    operands of which draw from the engine.  C++ does not say which operand
    of [+] is evaluated first; the two calls are not interleaved.  A build
    of the program chooses for each of the two sums; [true] is the left
    operand first. *)
Class EvaluationOrder : Set := {
  beta_m_left_first : bool;
  alpha_a_left_first : bool
}.

(** ** The function [Normalize] *)

(** An [hmlp::Data<T>] on its own: [dim()] rows, [num()] columns and the
    entries in column-major order. *)
Record Data : Type := mkData {
  dim : nat;
  num : nat;
  entries : vec
}.

(** [A( i, j )]. *)
Definition Data_at (A : Data) (i j : nat) : R :=
  (entries A).[j * dim A + i].

(** [Normalize( A )]: every column is centred and scaled in place. *)
Definition Normalize (A : Data) : Data :=
  let m := dim A in
  let n := num A in
  mkData m n
    (for_ n (fun j a =>
       let mean := sum_for m (fun i => a.[j * m + i]) in
       let mean := mean / INR m in
       let stde := sum_for m (fun i =>
         let tmp := a.[j * m + i] - mean in tmp * tmp) in
       let stde := stde / INR m in
       let stde := sqrt stde in
       for_ m (fun i a =>
         vset (j * m + i) ((a.[j * m + i] - mean) / stde) a) a)
       (entries A)).

(** ** The members of [Variables<T>] *)

(** The [hmlp::Data<T>] members. *)
Inductive member : Set :=
  | alpha_a | beta_a | beta_m | pi_m | pi_a | alpha_c | beta_c
  | A | A2norm | M | M2norm | Y | C1 | C2 | C1_2norm | C2_2norm
  | r1 | r3 | res1 | res2 | res2_c
  | var_m0 | var_m1 | var_alpha_a0 | var_alpha_a1 | var_a.

(** The members of type [T] that the code assigns. *)
Inductive scalar : Set :=
  | sigma_m0 | sigma_m1 | sigma_a | sigma_ma0 | sigma_ma1 | sigma_g
  | sigma_e | old.

(** Equality of member names, through their position in the class body. *)
Definition member_code (f : member) : nat :=
  match f with
  | alpha_a => 0 | beta_a => 1 | beta_m => 2 | pi_m => 3 | pi_a => 4
  | alpha_c => 5 | beta_c => 6 | A => 7 | A2norm => 8 | M => 9
  | M2norm => 10 | Y => 11 | C1 => 12 | C2 => 13 | C1_2norm => 14
  | C2_2norm => 15 | r1 => 16 | r3 => 17 | res1 => 18 | res2 => 19
  | res2_c => 20 | var_m0 => 21 | var_m1 => 22 | var_alpha_a0 => 23
  | var_alpha_a1 => 24 | var_a => 25
  end.

Fixpoint code_eqb (a b : nat) : bool :=
  match a, b with
  | O, O => true
  | S a', S b' => code_eqb a' b'
  | _, _ => false
  end.

Definition member_eqb (f g : member) : bool :=
  code_eqb (member_code f) (member_code g).

Definition scalar_eqb (c d : scalar) : bool :=
  match c, d with
  | sigma_m0, sigma_m0 | sigma_m1, sigma_m1 | sigma_a, sigma_a
  | sigma_ma0, sigma_ma0 | sigma_ma1, sigma_ma1 | sigma_g, sigma_g
  | sigma_e, sigma_e | old, old => true
  | _, _ => false
  end.

(** The hyper-parameters, initialised in the class body. *)
Definition km0 : R := 2.0.
Definition lm0 : R := 0.1.
Definition km1 : R := 2.0.
Definition lm1 : R := 0.5.
Definition ka : R := 2.0.
Definition la : R := 1.0.
Definition kma0 : R := 2.0.
Definition lma0 : R := 1.0.
Definition kma1 : R := 2.0.
Definition lma1 : R := 2.0.
Definition ke : R := 2.0.
Definition le : R := 1.0.
Definition kg : R := 2.0.
Definition lg : R := 1.0.

(** What [Iteration] leaves outside the object: the lines printed on the
    standard output, the text appended to files, and the state of the
    process-wide random source. *)
Inductive printf_arg : Type :=
  | PSize (k : nat)
  | PReal (x : R).

Inductive ostream_item : Type :=
  | OStr (s : string)
  | OReal (x : R).

Record World (E : Type) : Type := mkWorld {
  rand_state : E;
  stdout : list (string * list printf_arg);
  files : string -> list ostream_item
}.

Arguments mkWorld {E}.
Arguments rand_state {E}.
Arguments stdout {E}.
Arguments files {E}.

(** An object of class [Variables<T>]. *)
Record Variables (G : Type) : Type := mkVariables {
  n : nat;
  w1 : nat;
  w2 : nat;
  q : nat;
  q1 : nat;
  q2 : nat;
  generator : G;
  vecs : member -> vec;
  scal : scalar -> R
}.

Arguments mkVariables {G}.
Arguments n {G}.
Arguments w1 {G}.
Arguments w2 {G}.
Arguments q {G}.
Arguments q1 {G}.
Arguments q2 {G}.
Arguments generator {G}.
Arguments vecs {G}.
Arguments scal {G}.

(** ** Assignments to members *)

Section Store.

Context {G : Type}.

(** [f = v] for a [Data] member [f]. *)
Definition set_vec (f : member) (v : vec) (s : Variables G) : Variables G :=
  mkVariables (n s) (w1 s) (w2 s) (q s) (q1 s) (q2 s) (generator s)
    (fun g => if member_eqb g f then v else vecs s g) (scal s).

(** [f[i] = x]. *)
Definition set_elem (f : member) (i : nat) (x : R) (s : Variables G)
    : Variables G :=
  set_vec f (vset i x (vecs s f)) s.

(** [c = x] for a member [c] of type [T]. *)
Definition set_scal (c : scalar) (x : R) (s : Variables G) : Variables G :=
  mkVariables (n s) (w1 s) (w2 s) (q s) (q1 s) (q2 s) (generator s)
    (vecs s) (fun d => if scalar_eqb d c then x else scal s d).

Definition set_generator (g : G) (s : Variables G) : Variables G :=
  mkVariables (n s) (w1 s) (w2 s) (q s) (q1 s) (q2 s) g (vecs s) (scal s).

(** [f.resize(m, k, init)]. *)
Definition resize_member (f : member) (m k : nat) (init : R)
    (s : Variables G) : Variables G :=
  set_vec f (resize (m * k) init (vecs s f)) s.

(** [X(i, j)] for the members with [n] rows, and [alpha_c(j1, j)], which
    has [w2] rows. *)
Definition at_n (s : Variables G) (f : member) (i j : nat) : R :=
  (vecs s f).[j * n s + i].

Definition alpha_c_at (s : Variables G) (j1 j : nat) : R :=
  (vecs s alpha_c).[j * w2 s + j1].

End Store.

(** ** The member functions *)

Section Sampler.

Context {G E : Type} {RS : RandomSource G E} {EO : EvaluationOrder}.

(** [dist(generator)] for a distribution object [dist]: the draw, and the
    object with the engine advanced. *)
Definition draw {X : Type} (dist : G -> X * G) (s : Variables G)
    : X * Variables G :=
  (fst (dist (generator s)), set_generator (snd (dist (generator s))) s).

(** *** The constructor, block by block *)

(** [gamma distribution initialization] *)
Definition init_sigma (s : Variables G) : Variables G :=
  let (d_m0, s) := draw (gamma_distribution km0 (1.0 / lm0)) s in
  let s := set_scal sigma_m0 (1.0 / d_m0) s in
  let (d_m1, s) := draw (gamma_distribution km1 (1.0 / lm1)) s in
  let s := set_scal sigma_m1 (1.0 / d_m1) s in
  let (d_a, s) := draw (gamma_distribution ka (1.0 / la)) s in
  let s := set_scal sigma_a (1.0 / d_a) s in
  let (d_ma0, s) := draw (gamma_distribution kma0 (1.0 / lma0)) s in
  let s := set_scal sigma_ma0 (1.0 / d_ma0) s in
  let (d_ma1, s) := draw (gamma_distribution kma1 (1.0 / lma1)) s in
  let s := set_scal sigma_ma1 (1.0 / d_ma1) s in
  let (d_g, s) := draw (gamma_distribution kg (1.0 / lg)) s in
  let s := set_scal sigma_g (1.0 / d_g) s in
  let (d_e, s) := draw (gamma_distribution ke (1.0 / le)) s in
  set_scal sigma_e (1.0 / d_e) s.

(** [assign initial values] *)
Definition init_values (s : Variables G) : Variables G :=
  let s := resize_member r1 1 (q s) 0.0 s in
  let s := resize_member r3 1 (q s) 0.0 s in
  let s := resize_member beta_a 0 0 0.0 s in
  let s := resize_member beta_a 1 1 0.0 s in
  let s := set_elem beta_a 0 0.0135567741 s in
  let s := resize_member beta_c 1 (w1 s) 0.0 s in
  resize_member alpha_c (w2 s) (q s) 0.0 s.

(** [compute column 2-norm] *)
Definition init_norms (s : Variables G) : Variables G :=
  let s := resize_member A2norm 1 1 0.0 s in
  let s := for_ (n s) (fun i s =>
    set_elem A2norm 0
      ((vecs s A2norm).[0] + (vecs s A).[i] * (vecs s A).[i]) s) s in
  let s := resize_member M2norm 1 (q s) 0.0 s in
  let s := for_ (q s) (fun j s => for_ (n s) (fun i s =>
    set_elem M2norm j
      ((vecs s M2norm).[j]
       + (vecs s M).[j * n s + i] * (vecs s M).[j * n s + i]) s) s) s in
  let s := resize_member C1_2norm 1 (w1 s) 0.0 s in
  let s := for_ (w1 s) (fun j s => for_ (n s) (fun i s =>
    set_elem C1_2norm j
      ((vecs s C1_2norm).[j]
       + (vecs s C1).[j * n s + i] * (vecs s C1).[j * n s + i]) s) s) s in
  let s := resize_member C2_2norm 1 (w2 s) 0.0 s in
  for_ (w2 s) (fun j s => for_ (n s) (fun i s =>
    set_elem C2_2norm j
      ((vecs s C2_2norm).[j]
       + (vecs s C2).[j * n s + i] * (vecs s C2).[j * n s + i]) s) s) s.

(** The constructor.  The member initialisers bind the references and the
    dimensions; the members the constructor does not assign start empty,
    [old] is initialised to [0.0] in the class body and the engine is
    default-constructed. *)
Definition Variables_ctor (userY userA userM userC1 userC2 userbeta_m
    useralpha_a userpi_m userpi_a : vec) (n w1 w2 q q1 q2 : nat)
    : Variables G :=
  let s := mkVariables n w1 w2 q q1 q2 default_random_engine
    (fun f => match f with
              | Y => userY | A => userA | M => userM
              | C1 => userC1 | C2 => userC2
              | beta_m => userbeta_m | alpha_a => useralpha_a
              | pi_m => userpi_m | pi_a => userpi_a
              | _ => []
              end)
    (fun _ => 0.0) in
  let s := init_sigma s in
  let s := init_values s in
  init_norms s.

(** [Residual(it)]: the three caches rebuilt from the current parameters,
    one cache at a time. *)

(** [res1 = Y - M * beta_m - beta_a * A], then [- C * beta_c]. *)
Definition Residual_res1 (s : Variables G) : Variables G :=
  let s := set_vec res1 (vecs s Y) s in
  let s := for_ (n s) (fun i s =>
    set_elem res1 i
      ((vecs s res1).[i] - (vecs s beta_a).[0] * (vecs s A).[i]) s) s in
  let s := set_vec res1
    (xgemm (n s) 1 (q s) (-1.0) (vecs s M) (n s)
       (vecs s beta_m) (q s) 1.0 (vecs s res1) (n s)) s in
  set_vec res1
    (xgemm (n s) 1 (w1 s) (-1.0) (vecs s C1) (n s)
       (vecs s beta_c) (w1 s) 1.0 (vecs s res1) (n s)) s.

(** [res2 = M - A * alpha_a - C * alpha_c] *)
Definition Residual_res2 (s : Variables G) : Variables G :=
  let s := set_vec res2 (vecs s M) s in
  let s := set_vec res2
    (xgemm (n s) (q s) 1 (-1.0) (vecs s A) (n s)
       (vecs s alpha_a) 1 1.0 (vecs s res2) (n s)) s in
  set_vec res2
    (xgemm (n s) (q s) (w2 s) (-1.0) (vecs s C2) (n s)
       (vecs s alpha_c) (w2 s) 1.0 (vecs s res2) (n s)) s.

Definition Residual_res2_c (s : Variables G) : Variables G :=
  let s := set_vec res2_c (vecs s M) s in
  set_vec res2_c
    (xgemm (n s) (q s) (w2 s) (-1.0) (vecs s C2) (n s)
       (vecs s alpha_c) (w2 s) 1.0 (vecs s res2_c) (n s)) s.

Definition Residual (s : Variables G) : Variables G :=
  Residual_res2_c (Residual_res2 (Residual_res1 s)).

(** [PostDistribution1] and [PostDistribution2]: the sum may hold the
    logarithm of a number that is not positive. *)
Definition PostDistribution1 (s : Variables G) (my_pi_m : vec) : xreal :=
  xsum_for (q s) (fun j =>
    xadd (xmul (xlog (my_pi_m.[j])) (xfinite (vecs s r1).[j]))
         (xmul (xlog (1 - my_pi_m.[j])) (xfinite (1 - (vecs s r1).[j])))).

Definition PostDistribution2 (s : Variables G) (my_pi_a : vec) : xreal :=
  xsum_for (q s) (fun j =>
    xadd (xmul (xlog (my_pi_a.[j])) (xfinite (vecs s r3).[j]))
         (xmul (xlog (1 - my_pi_a.[j])) (xfinite (1 - (vecs s r3).[j])))).

(** *** The blocks of [Iteration], in source order *)

(** [var_m = 1.0 / ( 1 / sigma_m + M2norm / sigma_e )] *)
Definition update_var_m (s : Variables G) : Variables G :=
  let s := resize_member var_m0 1 (q s) 0.0 s in
  let s := resize_member var_m1 1 (q s) 0.0 s in
  for_ (q s) (fun j s =>
    let s := set_elem var_m0 j
      (1.0 / (1.0 / scal s sigma_m0
              + (vecs s M2norm).[j] / scal s sigma_e)) s in
    set_elem var_m1 j
      (1.0 / (1.0 / scal s sigma_m1
              + (vecs s M2norm).[j] / scal s sigma_e)) s) s.

(** [sigma_e and sigma_g] *)
Definition update_sigma_e_g (s : Variables G) : Variables G :=
  let ke1 := ke + INR (n s) / 2.0 in
  let kg1 := INR (q s) * (INR (n s) / 2.0) + kg in
  let le1 := sum_for (n s) (fun i => (vecs s res1).[i] * (vecs s res1).[i]) in
  let lg1 := sum_for (n s * q s)
               (fun i => (vecs s res2).[i] * (vecs s res2).[i]) in
  let le1 := 1.0 / (le1 / 2.0 + le) in
  let lg1 := 1.0 / (lg1 / 2.0 + lg) in
  let (d_e, s) := draw (gamma_distribution ke1 le1) s in
  let s := set_scal sigma_e (1.0 / d_e) s in
  let (d_g, s) := draw (gamma_distribution kg1 lg1) s in
  set_scal sigma_g (1.0 / d_g) s.

(** [var_alpha_a and var_a] *)
Definition update_var_a (s : Variables G) : Variables G :=
  let s := resize_member var_alpha_a0 1 1 0.0 s in
  let s := resize_member var_alpha_a1 1 1 0.0 s in
  let s := resize_member var_a 1 1 0.0 s in
  let s := set_elem var_alpha_a0 0
    (scal s sigma_g / (scal s sigma_g / scal s sigma_ma0
                       + (vecs s A2norm).[0])) s in
  let s := set_elem var_alpha_a1 0
    (scal s sigma_g / (scal s sigma_g / scal s sigma_ma1
                       + (vecs s A2norm).[0])) s in
  set_elem var_a 0
    (scal s sigma_e / (scal s sigma_e / scal s sigma_a
                       + (vecs s A2norm).[0])) s.

(** The operands [left] and [right] of a sum, each of which draws from the
    engine, evaluated in the order that [left_first] gives: the two draws
    and the object with the engine advanced twice. *)
Definition draw_operands {X : Type} (left_first : bool)
    (left right : G -> X * G) (s : Variables G) : X * X * Variables G :=
  if left_first then
    let (l, s) := draw left s in
    let (r, s) := draw right s in
    (l, r, s)
  else
    let (r, s) := draw right s in
    let (l, s) := draw left s in
    (l, r, s).

(** [beta_m[ j ] = r1[ j ] * randn( mu_mj, var_m[ j ] )] *)
Definition update_beta_m (j : nat) (mu_mj0 mu_mj1 : R) (s : Variables G)
    : Variables G :=
  let s := set_scal old (vecs s beta_m).[j] s in
  let dist_norm_m0 :=
    normal_distribution mu_mj0 (sqrt (vecs s var_m0).[j]) in
  let dist_norm_m1 :=
    normal_distribution mu_mj1 (sqrt (vecs s var_m1).[j]) in
  let '(d1, d0, s) :=
    draw_operands beta_m_left_first dist_norm_m1 dist_norm_m0 s in
  let s := set_elem beta_m j
    ((vecs s r1).[j] * d1 + (1 - (vecs s r1).[j]) * d0) s in
  for_ (n s) (fun i s =>
    set_elem res1 i
      ((vecs s res1).[i]
       + (scal s old - (vecs s beta_m).[j]) * at_n s M i j) s) s.

(** [alpha_a[ j ] = r3[ j ] * randn( mu_alpha_aj, var_alpha_a )] *)
Definition update_alpha_a (j : nat) (mu_alpha_aj0 mu_alpha_aj1 : R)
    (s : Variables G) : Variables G :=
  let s := set_scal old (vecs s alpha_a).[j] s in
  let dist_alpha_a0 :=
    normal_distribution mu_alpha_aj0 (sqrt (vecs s var_alpha_a0).[0]) in
  let dist_alpha_a1 :=
    normal_distribution mu_alpha_aj1 (sqrt (vecs s var_alpha_a1).[0]) in
  let '(d1, d0, s) :=
    draw_operands alpha_a_left_first dist_alpha_a1 dist_alpha_a0 s in
  let s := set_elem alpha_a j
    ((vecs s r3).[j] * d1 + (1 - (vecs s r3).[j]) * d0) s in
  for_ (n s) (fun i s =>
    set_elem res2 (j * n s + i)
      ((vecs s res2).[j * n s + i]
       + (scal s old - (vecs s alpha_a).[j]) * (vecs s A).[i]) s) s.

(** [update r1[ j ]] *)
Definition update_r1 (j : nat) (mu_mj0 mu_mj1 : R) (s : Variables G)
    : Variables G :=
  let const2 :=
    mu_mj1 * mu_mj1 / (2 * (vecs s var_m1).[j])
    - mu_mj0 * mu_mj0 / (2 * (vecs s var_m0).[j])
    + 0.5 * ln ((vecs s var_m1).[j] / scal s sigma_m1)
    - 0.5 * ln ((vecs s var_m0).[j] / scal s sigma_m0)
    + ln ((vecs s pi_m).[j] / (1.0 - (vecs s pi_m).[j])) in
  if Rlt_dec const2 300 then
    let const2 := exp const2 in
    let (b, s) :=
      draw (bernoulli_distribution (const2 / (1.0 + const2))) s in
    if b then set_elem r1 j 1.0 s else set_elem r1 j 0.0 s
  else set_elem r1 j 1.0 s.

(** [update r3[ j ]] *)
Definition update_r3 (j : nat) (mu_alpha_aj0 mu_alpha_aj1 : R)
    (s : Variables G) : Variables G :=
  let const5 :=
    mu_alpha_aj1 * mu_alpha_aj1 / (2 * (vecs s var_alpha_a1).[0])
    - mu_alpha_aj0 * mu_alpha_aj0 / (2 * (vecs s var_alpha_a0).[0])
    + 0.5 * ln ((vecs s var_alpha_a1).[0] / scal s sigma_ma1)
    - 0.5 * ln ((vecs s var_alpha_a0).[0] / scal s sigma_ma0)
    + ln ((vecs s pi_a).[j] / (1.0 - (vecs s pi_a).[j])) in
  if Rlt_dec const5 300 then
    let const5 := exp const5 in
    let (b, s) :=
      draw (bernoulli_distribution (const5 / (1.0 + const5))) s in
    if b then set_elem r3 j 1.0 s else set_elem r3 j 0.0 s
  else set_elem r3 j 1.0 s.

(** The body of [for ( size_t j1 = 0; j1 < w2; j1 ++ )]. *)
Definition update_alpha_c (j j1 : nat) (s : Variables G) : Variables G :=
  let s := set_scal old (alpha_c_at s j1 j) s in
  let mu_alpha_cj := sum_for (n s) (fun i =>
    at_n s C2 i j1
    * ((vecs s res2).[j * n s + i] + alpha_c_at s j1 j * at_n s C2 i j1)) in
  let mu_alpha_cj := mu_alpha_cj / (vecs s C2_2norm).[j1] in
  let (d, s) :=
    draw (normal_distribution mu_alpha_cj
            (sqrt (scal s sigma_g / (vecs s C2_2norm).[j1]))) s in
  let s := set_elem alpha_c (j * w2 s + j1) d s in
  for_ (n s) (fun i s =>
    let s := set_elem res2 (j * n s + i)
      ((vecs s res2).[j * n s + i]
       + (scal s old - alpha_c_at s j1 j) * at_n s C2 i j1) s in
    set_elem res2_c (j * n s + i)
      ((vecs s res2_c).[j * n s + i]
       + (scal s old - alpha_c_at s j1 j) * at_n s C2 i j1) s) s.

(** [mu_mj, mu_alpha_aj]: the locals computed at the head of the body of
    [for ( size_t j = 0; j < q; j ++ )]. *)
Definition mu_mj (j : nat) (s : Variables G) : R :=
  sum_for (n s) (fun i =>
    at_n s M i j * ((vecs s res1).[i] + at_n s M i j * (vecs s beta_m).[j])).

Definition mu_alpha_aj (j : nat) (s : Variables G) : R :=
  sum_for (n s) (fun i => (vecs s A).[i] * (vecs s res2_c).[j * n s + i]).

Definition mu_mj0 (j : nat) (s : Variables G) : R :=
  mu_mj j s / (scal s sigma_e / scal s sigma_m0 + (vecs s M2norm).[j]).

Definition mu_mj1 (j : nat) (s : Variables G) : R :=
  mu_mj j s / (scal s sigma_e / scal s sigma_m1 + (vecs s M2norm).[j]).

Definition mu_alpha_aj0 (j : nat) (s : Variables G) : R :=
  mu_alpha_aj j s * ((vecs s var_alpha_a0).[0] / scal s sigma_g).

Definition mu_alpha_aj1 (j : nat) (s : Variables G) : R :=
  mu_alpha_aj j s * ((vecs s var_alpha_a1).[0] / scal s sigma_g).

(** The body of [for ( size_t j = 0; j < q; j ++ )]. *)
Definition update_mediator (j : nat) (s : Variables G) : Variables G :=
  let m0 := mu_mj0 j s in
  let m1 := mu_mj1 j s in
  let a0 := mu_alpha_aj0 j s in
  let a1 := mu_alpha_aj1 j s in
  let s := update_beta_m j m0 m1 s in
  let s := update_alpha_a j a0 a1 s in
  let s := update_r1 j m0 m1 s in
  let s := update_r3 j a0 a1 s in
  for_ (w2 s) (update_alpha_c j) s.

(** The body of [for ( size_t j = 0; j < w1; j ++)]: the division, the
    distribution and the draw are inside the loop over [i]. *)
Definition update_beta_c (j : nat) (s : Variables G) : Variables G :=
  let s := set_scal old (vecs s beta_c).[j] s in
  let r := for_ (n s) (fun i (r : R * Variables G) =>
    let (mu_cj, s) := r in
    let mu_cj := mu_cj
      + at_n s C1 i j
        * ((vecs s res1).[i] + at_n s C1 i j * (vecs s beta_c).[j]) in
    let mu_cj := mu_cj / (vecs s C1_2norm).[j] in
    let (d, s) :=
      draw (normal_distribution mu_cj
              (sqrt (scal s sigma_e / (vecs s C1_2norm).[j]))) s in
    (mu_cj, set_elem beta_c j d s)) (0.0, s) in
  let s := snd r in
  for_ (n s) (fun i s =>
    set_elem res1 i
      ((vecs s res1).[i]
       + (scal s old - (vecs s beta_c).[j]) * at_n s C1 i j) s) s.

(** [update beta_a] *)
Definition update_beta_a (s : Variables G) : Variables G :=
  let s := set_scal old (vecs s beta_a).[0] s in
  let mu_a := sum_for (n s) (fun i =>
    (vecs s A).[i]
    * ((vecs s res1).[i] + (vecs s beta_a).[0] * (vecs s A).[i])) in
  let mu_a := mu_a * ((vecs s var_a).[0] / scal s sigma_e) in
  let (d, s) :=
    draw (normal_distribution mu_a (sqrt (vecs s var_a).[0])) s in
  let s := set_elem beta_a 0 d s in
  for_ (n s) (fun i s =>
    set_elem res1 i
      ((vecs s res1).[i]
       + (scal s old - (vecs s beta_a).[0]) * (vecs s A).[i]) s) s.

(** [update sigma_m, sigma_a and sigma_ma] *)
Definition update_sigma_m (s : Variables G) : Variables G :=
  let const6 := sum_for (q s) (fun j => (vecs s r1).[j]) in
  let const7 := sum_for (q s) (fun j =>
    (vecs s beta_m).[j] * (vecs s beta_m).[j] * (vecs s r1).[j]) in
  let const8 := sum_for (q s) (fun j => (vecs s r3).[j]) in
  let const9 := sum_for (q s) (fun j =>
    (vecs s alpha_a).[j] * (vecs s alpha_a).[j] * (vecs s r3).[j]) in
  let const6 := const6 / 2.0 in
  let const7 := const7 / 2.0 in
  let const8 := const8 / 2.0 in
  let const9 := const9 / 2.0 in
  let (d_m1, s) :=
    draw (gamma_distribution (const6 + km1) (1.0 / (const7 + lm1))) s in
  let s := set_scal sigma_m1 (1.0 / d_m1) s in
  let (d_a, s) :=
    draw (gamma_distribution (0.5 + ka)
            (1.0 / ((vecs s beta_a).[0] * (vecs s beta_a).[0] / 2.0 + la))) s in
  let s := set_scal sigma_a (1.0 / d_a) s in
  let (d_ma1, s) :=
    draw (gamma_distribution (const8 + kma1) (1.0 / (const9 + lma1))) s in
  let s := set_scal sigma_ma1 (1.0 / d_ma1) s in
  let const6 := sum_for (q s) (fun j => 1 - (vecs s r1).[j]) in
  let const7 := sum_for (q s) (fun j =>
    (vecs s beta_m).[j] * (vecs s beta_m).[j] * (1 - (vecs s r1).[j])) in
  let const8 := sum_for (q s) (fun j => 1 - (vecs s r3).[j]) in
  let const9 := sum_for (q s) (fun j =>
    (vecs s alpha_a).[j] * (vecs s alpha_a).[j] * (1 - (vecs s r3).[j])) in
  let const6 := const6 / 2.0 in
  let const7 := const7 / 2.0 in
  let const8 := const8 / 2.0 in
  let const9 := const9 / 2.0 in
  let (d_m0, s) :=
    draw (gamma_distribution (const6 + km0) (1.0 / (const7 + lm0))) s in
  let s := set_scal sigma_m0 (1.0 / d_m0) s in
  let (d_ma0, s) :=
    draw (gamma_distribution (const8 + kma0) (1.0 / (const9 + lma0))) s in
  set_scal sigma_ma0 (1.0 / d_ma0) s.

(** [q * q] is a product of two [size_t], reduced modulo [2^64] before it
    is converted to [T]. *)
Definition size_t_mul_to_T (a b : nat) : R :=
  IZR ((Z.of_nat a * Z.of_nat b) mod 18446744073709551616).

(** The four assignments to [my_pi_m[ j ]] (and to [my_pi_a[ j ]]) in the
    proposal loop; [p] is the current probability vector and [e] the vector
    of uniform perturbations. *)
Definition propose (q j : nat) (p e my_pi : vec) : vec :=
  let my_pi := vset j (p.[j] * exp (e.[j])) my_pi in
  let my_pi := vset j (Rabs (my_pi.[j])) my_pi in
  let my_pi :=
    if Rgt_dec (my_pi.[j]) 1.0 then vset j (1.0 / my_pi.[j]) my_pi
    else my_pi in
  if Rlt_dec (my_pi.[j]) (1.0 / INR q)
  then vset j (1.0 / (size_t_mul_to_T q q * my_pi.[j])) my_pi
  else my_pi.

(** The proposal loop.  The local [Data] objects [my_pi_m] and [my_pi_a]
    are created with [q] entries. *)
Definition my_pi (s : Variables G) (log_my_pi_m log_my_pi_a : vec)
    : vec * vec :=
  for_ (q s) (fun j (my : vec * vec) =>
    (propose (q s) j (vecs s pi_m) log_my_pi_m (fst my),
     propose (q s) j (vecs s pi_a) log_my_pi_a (snd my)))
    (repeat 0.0 (1 * q s), repeat 0.0 (1 * q s)).

Definition probab (s : Variables G) (my_pi_m my_pi_a : vec) : xreal :=
  xsub
    (xadd
       (xsub (PostDistribution2 s my_pi_a) (PostDistribution2 s (vecs s pi_a)))
       (PostDistribution1 s my_pi_m))
    (PostDistribution1 s (vecs s pi_m)).

(** The proposal for [pi_m] and [pi_a] and its acceptance test; the three
    calls of [rand] read the process-wide source.  A [probab] that is NaN
    fails the test. *)
Definition update_pi (s : Variables G) (e : E) : Variables G * E :=
  let (log_my_pi_m, e) := Data_rand (-0.01) 0.01 (1 * q s) e in
  let (log_my_pi_a, e) := Data_rand (-0.01) 0.01 (1 * q s) e in
  let my_pi_m := fst (my_pi s log_my_pi_m log_my_pi_a) in
  let my_pi_a := snd (my_pi s log_my_pi_m log_my_pi_a) in
  let (my_unif, e) := Data_rand 0.0 1.0 (1 * 1) e in
  if xgt (probab s my_pi_m my_pi_a) (xlog (my_unif.[0])) then
    (for_ (q s) (fun j s =>
       let s := set_elem pi_a j (my_pi_a.[j]) s in
       set_elem pi_m j (my_pi_m.[j]) s) s, e)
  else (s, e).

(** *** Output *)

Definition printf (fmt : string) (args : list printf_arg) (w : World E)
    : World E :=
  mkWorld (rand_state w) (stdout w ++ [(fmt, args)]) (files w).

(** [outfile << items] on a stream opened with [std::ios_base::app]. *)
Definition append_to (name : string) (items : list ostream_item)
    (w : World E) : World E :=
  mkWorld (rand_state w) (stdout w)
    (fun f => if String.eqb f name then files w f ++ items else files w f).

(** [(int) q] and [std::to_string] of it. *)
Definition int_of_size_t (k : nat) : Z :=
  (Z.of_nat k + 2147483648) mod 4294967296 - 2147483648.

Definition to_string (z : Z) : string :=
  NilZero.string_of_int (Z.to_int z).

Definition outfilename (s : Variables G) : string :=
  ("results_" ++ to_string (int_of_size_t (q s)) ++ ".txt")%string.

Definition newline : string := String (Ascii.ascii_of_nat 10) EmptyString.

Definition write_results (s : Variables G) (w : World E) : World E :=
  let w := for_ (q s) (fun i w =>
    append_to (outfilename s)
      [OReal (vecs s beta_m).[i]; OStr " "; OReal (vecs s pi_m).[i]; OStr " ";
       OReal (vecs s alpha_a).[i]; OStr " "; OReal (vecs s pi_a).[i]; OStr " "]
      w) w in
  append_to (outfilename s) [OReal (vecs s beta_a).[0]; OStr newline] w.

(** *** [Iteration] and the driver *)

(** The statements of [Iteration] between the first [printf] and the
    proposal block: they act on the object only. *)
Definition sweep (it : nat) (s : Variables G) : Variables G :=
  (* update res1, res2, res2_c *)
  let s := if (it =? 0)%nat then Residual s else s in
  let s := update_var_m s in
  let s := update_sigma_e_g s in
  let s := update_var_a s in
  let s := for_ (q s) update_mediator s in
  let s := for_ (w1 s) update_beta_c s in
  let s := update_beta_a s in
  update_sigma_m s.

Definition Iteration (burnIn it : nat) (sw : Variables G * World E)
    : Variables G * World E :=
  let (s, w) := sw in
  let w := mkWorld (srand it (rand_state w)) (stdout w) (files w) in
  let w :=
    if (it mod 10000 =? 0)%nat
    then printf "Iter %4lu sigma_m0 %.3E sigma_e %.3E sigma_g %.3E sigma_ma0 %.3E sigma_m1 %.3E sigma_a %.3E sigma_ma1 %.3E"
           [PSize it; PReal (scal s sigma_m0); PReal (scal s sigma_e);
            PReal (scal s sigma_g); PReal (scal s sigma_ma0);
            PReal (scal s sigma_m1); PReal (scal s sigma_a);
            PReal (scal s sigma_ma1)] w
    else w in
  let s := sweep it s in
  let r := update_pi s (rand_state w) in
  let s := fst r in
  let w := mkWorld (snd r) (stdout w) (files w) in
  let w :=
    if (it mod 1000 =? 0)%nat then printf "Iter %4lu \n" [PSize it] w
    else w in
  let w :=
    if (burnIn <? it)%nat && (it mod 10 =? 0)%nat then write_results s w
    else w in
  (s, w).

(** [mcmc]: one object, [niter] calls of [Iteration]. *)
Definition mcmc (Y A M C1 C2 beta_m alpha_a pi_m pi_a : vec)
    (n w1 w2 q q1 q2 burnIn niter : nat) (w : World E)
    : Variables G * World E :=
  for_ niter (Iteration burnIn)
    (Variables_ctor Y A M C1 C2 beta_m alpha_a pi_m pi_a n w1 w2 q q1 q2, w).

End Sampler.

(** ** The formulas of the specification *)

Section Formulas.

Context {G E : Type} {RS : RandomSource G E} {EO : EvaluationOrder}.

(** Section 4.3: the log-odds of inclusion. *)
Definition log_odds (mean1 var1 mean0 var0 priorVar1 priorVar0 p : R) : R :=
  mean1 ^ 2 / (2 * var1) - mean0 ^ 2 / (2 * var0)
  + 0.5 * ln (var1 / priorVar1) - 0.5 * ln (var0 / priorVar0)
  + ln (p / (1 - p)).

(** Section 4.3: Bernoulli below the threshold 300, inclusion at or above. *)
Definition indicator_draw (logOdds : R) (g : G) : R * G :=
  if Rlt_dec logOdds 300 then
    let p := exp logOdds in
    let (b, g') := bernoulli_distribution (p / (1 + p)) g in
    (if b then 1 else 0, g')
  else (1, g).

(** The operands for which the log-odds of the code is a finite number:
    no division by zero and no logarithm of a number that is not
    positive.  (Elsewhere the code computes with infinities and NaN, which
    the real numbers of this file do not have.) *)
Definition log_odds_defined (var1 var0 priorVar1 priorVar0 p : R) : Prop :=
  0 < var1 /\ 0 < var0 /\ 0 < priorVar1 /\ 0 < priorVar0 /\ 0 < p < 1.

(** The four means of the body of the loop over the mediators are
    quotients; none of their divisors is zero. *)
Definition means_defined (j : nat) (s : Variables G) : Prop :=
  scal s sigma_e / scal s sigma_m0 + (vecs s M2norm).[j] <> 0
  /\ scal s sigma_e / scal s sigma_m1 + (vecs s M2norm).[j] <> 0
  /\ scal s sigma_g <> 0.

(** Section 4.4: the reciprocal of a Gamma draw with the given shape and
    rate. *)
Definition inverse_gamma_draw (shape rate : R) (g : G) : R * G :=
  let (x, g') := gamma_distribution shape (1 / rate) g in (1 / x, g').

(** Section 4.5: the Bernoulli log-likelihood of the indicators [r] under
    the probabilities [p]. *)
Definition logPosterior (k : nat) (r p : vec) : xreal :=
  xsum_for k (fun j =>
    xadd (xmul (xfinite r.[j]) (xlog (p.[j])))
         (xmul (xfinite (1 - r.[j])) (xlog (1 - p.[j])))).

(** The same sum where every [p[j]] lies strictly between 0 and 1: a real
    number. *)
Definition logPosterior_real (k : nat) (r p : vec) : R :=
  sum_for k (fun j => r.[j] * ln (p.[j]) + (1 - r.[j]) * ln (1 - p.[j])).

(** Section 4.5: the reflection of a proposed value. *)
Definition reflect (k : nat) (x : R) : R :=
  let x := if Rgt_dec x 1 then 1 / x else x in
  if Rlt_dec x (1 / INR k) then 1 / (INR k * INR k * x) else x.

(** Section 3: the three residuals, entry by entry. *)
Definition res1_formula (s : Variables G) (i : nat) : R :=
  (vecs s Y).[i] - (vecs s beta_a).[0] * (vecs s A).[i]
  - sum_for (q s) (fun j => at_n s M i j * (vecs s beta_m).[j])
  - sum_for (w1 s) (fun j => at_n s C1 i j * (vecs s beta_c).[j]).

Definition res2_c_formula (s : Variables G) (i j : nat) : R :=
  at_n s M i j - sum_for (w2 s) (fun k => at_n s C2 i k * alpha_c_at s k j).

Definition res2_formula (s : Variables G) (i j : nat) : R :=
  at_n s M i j - (vecs s A).[i] * (vecs s alpha_a).[j]
  - sum_for (w2 s) (fun k => at_n s C2 i k * alpha_c_at s k j).

(** The dimensions the driver supplies. *)
Record shaped (s : Variables G) : Prop := {
  shaped_Y : length (vecs s Y) = n s;
  shaped_A : length (vecs s A) = n s;
  shaped_M : length (vecs s M) = (n s * q s)%nat;
  shaped_C1 : length (vecs s C1) = (n s * w1 s)%nat;
  shaped_C2 : length (vecs s C2) = (n s * w2 s)%nat;
  shaped_beta_a : length (vecs s beta_a) = 1%nat;
  shaped_beta_m : length (vecs s beta_m) = q s;
  shaped_alpha_a : length (vecs s alpha_a) = q s;
  shaped_beta_c : length (vecs s beta_c) = w1 s;
  shaped_alpha_c : length (vecs s alpha_c) = (w2 s * q s)%nat
}.

(** The caches hold the residuals of the current parameters. *)
Record cached (s : Variables G) : Prop := {
  cached_res1_length : length (vecs s res1) = n s;
  cached_res2_length : length (vecs s res2) = (n s * q s)%nat;
  cached_res2_c_length : length (vecs s res2_c) = (n s * q s)%nat;
  cached_res1 : forall i, (i < n s)%nat -> (vecs s res1).[i] = res1_formula s i;
  cached_res2 : forall i j, (i < n s)%nat -> (j < q s)%nat ->
    (vecs s res2).[j * n s + i] = res2_formula s i j;
  cached_res2_c : forall i j, (i < n s)%nat -> (j < q s)%nat ->
    (vecs s res2_c).[j * n s + i] = res2_c_formula s i j
}.

(** Section 6: a row of the result file. *)
Definition result_row (s : Variables G) : list ostream_item :=
  flat_map (fun j =>
    [OReal (vecs s beta_m).[j]; OStr " "; OReal (vecs s pi_m).[j]; OStr " ";
     OReal (vecs s alpha_a).[j]; OStr " "; OReal (vecs s pi_a).[j]; OStr " "])
    (seq 0 (q s))
  ++ [OReal (vecs s beta_a).[0]; OStr newline].

(** The sampled parameters of a state, and their trajectory over the
    first [niter] iterations of a run. *)
Definition parameters (s : Variables G) : list vec :=
  [vecs s beta_m; vecs s alpha_a; vecs s pi_m; vecs s pi_a; vecs s beta_a;
   vecs s r1; vecs s r3;
   map (scal s) [sigma_m0; sigma_m1; sigma_a; sigma_ma0; sigma_ma1;
                 sigma_g; sigma_e]].

Definition trajectory (burnIn niter : nat) (sw : Variables G * World E)
    : list (list vec) :=
  map (fun k => parameters (fst (for_ k (Iteration burnIn) sw)))
    (seq 1 niter).

(** The mean and the (population) variance of column [j] of a [Data]. *)
Definition column_mean (A : Data) (j : nat) : R :=
  sum_for (dim A) (fun i => Data_at A i j) / INR (dim A).

Definition column_variance (A : Data) (j : nat) : R :=
  sum_for (dim A) (fun i =>
    (Data_at A i j - column_mean A j) * (Data_at A i j - column_mean A j))
  / INR (dim A).

(** The squared norm of column [j] of the member [src]. *)
Definition squared_norm (s : Variables G) (src : member) (j : nat) : R :=
  sum_for (n s) (fun i =>
    (vecs s src).[j * n s + i] * (vecs s src).[j * n s + i]).

(** Zeros and ones, and vectors that hold them on the entries below [k]. *)
Definition binary (x : R) : Prop := x = 0 \/ x = 1.

Definition binary_below (k : nat) (v : vec) : Prop :=
  forall j, (j < k)%nat -> binary (v.[j]).


(** A draw from the engine with its parameters, and the distribution it
    is a draw from. *)
Inductive draw_event : Type :=
  | gamma_draw (k theta : R)
  | normal_draw (mu sd : R)
  | bernoulli_draw (p : R).

Inductive distribution : Set := Gamma | Normal | Bernoulli.

Definition distribution_of (ev : draw_event) : distribution :=
  match ev with
  | gamma_draw _ _ => Gamma
  | normal_draw _ _ => Normal
  | bernoulli_draw _ => Bernoulli
  end.

(** The engine after one draw, and after a list of draws taken one after
    the other. *)
Definition advance (ev : draw_event) (g : G) : G :=
  match ev with
  | gamma_draw k theta => snd (gamma_distribution k theta g)
  | normal_draw mu sd => snd (normal_distribution mu sd g)
  | bernoulli_draw p => snd (bernoulli_distribution p g)
  end.

Definition advance_all (evs : list draw_event) (g : G) : G :=
  fold_left (fun g ev => advance ev g) evs g.

(** The engine [g'] is the engine [g] after draws from the distributions
    [ds], in this order and with no other draw in between. *)
Definition draws_in_order (ds : list distribution) (g g' : G) : Prop :=
  exists evs, map distribution_of evs = ds /\ advance_all evs g = g'.

(** The draws of the body of the loop over the mediators: two normal
    draws for [beta_m[j]], two for [alpha_a[j]], a Bernoulli draw for
    [r1[j]] and one for [r3[j]] unless the log-odds is 300 or more, and
    one normal draw for each of the [w2] entries of column [j] of
    [alpha_c]. *)
Definition mediator_draws (w2 : nat) (b : bool * bool) : list distribution :=
  [Normal; Normal] ++ [Normal; Normal]
  ++ (if fst b then [Bernoulli] else [])
  ++ (if snd b then [Bernoulli] else [])
  ++ repeat Normal w2.

(** The draws of one call of [Iteration]: [sigma_e] and [sigma_g], the
    mediators in order, [n] normal draws for each of the [w1] entries of
    [beta_c], one for [beta_a], and [sigma_m1], [sigma_a], [sigma_ma1],
    [sigma_m0], [sigma_ma0].  [bs] tells, mediator by mediator, which of
    the two indicators took a Bernoulli draw. *)
Definition iteration_draws (n w1 w2 : nat) (bs : list (bool * bool))
    : list distribution :=
  [Gamma; Gamma]
  ++ flat_map (mediator_draws w2) bs
  ++ concat (repeat (repeat Normal n) w1)
  ++ [Normal]
  ++ [Gamma; Gamma; Gamma; Gamma; Gamma].

(** The process-wide source after call [it] of [Iteration]: reseeded with
    [it], then read for the two vectors of [q] perturbations and for the
    uniform number of the acceptance test. *)
Definition reseeded_and_read (q it : nat) (e : E) : E :=
  let e := srand it e in
  let e := snd (Data_rand (-0.01) 0.01 q e) in
  let e := snd (Data_rand (-0.01) 0.01 q e) in
  snd (Data_rand 0 1 1 e).

(** The iterations whose row is written. *)
Definition retained (burnIn it : nat) : bool :=
  (burnIn <? it)%nat && (it mod 10 =? 0)%nat.

(** What iteration [it] prints when it is entered with the object [t]. *)
Definition printed (it : nat) (t : Variables G) : list (string * list printf_arg) :=
  (if (it mod 10000 =? 0)%nat
   then [("Iter %4lu sigma_m0 %.3E sigma_e %.3E sigma_g %.3E sigma_ma0 %.3E sigma_m1 %.3E sigma_a %.3E sigma_ma1 %.3E"%string,
          [PSize it; PReal (scal t sigma_m0); PReal (scal t sigma_e);
           PReal (scal t sigma_g); PReal (scal t sigma_ma0);
           PReal (scal t sigma_m1); PReal (scal t sigma_a);
           PReal (scal t sigma_ma1)])]
   else [])
  ++ (if (it mod 1000 =? 0)%nat
      then [("Iter %4lu \n"%string, [PSize it])] else []).

End Formulas.

(** ** A concrete random source and concrete objects *)

(** Every distribution returns its mean and the engine counts the draws;
    [rand] fills with the midpoint of its interval. *)
#[export] Instance mean_source : RandomSource nat unit := {
  default_random_engine := 0%nat;
  gamma_distribution := fun k theta g => (k * theta, S g);
  normal_distribution := fun mu sd g => (mu, S g);
  bernoulli_distribution := fun p g =>
    (if Rle_dec (1 / 2) p then true else false, S g);
  srand := fun _ e => e;
  Data_rand := fun a b len e => (repeat ((a + b) / 2) len, e)
}.

(** The build that evaluates the operands of a sum from left to right, as
    [g++] does for the two sums. *)
#[export] Instance written_order : EvaluationOrder := {
  beta_m_left_first := true;
  alpha_a_left_first := true
}.

(** The build that evaluates the right operand of both sums first. *)
Definition right_to_left : EvaluationOrder := {|
  beta_m_left_first := false;
  alpha_a_left_first := false
|}.

(** A source whose draws depend on the engine: the engine counts the
    draws, and a gamma or normal draw is the mean of its distribution plus
    the number of draws taken before it. *)
Definition counting_source : RandomSource nat unit := {|
  default_random_engine := 0%nat;
  gamma_distribution := fun k theta g => (k * theta + INR g, Datatypes.S g);
  normal_distribution := fun mu sd g => (mu + INR g, Datatypes.S g);
  bernoulli_distribution := fun p g =>
    (if Rle_dec (1 / 2) p then true else false, Datatypes.S g);
  srand := fun _ e => e;
  Data_rand := fun a b len e => (repeat ((a + b) / 2) len, e)
|}.

(** An object with two observations, one mediator and one covariate per
    stage, as the constructor builds it. *)
Definition small_object : Variables nat :=
  Variables_ctor [1; 2] [1; 1] [1; 0] [1; 3] [2; 1] [0] [0] [0.5] [0.5]
    2 1 1 1 0 0.

(** The same object written out, with residual caches for its
    parameters. *)
Definition small_state : Variables nat :=
  mkVariables 2 1 1 1 0 0 0%nat
    (fun f => match f with
              | Y => [1; 2] | A => [1; 1] | M => [1; 0]
              | C1 => [1; 3] | C2 => [2; 1]
              | beta_m => [0] | alpha_a => [0]
              | pi_m => [0.5] | pi_a => [0.5]
              | beta_a => [0] | beta_c => [0] | alpha_c => [0]
              | r1 => [0] | r3 => [0]
              | A2norm => [2] | M2norm => [1]
              | C1_2norm => [10] | C2_2norm => [5]
              | res1 => [1; 2] | res2 => [1; 0] | res2_c => [1; 0]
              | var_m0 => [1] | var_m1 => [1]
              | var_alpha_a0 => [1] | var_alpha_a1 => [1] | var_a => [1]
              end)
    (fun _ => 1).

Definition empty_world : World unit :=
  mkWorld tt [] (fun _ => []).

(** An object with [n = 2] and [w1 = 1] in front of the [beta_c] block:
    [C1 = (2, 1)], [res1 = (5, 0)], [beta_c = 0], [sigma_e = 1]. *)
Definition beta_c_object : Variables nat :=
  mkVariables 2 1 0 0 0 0 0%nat
    (fun f => match f with
              | C1 => [2; 1] | C1_2norm => [5] | res1 => [5; 0]
              | Y => [5; 0] | A => [0; 0] | beta_a => [0] | beta_c => [0]
              | _ => []
              end)
    (fun c => match c with sigma_e => 1 | _ => 0 end).

(** An object with [q = 2] in front of the proposal block, [pi_m[0]]
    being [0.1]. *)
Definition pi_object : Variables nat :=
  mkVariables 0 0 0 2 0 0 0%nat
    (fun f => match f with
              | pi_m => [0.1; 0.5] | pi_a => [0.5; 0.5]
              | r1 => [0; 0] | r3 => [0; 0]
              | beta_m => [0; 0] | alpha_a => [0; 0] | beta_a => [0]
              | _ => []
              end)
    (fun _ => 1).

(** An object with [q = 2] in front of the proposal block, every
    probability being in [(1/4, 1]] and [pi_m[0]] below [1/2]. *)
Definition pi_low_object : Variables nat :=
  mkVariables 0 0 0 2 0 0 0%nat
    (fun f => match f with
              | pi_m => [0.3; 0.75] | pi_a => [0.5; 0.5]
              | r1 => [1; 1] | r3 => [0; 0]
              | beta_m => [0; 0] | alpha_a => [0; 0] | beta_a => [0]
              | _ => []
              end)
    (fun _ => 1).

(** A matrix with two rows and two columns, none of them constant. *)
Definition two_by_two : Data := mkData 2 2 [1; 3; 0; 4].

(** * Properties *)

(** ** Vectors, loops and sums *)

Lemma one_dot_zero : 1.0 = 1.
Proof. lra. Qed.

Lemma two_dot_zero : 2.0 = 2.
Proof. lra. Qed.

Lemma zero_dot_zero : 0.0 = 0.
Proof. lra. Qed.

Lemma length_vset (i : nat) (x : R) (v : vec) :
  length (vset i x v) = length v.
Proof.
  revert i; induction v as [|h t IH]; intros [|i]; simpl; auto.
Qed.

Lemma nth_vset_eq (i : nat) (x : R) (v : vec) :
  (i < length v)%nat -> (vset i x v).[i] = x.
Proof.
  revert i; induction v as [|h t IH]; intros [|i] H; simpl in *;
    try lia; auto.
  apply IH; lia.
Qed.

Lemma nth_vset_neq (i k : nat) (x : R) (v : vec) :
  i <> k -> (vset k x v).[i] = v.[i].
Proof.
  revert i k; induction v as [|h t IH]; intros [|i] [|k] H; simpl;
    try congruence; auto.
Qed.

Lemma vset_beyond (i : nat) (x : R) (v : vec) :
  (length v <= i)%nat -> vset i x v = v.
Proof.
  revert i; induction v as [|h t IH]; intros [|i] H; simpl in *;
    try lia; auto.
  f_equal; apply IH; lia.
Qed.

Lemma nth_vset (i k : nat) (x : R) (v : vec) :
  (vset k x v).[i] = if (i =? k)%nat && (k <? length v)%nat then x else v.[i].
Proof.
  destruct (Nat.eqb_spec i k) as [->|Hne]; simpl.
  - destruct (Nat.ltb_spec k (length v)).
    + now apply nth_vset_eq.
    + now rewrite vset_beyond.
  - now apply nth_vset_neq.
Qed.

Lemma nth_repeat_0 (k i : nat) : (repeat 0 k).[i] = 0.
Proof.
  revert i; induction k as [|k IH]; intros [|i]; simpl; auto.
Qed.

Lemma resize_nil (len : nat) (init : R) : resize len init [] = repeat init len.
Proof.
  unfold resize. rewrite firstn_nil. simpl. now rewrite Nat.sub_0_r.
Qed.

Lemma length_resize (len : nat) (init : R) (v : vec) :
  length (resize len init v) = len.
Proof.
  unfold resize. rewrite length_app, length_firstn, repeat_length. lia.
Qed.

Lemma for_0 {S : Type} (body : nat -> S -> S) (s : S) :
  for_ 0 body s = s.
Proof. reflexivity. Qed.

Lemma for_S {S : Type} (k : nat) (body : nat -> S -> S) (s : S) :
  for_ (Datatypes.S k) body s = body k (for_ k body s).
Proof. reflexivity. Qed.

(** The invariant rule of the counted loop. *)
Lemma for_invariant {S : Type} (P : nat -> S -> Prop) (k : nat)
    (body : nat -> S -> S) (s : S) :
  P 0%nat s ->
  (forall i t, (i < k)%nat -> P i t -> P (Datatypes.S i) (body i t)) ->
  P k (for_ k body s).
Proof.
  intros H0 Hstep. induction k as [|k IH]; simpl; [assumption|].
  apply Hstep; [lia|]. apply IH. intros i t Hi. apply Hstep. lia.
Qed.

Lemma sum_for_ext (k : nat) (f g : nat -> R) :
  (forall i, (i < k)%nat -> f i = g i) -> sum_for k f = sum_for k g.
Proof.
  induction k as [|k IH]; intros H; simpl; auto.
  rewrite IH, H; auto.
Qed.

Lemma sum_for_plus (k : nat) (f g : nat -> R) :
  sum_for k (fun i => f i + g i) = sum_for k f + sum_for k g.
Proof.
  induction k as [|k IH]; simpl; [lra | rewrite IH; lra].
Qed.

Lemma sum_for_scale (k : nat) (c : R) (f : nat -> R) :
  sum_for k (fun i => c * f i) = c * sum_for k f.
Proof.
  induction k as [|k IH]; simpl; [lra | rewrite IH; lra].
Qed.

(** A sum of products against a vector, after one entry of the vector is
    overwritten. *)
Lemma sum_for_vset (k j : nat) (x : R) (c : nat -> R) (v : vec) :
  (j < k)%nat -> (j < length v)%nat ->
  sum_for k (fun i => c i * (vset j x v).[i])
  = sum_for k (fun i => c i * v.[i]) + c j * (x - v.[j]).
Proof.
  intros Hjk Hjv. induction k as [|k IH]; [lia|].
  simpl. destruct (Nat.eq_dec j k) as [->|Hne].
  - rewrite nth_vset_eq by assumption.
    rewrite (sum_for_ext k (fun i => c i * (vset k x v).[i])
               (fun i => c i * v.[i])).
    + lra.
    + intros i Hi. rewrite nth_vset_neq by lia. reflexivity.
  - rewrite IH by lia. rewrite nth_vset_neq by lia. lra.
Qed.

(** ** Which members a block assigns *)

Definition touches (W : list member) (f : member) : bool :=
  existsb (member_eqb f) W.

Definition touches_scal (C : list scalar) (c : scalar) : bool :=
  existsb (scalar_eqb c) C.

(** [modifies W C s s']: the state [s'] has the dimensions of [s] and
    differs from it at most in the [Data] members [W], the scalar members
    [C] and the engine. *)
Record modifies {G : Type} (W : list member) (C : list scalar)
    (s s' : Variables G) : Prop := {
  mod_n : n s' = n s;
  mod_w1 : w1 s' = w1 s;
  mod_w2 : w2 s' = w2 s;
  mod_q : q s' = q s;
  mod_vecs : forall f, touches W f = false -> vecs s' f = vecs s f;
  mod_scal : forall c, touches_scal C c = false -> scal s' c = scal s c
}.

Lemma member_code_injective (f g : member) :
  member_code f = member_code g -> f = g.
Proof.
  destruct f; simpl; intros H; destruct g; try discriminate H; reflexivity.
Qed.

Lemma code_eqb_eq (a b : nat) : code_eqb a b = true <-> a = b.
Proof.
  revert b; induction a as [|a IH]; intros [|b]; simpl;
    try (split; [discriminate | lia]); [tauto|].
  rewrite IH. lia.
Qed.

Lemma member_eqb_eq (f g : member) : member_eqb f g = true <-> f = g.
Proof.
  unfold member_eqb. rewrite code_eqb_eq. split.
  - apply member_code_injective.
  - now intros ->.
Qed.

Lemma scalar_eqb_eq (c d : scalar) : scalar_eqb c d = true <-> c = d.
Proof.
  split; [|intros ->; destruct d; reflexivity].
  destruct c, d; simpl; intros H; try reflexivity; discriminate H.
Qed.

Section Frames.

Context {G E : Type} {RS : RandomSource G E} {EO : EvaluationOrder}.

Implicit Types (s t : Variables G) (W : list member) (C : list scalar).

Lemma modifies_refl W C s : modifies W C s s.
Proof. constructor; auto. Qed.

Lemma modifies_trans W C s t u :
  modifies W C s t -> modifies W C t u -> modifies W C s u.
Proof.
  intros [] []. constructor; try congruence.
  - intros f Hf. rewrite mod_vecs1, mod_vecs0; auto.
  - intros c Hc. rewrite mod_scal1, mod_scal0; auto.
Qed.

Lemma modifies_set_vec W C f v s t :
  touches W f = true -> modifies W C s t -> modifies W C s (set_vec f v t).
Proof.
  intros Hf []. constructor; simpl; auto.
  intros g Hg. destruct (member_eqb g f) eqn:Heq; auto.
  apply member_eqb_eq in Heq. congruence.
Qed.

Lemma modifies_set_elem W C f i x s t :
  touches W f = true -> modifies W C s t ->
  modifies W C s (set_elem f i x t).
Proof. apply modifies_set_vec. Qed.

Lemma modifies_resize_member W C f m k x s t :
  touches W f = true -> modifies W C s t ->
  modifies W C s (resize_member f m k x t).
Proof. apply modifies_set_vec. Qed.

Lemma modifies_set_scal W C c x s t :
  touches_scal C c = true -> modifies W C s t ->
  modifies W C s (set_scal c x t).
Proof.
  intros Hc []. constructor; simpl; auto.
  intros d Hd. destruct (scalar_eqb d c) eqn:Heq; auto.
  apply scalar_eqb_eq in Heq. congruence.
Qed.

Lemma modifies_set_generator W C g s t :
  modifies W C s t -> modifies W C s (set_generator g t).
Proof. intros []. constructor; simpl; auto. Qed.

Lemma modifies_snd_draw {X : Type} W C (dist : G -> X * G) s t :
  modifies W C s t -> modifies W C s (snd (draw dist t)).
Proof. apply modifies_set_generator. Qed.

Lemma modifies_for W C k (body : nat -> Variables G -> Variables G) s t :
  (forall i u, (i < k)%nat -> modifies W C u (body i u)) ->
  modifies W C s t -> modifies W C s (for_ k body t).
Proof.
  intros Hbody Hst.
  apply (for_invariant (fun _ u => modifies W C s u)); auto.
  intros i u Hi Hu. eapply modifies_trans; eauto.
Qed.

Lemma touches_true W f : touches W f = true <-> In f W.
Proof.
  unfold touches. rewrite existsb_exists. split.
  - intros [g [Hg Heq]]. apply member_eqb_eq in Heq. now subst.
  - intros H. exists f. split; auto. now apply member_eqb_eq.
Qed.

Lemma touches_scal_true C c : touches_scal C c = true <-> In c C.
Proof.
  unfold touches_scal. rewrite existsb_exists. split.
  - intros [d [Hd Heq]]. apply scalar_eqb_eq in Heq. now subst.
  - intros H. exists c. split; auto. now apply scalar_eqb_eq.
Qed.

Lemma modifies_weaken W W' C C' s t :
  forallb (touches W') W = true ->
  forallb (touches_scal C') C = true ->
  modifies W C s t -> modifies W' C' s t.
Proof.
  intros HW HC []. rewrite forallb_forall in HW, HC.
  constructor; auto.
  - intros f Hf. apply mod_vecs0.
    destruct (touches W f) eqn:Ht; auto.
    apply touches_true in Ht. apply HW in Ht. congruence.
  - intros c Hc. apply mod_scal0.
    destruct (touches_scal C c) eqn:Ht; auto.
    apply touches_scal_true in Ht. apply HC in Ht. congruence.
Qed.

(** A block whose own frame is known, inside a larger frame. *)
Lemma modifies_block W W' C C' (block : Variables G -> Variables G) s t :
  (forall u, modifies W C u (block u)) ->
  forallb (touches W') W = true ->
  forallb (touches_scal C') C = true ->
  modifies W' C' s t -> modifies W' C' s (block t).
Proof.
  intros Hb HW HC Hst. eapply modifies_trans; [exact Hst|].
  eapply modifies_weaken; eauto.
Qed.

End Frames.

Create HintDb frames.

(** Decomposition of a block into its assignments, one [let] at a time. *)
Ltac frame_step :=
  lazymatch goal with
  | H : modifies ?W ?C ?s ?t |- modifies ?W ?C ?s ?t => exact H
  | |- modifies _ _ ?s ?s => apply modifies_refl
  | |- modifies _ _ _ (set_vec _ _ _) =>
      apply modifies_set_vec; [reflexivity|]
  | |- modifies _ _ _ (set_elem _ _ _ _) =>
      apply modifies_set_elem; [reflexivity|]
  | |- modifies _ _ _ (resize_member _ _ _ _ _) =>
      apply modifies_resize_member; [reflexivity|]
  | |- modifies _ _ _ (set_scal _ _ _) =>
      apply modifies_set_scal; [reflexivity|]
  | |- modifies _ _ _ (set_generator _ _) => apply modifies_set_generator
  | |- modifies _ _ _ (snd (draw _ _)) => apply modifies_snd_draw
  | |- modifies _ _ _ (for_ _ _ _) =>
      apply modifies_for; [intros ? ? ?|]
  | |- modifies ?W ?C ?s (let x := ?X in @?body x) =>
      change (modifies W C s (body X)); cbv beta;
      lazymatch type of X with
      | Variables _ =>
          let H := fresh "Hmod" in
          assert (H : modifies W C s X);
          [ | revert H; generalize X; intros ? H ]
      | _ => generalize X; intros ?
      end
  | |- modifies ?W ?C ?s (match draw ?dist ?t with pair _ _ => _ end) =>
      let H := fresh "Hmod" in
      assert (H : modifies W C s (snd (draw dist t)));
      [ | revert H; generalize (draw dist t); intros [? ?] H;
          cbn [snd] in H ]
  | |- modifies _ _ _ (if ?b then _ else _) => destruct b
  | |- modifies _ _ _ (match ?X with pair _ _ => _ end) => destruct X
  | |- modifies _ _ _ (?block ?t) =>
      eapply (modifies_block _ _ _ _ block);
      [ solve [auto with frames] | reflexivity | reflexivity | ]
  end.

Ltac frame := repeat frame_step.

(** Whatever the order of the two operands, [draw_operands] returns two
    draws and the object with the engine set twice. *)
Lemma draw_operands_shape {G X : Type} (left_first : bool)
    (left right : G -> X * G) (s : Variables G) :
  exists (l r : X) (g1 g2 : G),
    draw_operands left_first left right s
    = (l, r, set_generator g2 (set_generator g1 s)).
Proof.
  destruct left_first; cbv delta [draw_operands draw];
    cbv beta iota zeta; cbn [fst snd]; repeat eexists.
Qed.

Ltac operands :=
  match goal with
  | |- context [draw_operands ?b ?l ?r ?t] =>
      let d1 := fresh "d1" in
      let d0 := fresh "d0" in
      let g1 := fresh "g1" in
      let g2 := fresh "g2" in
      let Hd := fresh "Hd" in
      destruct (draw_operands_shape b l r t) as (d1 & d0 & g1 & g2 & Hd);
      rewrite Hd; clear Hd; cbv beta iota zeta
  end.

Section Blocks.

Context {G E : Type} {RS : RandomSource G E} {EO : EvaluationOrder}.

Implicit Types (s t : Variables G).

Lemma init_sigma_modifies s :
  modifies []
    [sigma_m0; sigma_m1; sigma_a; sigma_ma0; sigma_ma1; sigma_g; sigma_e]
    s (init_sigma s).
Proof. cbv delta [init_sigma]; cbv beta. frame. Qed.

Lemma init_norms_modifies s :
  modifies [A2norm; M2norm; C1_2norm; C2_2norm] [] s (init_norms s).
Proof. cbv delta [init_norms]; cbv beta. frame. Qed.

Lemma Residual_res1_modifies s : modifies [res1] [] s (Residual_res1 s).
Proof. cbv delta [Residual_res1]; cbv beta. frame. Qed.

Lemma Residual_res2_modifies s : modifies [res2] [] s (Residual_res2 s).
Proof. cbv delta [Residual_res2]; cbv beta. frame. Qed.

Lemma Residual_res2_c_modifies s :
  modifies [res2_c] [] s (Residual_res2_c s).
Proof. cbv delta [Residual_res2_c]; cbv beta. frame. Qed.

#[local] Hint Resolve Residual_res1_modifies Residual_res2_modifies
  Residual_res2_c_modifies : frames.

Lemma Residual_modifies s :
  modifies [res1; res2; res2_c] [] s (Residual s).
Proof. cbv delta [Residual]; cbv beta. frame. Qed.

Lemma update_var_m_modifies s :
  modifies [var_m0; var_m1] [] s (update_var_m s).
Proof. cbv delta [update_var_m]; cbv beta. frame. Qed.

Lemma update_sigma_e_g_modifies s :
  modifies [] [sigma_e; sigma_g] s (update_sigma_e_g s).
Proof. cbv delta [update_sigma_e_g]; cbv beta. frame. Qed.

Lemma update_var_a_modifies s :
  modifies [var_alpha_a0; var_alpha_a1; var_a] [] s (update_var_a s).
Proof. cbv delta [update_var_a]; cbv beta. frame. Qed.

Lemma update_beta_m_modifies j m0 m1 s :
  modifies [beta_m; res1] [old] s (update_beta_m j m0 m1 s).
Proof.
  cbv delta [update_beta_m]; cbv beta zeta. operands. frame.
Qed.

Lemma update_alpha_a_modifies j a0 a1 s :
  modifies [alpha_a; res2] [old] s (update_alpha_a j a0 a1 s).
Proof.
  cbv delta [update_alpha_a]; cbv beta zeta. operands. frame.
Qed.

Lemma update_r1_modifies j m0 m1 s :
  modifies [r1] [] s (update_r1 j m0 m1 s).
Proof. cbv delta [update_r1]; cbv beta. frame. Qed.

Lemma update_r3_modifies j a0 a1 s :
  modifies [r3] [] s (update_r3 j a0 a1 s).
Proof. cbv delta [update_r3]; cbv beta. frame. Qed.

Lemma update_alpha_c_modifies j j1 s :
  modifies [alpha_c; res2; res2_c] [old] s (update_alpha_c j j1 s).
Proof. cbv delta [update_alpha_c]; cbv beta. frame. Qed.

#[local] Hint Resolve update_beta_m_modifies update_alpha_a_modifies
  update_r1_modifies update_r3_modifies update_alpha_c_modifies : frames.

Lemma update_mediator_modifies j s :
  modifies [beta_m; res1; alpha_a; res2; r1; r3; alpha_c; res2_c] [old]
    s (update_mediator j s).
Proof. cbv delta [update_mediator]; cbv beta. frame. Qed.

Lemma update_beta_c_modifies j s :
  modifies [beta_c; res1] [old] s (update_beta_c j s).
Proof.
  cbv delta [update_beta_c]; cbv beta.
  frame_step; [frame|]. cbv zeta.
  apply modifies_for; [intros; frame|].
  apply (for_invariant (fun _ r => modifies [beta_c; res1] [old] s (snd r)));
    cbn [snd]; [assumption|].
  intros i [mu t] Hi Ht; cbn [snd] in *.
  cbv delta [draw]; cbv beta iota; cbn [snd]. frame.
Qed.

Lemma update_beta_a_modifies s :
  modifies [beta_a; res1] [old] s (update_beta_a s).
Proof. cbv delta [update_beta_a]; cbv beta. frame. Qed.

Lemma update_sigma_m_modifies s :
  modifies [] [sigma_m1; sigma_a; sigma_ma1; sigma_m0; sigma_ma0] s
    (update_sigma_m s).
Proof. cbv delta [update_sigma_m]; cbv beta. frame. Qed.

Lemma update_pi_modifies s (e : E) :
  modifies [pi_m; pi_a] [] s (fst (update_pi s e)).
Proof.
  cbv delta [update_pi]; cbv beta.
  destruct (Data_rand (-0.01) 0.01 (1 * q s) e) as [lm e1].
  destruct (Data_rand (-0.01) 0.01 (1 * q s) e1) as [la e2].
  cbv zeta. destruct (Data_rand 0.0 1.0 (1 * 1) e2) as [u e3].
  destruct (xgt _ _); cbn [fst]; frame.
Qed.

End Blocks.

#[export] Hint Resolve Residual_modifies update_var_m_modifies
  update_sigma_e_g_modifies update_var_a_modifies update_mediator_modifies
  update_beta_c_modifies update_beta_a_modifies update_sigma_m_modifies
  update_beta_m_modifies update_alpha_a_modifies update_r1_modifies
  update_r3_modifies update_alpha_c_modifies : frames.

(** Reduction of reads from a state built by explicit assignments. *)
Ltac store :=
  cbv beta iota delta
    [vecs scal n w1 w2 q q1 q2 generator set_vec set_elem set_scal
     set_generator resize_member member_eqb member_code code_eqb
     scalar_eqb draw];
  cbn [fst snd];
  repeat match goal with
  | |- context [match ?s with mkVariables _ _ _ _ _ _ _ _ _ => _ end] =>
      progress (fold (n s) (w1 s) (w2 s) (q s) (q1 s) (q2 s) (generator s)
                  (vecs s) (scal s))
  end.

Section Construction.

Context {G E : Type} {RS : RandomSource G E} {EO : EvaluationOrder}.

Lemma init_values_modifies (s : Variables G) :
  modifies [r1; r3; beta_a; beta_c; alpha_c] [] s (init_values s).
Proof. cbv delta [init_values]; cbv beta. frame. Qed.

(** C10: whatever data the caller supplies, the constructor leaves [r1] and
    [r3] as [q] zeros, [beta_c] as [w1] zeros, [alpha_c] as [w2 * q] zeros
    and [beta_a] as the single entry [0.0135567741]. *)
Theorem ctor_initial_values
    (userY userA userM userC1 userC2 userbeta_m useralpha_a userpi_m
     userpi_a : vec) (n w1 w2 q q1 q2 : nat) :
  let s := Variables_ctor userY userA userM userC1 userC2 userbeta_m
             useralpha_a userpi_m userpi_a n w1 w2 q q1 q2 in
  vecs s r1 = repeat 0 q /\
  vecs s r3 = repeat 0 q /\
  vecs s beta_c = repeat 0 w1 /\
  vecs s alpha_c = repeat 0 (w2 * q) /\
  vecs s beta_a = [0.0135567741].
Proof.
  cbv delta [Variables_ctor]; cbv beta zeta.
  set (s0 := mkVariables n w1 w2 q q1 q2 default_random_engine _ _).
  pose proof (init_sigma_modifies s0) as [_ Hw1 Hw2 Hq Hv _].
  assert (Hnil : forall f, In f [r1; r3; beta_a; beta_c; alpha_c] ->
            vecs (init_sigma s0) f = []).
  { intros f Hf. rewrite Hv by reflexivity.
    simpl in Hf. decompose [or] Hf; subst; try reflexivity; contradiction. }
  repeat rewrite (mod_vecs _ _ _ _ (init_norms_modifies _)) by reflexivity.
  cbv delta [init_values]; cbv beta zeta. store.
  rewrite Hw1, Hw2, Hq. subst s0. store.
  rewrite !Hnil by (simpl; tauto).
  rewrite !resize_nil, zero_dot_zero, !Nat.mul_1_l.
  repeat split; reflexivity.
Qed.

End Construction.

(** ** The effects of [Iteration] outside the object *)

Section Effects.

Context {G E : Type} {RS : RandomSource G E} {EO : EvaluationOrder}.

Implicit Types (s : Variables G) (w : World E).

Lemma sweep_modifies it s :
  modifies
    [res1; res2; res2_c; var_m0; var_m1; var_alpha_a0; var_alpha_a1; var_a;
     beta_m; alpha_a; r1; r3; alpha_c; beta_c; beta_a]
    [sigma_m0; sigma_m1; sigma_a; sigma_ma0; sigma_ma1; sigma_g; sigma_e;
     old]
    s (sweep it s).
Proof. cbv delta [sweep]; cbv beta. frame. Qed.

(** [Iteration] with its output collected. *)
Lemma Iteration_eq burnIn it s w :
  Iteration burnIn it (s, w)
  = let r := update_pi (sweep it s) (srand it (rand_state w)) in
    let w2 :=
      mkWorld (snd r)
        ((stdout w
         ++ (if (it mod 10000 =? 0)%nat
             then [("Iter %4lu sigma_m0 %.3E sigma_e %.3E sigma_g %.3E sigma_ma0 %.3E sigma_m1 %.3E sigma_a %.3E sigma_ma1 %.3E"%string,
                    [PSize it; PReal (scal s sigma_m0);
                     PReal (scal s sigma_e); PReal (scal s sigma_g);
                     PReal (scal s sigma_ma0); PReal (scal s sigma_m1);
                     PReal (scal s sigma_a); PReal (scal s sigma_ma1)])]
             else []))
         ++ (if (it mod 1000 =? 0)%nat
             then [("Iter %4lu \n"%string, [PSize it])] else []))
        (files w) in
    (fst r,
     if (burnIn <? it)%nat && (it mod 10 =? 0)%nat
     then write_results (fst r) w2 else w2).
Proof.
  cbv delta [Iteration]; cbv beta iota zeta.
  destruct (it mod 10000 =? 0)%nat; destruct (it mod 1000 =? 0)%nat;
    cbn [printf rand_state stdout files];
    rewrite ?app_nil_r; reflexivity.
Qed.

Lemma Iteration_fst burnIn it s w :
  fst (Iteration burnIn it (s, w))
  = fst (update_pi (sweep it s) (srand it (rand_state w))).
Proof. rewrite Iteration_eq. reflexivity. Qed.

Lemma Iteration_q burnIn it s w : q (fst (Iteration burnIn it (s, w))) = q s.
Proof.
  rewrite Iteration_fst.
  rewrite (mod_q _ _ _ _ (update_pi_modifies _ _)).
  apply (mod_q _ _ _ _ (sweep_modifies it s)).
Qed.

Lemma write_results_files s w f :
  files (write_results s w) f
  = if String.eqb f (outfilename s) then files w f ++ result_row s
    else files w f.
Proof.
  unfold write_results, result_row. cbv zeta.
  set (cell := fun j : nat =>
    [OReal (vecs s beta_m).[j]; OStr " "; OReal (vecs s pi_m).[j]; OStr " ";
     OReal (vecs s alpha_a).[j]; OStr " "; OReal (vecs s pi_a).[j];
     OStr " "]).
  assert (Hloop : forall k,
    files (for_ k (fun i w0 => append_to (outfilename s) (cell i) w0) w) f
    = if String.eqb f (outfilename s)
      then files w f ++ flat_map cell (seq 0 k) else files w f).
  { induction k as [|k IH].
    - cbn [for_ seq flat_map].
      destruct (String.eqb _ _); [now rewrite app_nil_r | reflexivity].
    - cbn [for_ append_to files]. rewrite IH.
      destruct (String.eqb _ _); [|reflexivity].
      rewrite seq_S, flat_map_app. cbn [flat_map Nat.add].
      now rewrite app_nil_r, app_assoc. }
  cbn [append_to files]. rewrite Hloop.
  destruct (String.eqb _ _); [|reflexivity]. now rewrite app_assoc.
Qed.

Lemma write_results_stdout s w : stdout (write_results s w) = stdout w.
Proof.
  unfold write_results. cbv zeta. cbn [append_to stdout].
  apply (for_invariant (fun _ w0 => stdout w0 = stdout w)); auto.
Qed.

Lemma write_results_rand_state s w :
  rand_state (write_results s w) = rand_state w.
Proof.
  unfold write_results. cbv zeta. cbn [append_to rand_state].
  apply (for_invariant (fun _ w0 => rand_state w0 = rand_state w)); auto.
Qed.

Lemma Iteration_files burnIn it s w f :
  files (snd (Iteration burnIn it (s, w))) f
  = if (burnIn <? it)%nat && (it mod 10 =? 0)%nat
       && String.eqb f (outfilename s)
    then files w f ++ result_row (fst (Iteration burnIn it (s, w)))
    else files w f.
Proof.
  assert (Hname : outfilename (fst (Iteration burnIn it (s, w)))
                  = outfilename s).
  { unfold outfilename. now rewrite Iteration_q. }
  revert Hname. rewrite Iteration_eq. cbv zeta. cbn [fst snd]. intros Hname.
  destruct ((burnIn <? it)%nat && (it mod 10 =? 0)%nat); cbn [andb].
  - rewrite write_results_files, Hname. reflexivity.
  - reflexivity.
Qed.

Lemma Iteration_stdout burnIn it s w :
  stdout (snd (Iteration burnIn it (s, w)))
  = stdout w
    ++ (if (it mod 10000 =? 0)%nat
        then [("Iter %4lu sigma_m0 %.3E sigma_e %.3E sigma_g %.3E sigma_ma0 %.3E sigma_m1 %.3E sigma_a %.3E sigma_ma1 %.3E"%string,
               [PSize it; PReal (scal s sigma_m0); PReal (scal s sigma_e);
                PReal (scal s sigma_g); PReal (scal s sigma_ma0);
                PReal (scal s sigma_m1); PReal (scal s sigma_a);
                PReal (scal s sigma_ma1)])]
        else [])
    ++ (if (it mod 1000 =? 0)%nat
        then [("Iter %4lu \n"%string, [PSize it])] else []).
Proof.
  rewrite Iteration_eq. cbv zeta. cbn [snd].
  destruct ((burnIn <? it)%nat && (it mod 10 =? 0)%nat);
    rewrite ?write_results_stdout; cbn [stdout]; now rewrite app_assoc.
Qed.

Lemma Iteration_rand_state burnIn it s w :
  rand_state (snd (Iteration burnIn it (s, w)))
  = snd (update_pi (sweep it s) (srand it (rand_state w))).
Proof.
  rewrite Iteration_eq. cbv zeta. cbn [snd].
  destruct ((burnIn <? it)%nat && (it mod 10 =? 0)%nat);
    rewrite ?write_results_rand_state; reflexivity.
Qed.

(** C7: [Iteration(burnIn, it)] appends one row to the file
    [results_<q>.txt] when [it > burnIn] and [it mod 10 == 0], and leaves
    every file as it was otherwise; the row lists, for each mediator in
    order, [beta_m[j]], [pi_m[j]], [alpha_a[j]] and [pi_a[j]], each followed
    by a space, then [beta_a] and a newline, all read from the state the
    iteration ends in.  The text already in the file is kept. *)
Theorem result_sink_append burnIn it s w (f : string) :
  let s' := fst (Iteration burnIn it (s, w)) in
  let w' := snd (Iteration burnIn it (s, w)) in
  files w' f
  = if (burnIn <? it)%nat && (it mod 10 =? 0)%nat
       && String.eqb f
            ("results_" ++ to_string (int_of_size_t (q s)) ++ ".txt")%string
    then files w f ++ result_row s'
    else files w f.
Proof.
  intros s' w'. subst s' w'. rewrite Iteration_files. reflexivity.
Qed.

(** C9, as amended: besides the object, [Iteration(burnIn, it)] changes the
    standard output (a line of variances in front when [it mod 10000 == 0],
    a progress line at the end when [it mod 1000 == 0]), the process-wide
    random source ([srand(it)], then the three calls of [rand] of the
    proposal block) and, when [it > burnIn] and [it mod 10 == 0], the
    result file by one appended row; every other file is left alone. *)
Theorem Iteration_effects burnIn it s w :
  let s' := fst (Iteration burnIn it (s, w)) in
  let w' := snd (Iteration burnIn it (s, w)) in
  stdout w'
  = stdout w
    ++ (if (it mod 10000 =? 0)%nat
        then [("Iter %4lu sigma_m0 %.3E sigma_e %.3E sigma_g %.3E sigma_ma0 %.3E sigma_m1 %.3E sigma_a %.3E sigma_ma1 %.3E"%string,
               [PSize it; PReal (scal s sigma_m0); PReal (scal s sigma_e);
                PReal (scal s sigma_g); PReal (scal s sigma_ma0);
                PReal (scal s sigma_m1); PReal (scal s sigma_a);
                PReal (scal s sigma_ma1)])]
        else [])
    ++ (if (it mod 1000 =? 0)%nat
        then [("Iter %4lu \n"%string, [PSize it])] else [])
  /\ rand_state w' = snd (update_pi (sweep it s) (srand it (rand_state w)))
  /\ forall f : string,
       files w' f
       = if (burnIn <? it)%nat && (it mod 10 =? 0)%nat
            && String.eqb f (outfilename s)
         then files w f ++ result_row s'
         else files w f.
Proof.
  intros s' w'. subst s' w'. split; [apply Iteration_stdout|].
  split; [apply Iteration_rand_state|]. intros f. apply Iteration_files.
Qed.

End Effects.

(** C9, as stated, fails: the very first call, [Iteration(0, 0)], prints two
    lines on the standard output, which was empty. *)
Lemma Iteration_prints_progress :
  stdout empty_world = []
  /\ map fst (stdout (snd (Iteration 0 0 (small_object, empty_world))))
     = ["Iter %4lu sigma_m0 %.3E sigma_e %.3E sigma_g %.3E sigma_ma0 %.3E sigma_m1 %.3E sigma_a %.3E sigma_ma1 %.3E"%string;
        "Iter %4lu \n"%string].
Proof.
  split; [reflexivity|]. rewrite Iteration_stdout. reflexivity.
Qed.

(** ** The variance components *)

Section Variances.

Context {G E : Type} {RS : RandomSource G E} {EO : EvaluationOrder}.

Implicit Types (s : Variables G) (w : World E).

Lemma gamma_distribution_ext (k k' theta theta' : R) (g : G) :
  k = k' -> theta = theta' ->
  gamma_distribution k theta g = gamma_distribution k' theta' g.
Proof. now intros -> ->. Qed.

Lemma inverse_gamma_draw_fst (shape rate : R) (g : G) :
  fst (inverse_gamma_draw shape rate g)
  = 1 / fst (gamma_distribution shape (1 / rate) g).
Proof.
  unfold inverse_gamma_draw. now destruct (gamma_distribution _ _ _).
Qed.

Lemma inverse_gamma_draw_snd (shape rate : R) (g : G) :
  snd (inverse_gamma_draw shape rate g)
  = snd (gamma_distribution shape (1 / rate) g).
Proof.
  unfold inverse_gamma_draw. now destruct (gamma_distribution _ _ _).
Qed.

(** One assignment [sigma = 1.0 / dist( generator )] of the code, against
    the inverse-gamma draw of the specification. *)
Lemma code_draw_is_inverse_gamma (k theta shape rate : R) (g : G) :
  k = shape -> theta = 1 / rate ->
  1.0 / fst (gamma_distribution k theta g)
  = fst (inverse_gamma_draw shape rate g)
  /\ snd (gamma_distribution k theta g)
     = snd (inverse_gamma_draw shape rate g).
Proof.
  intros -> ->.
  rewrite inverse_gamma_draw_fst, inverse_gamma_draw_snd, one_dot_zero.
  now split.
Qed.

(** The next draw of the code is the inverse-gamma draw [d]. *)
Ltac gamma_step d :=
  let body := eval cbv delta [d] in d in
  lazymatch body with
  | inverse_gamma_draw ?shape ?rate ?g =>
      match goal with
      | |- context [gamma_distribution ?k ?th g] =>
          let H1 := fresh "Hfst" in
          let H2 := fresh "Hsnd" in
          destruct (code_draw_is_inverse_gamma k th shape rate g)
            as [H1 H2];
          [ lra
          | rewrite one_dot_zero; f_equal; lra
          | fold d in H1, H2; rewrite ?H1, ?H2 ]
      end
  end.

Lemma sum_for_squares (k : nat) (v : vec) :
  sum_for k (fun i => v.[i] * v.[i]) = sum_for k (fun i => v.[i] ^ 2).
Proof. apply sum_for_ext. intros. ring. Qed.

(** The block [sigma_e and sigma_g]. *)
Lemma update_sigma_e_g_draws s :
  let de := inverse_gamma_draw (ke + INR (n s) / 2)
      (le + 1 / 2 * sum_for (n s) (fun i => (vecs s res1).[i] ^ 2))
      (generator s) in
  let dg := inverse_gamma_draw (kg + INR (q s) * INR (n s) / 2)
      (lg + 1 / 2 * sum_for (n s * q s) (fun i => (vecs s res2).[i] ^ 2))
      (snd de) in
  scal (update_sigma_e_g s) sigma_e = fst de
  /\ scal (update_sigma_e_g s) sigma_g = fst dg
  /\ generator (update_sigma_e_g s) = snd dg.
Proof.
  intros de dg.
  cbv delta [update_sigma_e_g]; cbv beta zeta. store.
  rewrite !sum_for_squares.
  destruct (code_draw_is_inverse_gamma
    (ke + INR (n s) / 2.0)
    (1.0 / (sum_for (n s) (fun i => (vecs s res1).[i] ^ 2) / 2.0 + le))
    (ke + INR (n s) / 2)
    (le + 1 / 2 * sum_for (n s) (fun i => (vecs s res1).[i] ^ 2))
    (generator s)) as [He1 He2];
    [ lra | rewrite one_dot_zero; f_equal; lra | ].
  fold de in He1, He2. rewrite He1, He2.
  destruct (code_draw_is_inverse_gamma
    (INR (q s) * (INR (n s) / 2.0) + kg)
    (1.0 / (sum_for (n s * q s) (fun i => (vecs s res2).[i] ^ 2) / 2.0 + lg))
    (kg + INR (q s) * INR (n s) / 2)
    (lg + 1 / 2 * sum_for (n s * q s) (fun i => (vecs s res2).[i] ^ 2))
    (snd de)) as [Hg1 Hg2];
    [ lra | rewrite one_dot_zero; f_equal; lra | ].
  fold dg in Hg1, Hg2. rewrite Hg1, Hg2. repeat split.
Qed.

Lemma sum_for_weighted_squares (k : nat) (b : vec) (wt : nat -> R) :
  sum_for k (fun j => b.[j] * b.[j] * wt j)
  = sum_for k (fun j => wt j * b.[j] ^ 2).
Proof. apply sum_for_ext. intros. ring. Qed.

(** The block [update sigma_m, sigma_a and sigma_ma]. *)
Lemma update_sigma_m_draws s :
  let dm1 := inverse_gamma_draw
      (km1 + 1 / 2 * sum_for (q s) (fun j => (vecs s r1).[j]))
      (lm1 + 1 / 2 * sum_for (q s) (fun j =>
                       (vecs s r1).[j] * (vecs s beta_m).[j] ^ 2))
      (generator s) in
  let da := inverse_gamma_draw (ka + 1 / 2)
      (la + (vecs s beta_a).[0] ^ 2 / 2) (snd dm1) in
  let dma1 := inverse_gamma_draw
      (kma1 + 1 / 2 * sum_for (q s) (fun j => (vecs s r3).[j]))
      (lma1 + 1 / 2 * sum_for (q s) (fun j =>
                        (vecs s r3).[j] * (vecs s alpha_a).[j] ^ 2))
      (snd da) in
  let dm0 := inverse_gamma_draw
      (km0 + 1 / 2 * sum_for (q s) (fun j => 1 - (vecs s r1).[j]))
      (lm0 + 1 / 2 * sum_for (q s) (fun j =>
                       (1 - (vecs s r1).[j]) * (vecs s beta_m).[j] ^ 2))
      (snd dma1) in
  let dma0 := inverse_gamma_draw
      (kma0 + 1 / 2 * sum_for (q s) (fun j => 1 - (vecs s r3).[j]))
      (lma0 + 1 / 2 * sum_for (q s) (fun j =>
                        (1 - (vecs s r3).[j]) * (vecs s alpha_a).[j] ^ 2))
      (snd dm0) in
  scal (update_sigma_m s) sigma_m1 = fst dm1
  /\ scal (update_sigma_m s) sigma_a = fst da
  /\ scal (update_sigma_m s) sigma_ma1 = fst dma1
  /\ scal (update_sigma_m s) sigma_m0 = fst dm0
  /\ scal (update_sigma_m s) sigma_ma0 = fst dma0
  /\ generator (update_sigma_m s) = snd dma0.
Proof.
  intros dm1 da dma1 dm0 dma0.
  cbv delta [update_sigma_m]; cbv beta zeta. store.
  rewrite (sum_for_weighted_squares (q s) (vecs s beta_m)
             (fun j => (vecs s r1).[j])),
          (sum_for_weighted_squares (q s) (vecs s alpha_a)
             (fun j => (vecs s r3).[j])),
          (sum_for_weighted_squares (q s) (vecs s beta_m)
             (fun j => 1 - (vecs s r1).[j])),
          (sum_for_weighted_squares (q s) (vecs s alpha_a)
             (fun j => 1 - (vecs s r3).[j])).
  gamma_step dm1. gamma_step da. gamma_step dma1. gamma_step dm0.
  gamma_step dma0. repeat split.
Qed.

(** C6: in every iteration each of the seven variances is the reciprocal
    of a Gamma draw with the stated shape and rate.  [sigma_e] and [sigma_g]
    are drawn in front of the coefficient sweep, from the residual caches as
    they are there (state [s1]); the other five are drawn after it, from the
    indicators and coefficients the sweep has produced (state [s6]), in the
    order [sigma_m1], [sigma_a], [sigma_ma1], [sigma_m0], [sigma_ma0]. *)
Theorem variance_components_drawn burnIn it s w :
  let s1 := update_var_m (if (it =? 0)%nat then Residual s else s) in
  let s3 := update_var_a (update_sigma_e_g s1) in
  let s4 := for_ (q s3) update_mediator s3 in
  let s5 := for_ (w1 s4) update_beta_c s4 in
  let s6 := update_beta_a s5 in
  let s' := fst (Iteration burnIn it (s, w)) in
  let de := inverse_gamma_draw (ke + INR (n s) / 2)
      (le + 1 / 2 * sum_for (n s) (fun i => (vecs s1 res1).[i] ^ 2))
      (generator s1) in
  let dg := inverse_gamma_draw (kg + INR (q s) * INR (n s) / 2)
      (lg + 1 / 2 * sum_for (n s * q s) (fun i => (vecs s1 res2).[i] ^ 2))
      (snd de) in
  let dm1 := inverse_gamma_draw
      (km1 + 1 / 2 * sum_for (q s) (fun j => (vecs s6 r1).[j]))
      (lm1 + 1 / 2 * sum_for (q s) (fun j =>
                       (vecs s6 r1).[j] * (vecs s6 beta_m).[j] ^ 2))
      (generator s6) in
  let da := inverse_gamma_draw (ka + 1 / 2)
      (la + (vecs s6 beta_a).[0] ^ 2 / 2) (snd dm1) in
  let dma1 := inverse_gamma_draw
      (kma1 + 1 / 2 * sum_for (q s) (fun j => (vecs s6 r3).[j]))
      (lma1 + 1 / 2 * sum_for (q s) (fun j =>
                        (vecs s6 r3).[j] * (vecs s6 alpha_a).[j] ^ 2))
      (snd da) in
  let dm0 := inverse_gamma_draw
      (km0 + 1 / 2 * sum_for (q s) (fun j => 1 - (vecs s6 r1).[j]))
      (lm0 + 1 / 2 * sum_for (q s) (fun j =>
                       (1 - (vecs s6 r1).[j]) * (vecs s6 beta_m).[j] ^ 2))
      (snd dma1) in
  let dma0 := inverse_gamma_draw
      (kma0 + 1 / 2 * sum_for (q s) (fun j => 1 - (vecs s6 r3).[j]))
      (lma0 + 1 / 2 * sum_for (q s) (fun j =>
                        (1 - (vecs s6 r3).[j]) * (vecs s6 alpha_a).[j] ^ 2))
      (snd dm0) in
  scal s' sigma_e = fst de /\ scal s' sigma_g = fst dg
  /\ scal s' sigma_m1 = fst dm1 /\ scal s' sigma_a = fst da
  /\ scal s' sigma_ma1 = fst dma1 /\ scal s' sigma_m0 = fst dm0
  /\ scal s' sigma_ma0 = fst dma0.
Proof.
  intros s1 s3 s4 s5 s6 s'.
  assert (Hs' : forall c, scal s' c = scal (update_sigma_m s6) c).
  { intros c. subst s'. rewrite Iteration_fst.
    now rewrite (mod_scal _ _ _ _ (update_pi_modifies _ _)). }
  assert (H1 : modifies [res1; res2; res2_c; var_m0; var_m1] [] s s1).
  { subst s1. frame. }
  assert (H6 : modifies
            [var_alpha_a0; var_alpha_a1; var_a; beta_m; res1; alpha_a; res2;
             r1; r3; alpha_c; res2_c; beta_c; beta_a] [old]
            (update_sigma_e_g s1) s6).
  { subst s6 s5 s4 s3. frame. }
  assert (Hq : q s6 = q s).
  { rewrite (mod_q _ _ _ _ H6), (mod_q _ _ _ _ (update_sigma_e_g_modifies _)).
    apply (mod_q _ _ _ _ H1). }
  pose proof (update_sigma_e_g_draws s1) as He. cbv zeta in He.
  rewrite (mod_n _ _ _ _ H1), (mod_q _ _ _ _ H1) in He.
  destruct He as (He & Hg & _).
  pose proof (update_sigma_m_draws s6) as Hm. cbv zeta in Hm.
  rewrite Hq in Hm. destruct Hm as (Hm1 & Ha & Hma1 & Hm0 & Hma0 & _).
  intros de dg dm1 da dma1 dm0 dma0. rewrite !Hs'.
  repeat split; try assumption.
  - rewrite (mod_scal _ _ _ _ (update_sigma_m_modifies _)) by reflexivity.
    rewrite (mod_scal _ _ _ _ H6) by reflexivity. exact He.
  - rewrite (mod_scal _ _ _ _ (update_sigma_m_modifies _)) by reflexivity.
    rewrite (mod_scal _ _ _ _ H6) by reflexivity. exact Hg.
Qed.

End Variances.

(** ** The inclusion indicators *)

Section Indicators.

Context {G E : Type} {RS : RandomSource G E} {EO : EvaluationOrder}.

Implicit Types (s t : Variables G).

Lemma code_log_odds (mean1 var1 mean0 var0 priorVar1 priorVar0 p : R) :
  mean1 * mean1 / (2 * var1) - mean0 * mean0 / (2 * var0)
  + 0.5 * ln (var1 / priorVar1) - 0.5 * ln (var0 / priorVar0)
  + ln (p / (1.0 - p))
  = log_odds mean1 var1 mean0 var0 priorVar1 priorVar0 p.
Proof. unfold log_odds. rewrite one_dot_zero. simpl pow. lra. Qed.

(** The rule of section 4.3 as an assignment to entry [j] of an indicator
    vector [ind]. *)
Lemma indicator_assignment (ind : member) (j : nat) (lo : R) t :
  (j < length (vecs t ind))%nat ->
  let t' :=
    if Rlt_dec lo 300 then
      let c := exp lo in
      let (b, u) := draw (bernoulli_distribution (c / (1.0 + c))) t in
      if b then set_elem ind j 1.0 u else set_elem ind j 0.0 u
    else set_elem ind j 1.0 t in
  (vecs t' ind).[j] = fst (indicator_draw lo (generator t))
  /\ generator t' = snd (indicator_draw lo (generator t)).
Proof.
  intros Hj. unfold indicator_draw. cbv zeta. rewrite one_dot_zero.
  assert (Hset : forall x (u : Variables G), vecs u ind = vecs t ind ->
            (vecs (set_elem ind j x u) ind).[j] = x).
  { intros x u Hu. unfold set_elem, set_vec. cbn [vecs].
    replace (member_eqb ind ind) with true
      by (symmetry; now apply member_eqb_eq).
    rewrite nth_vset_eq; [reflexivity | now rewrite Hu]. }
  destruct (Rlt_dec lo 300) as [Hlt|Hge].
  - cbv delta [draw]; cbv beta iota.
    destruct (bernoulli_distribution (exp lo / (1 + exp lo)) (generator t))
      as [[|] g']; cbn [fst snd]; rewrite Hset by reflexivity; split;
      reflexivity || lra.
  - rewrite Hset by reflexivity. split; reflexivity || lra.
Qed.

Lemma update_r1_draw j m0 m1 t :
  (j < length (vecs t r1))%nat ->
  let d := indicator_draw
      (log_odds m1 (vecs t var_m1).[j] m0 (vecs t var_m0).[j]
         (scal t sigma_m1) (scal t sigma_m0) (vecs t pi_m).[j])
      (generator t) in
  (vecs (update_r1 j m0 m1 t) r1).[j] = fst d
  /\ generator (update_r1 j m0 m1 t) = snd d.
Proof.
  intros Hj. cbv delta [update_r1]; cbv beta zeta.
  rewrite code_log_odds. now apply indicator_assignment.
Qed.

Lemma update_r3_draw j a0 a1 t :
  (j < length (vecs t r3))%nat ->
  let d := indicator_draw
      (log_odds a1 (vecs t var_alpha_a1).[0] a0 (vecs t var_alpha_a0).[0]
         (scal t sigma_ma1) (scal t sigma_ma0) (vecs t pi_a).[j])
      (generator t) in
  (vecs (update_r3 j a0 a1 t) r3).[j] = fst d
  /\ generator (update_r3 j a0 a1 t) = snd d.
Proof.
  intros Hj. cbv delta [update_r3]; cbv beta zeta.
  rewrite code_log_odds. now apply indicator_assignment.
Qed.

(** C1: in the body of the loop over the mediators, [r1[j]] becomes the
    draw of section 4.3 for the log-odds built from the means [mu_mj1],
    [mu_mj0] and the variances [var_m1[j]], [var_m0[j]] that parametrise the
    two normal draws of [beta_m[j]], from [sigma_m1], [sigma_m0] and from
    [pi_m[j]]: a Bernoulli draw with probability [p / (1 + p)],
    [p = exp logOdds], when the log-odds is below 300, and 1 otherwise.
    [r3[j]] follows the same rule with [mu_alpha_aj1], [mu_alpha_aj0],
    [var_alpha_a1], [var_alpha_a0], [sigma_ma1], [sigma_ma0] and [pi_a[j]],
    on the engine as the draw for [r1[j]] leaves it.  The rule is stated
    where both log-odds are finite numbers: means whose divisors are not
    zero, positive variances and probabilities strictly between 0 and 1. *)
Theorem indicator_update_rule j s :
  (j < length (vecs s r1))%nat ->
  (j < length (vecs s r3))%nat ->
  means_defined j s ->
  log_odds_defined (vecs s var_m1).[j] (vecs s var_m0).[j]
    (scal s sigma_m1) (scal s sigma_m0) (vecs s pi_m).[j] ->
  log_odds_defined (vecs s var_alpha_a1).[0] (vecs s var_alpha_a0).[0]
    (scal s sigma_ma1) (scal s sigma_ma0) (vecs s pi_a).[j] ->
  let s2 := update_alpha_a j (mu_alpha_aj0 j s) (mu_alpha_aj1 j s)
              (update_beta_m j (mu_mj0 j s) (mu_mj1 j s) s) in
  let d1 := indicator_draw
      (log_odds (mu_mj1 j s) (vecs s var_m1).[j]
         (mu_mj0 j s) (vecs s var_m0).[j]
         (scal s sigma_m1) (scal s sigma_m0) (vecs s pi_m).[j])
      (generator s2) in
  let d3 := indicator_draw
      (log_odds (mu_alpha_aj1 j s) (vecs s var_alpha_a1).[0]
         (mu_alpha_aj0 j s) (vecs s var_alpha_a0).[0]
         (scal s sigma_ma1) (scal s sigma_ma0) (vecs s pi_a).[j])
      (snd d1) in
  (vecs (update_mediator j s) r1).[j] = fst d1
  /\ (vecs (update_mediator j s) r3).[j] = fst d3.
Proof.
  intros Hj1 Hj3 _ _ _ s2.
  assert (H2 : modifies [beta_m; res1; alpha_a; res2] [old] s s2).
  { subst s2. frame. }
  set (s3 := update_r1 j (mu_mj0 j s) (mu_mj1 j s) s2).
  set (s4 := update_r3 j (mu_alpha_aj0 j s) (mu_alpha_aj1 j s) s3).
  assert (H3 : modifies [r1] [] s2 s3) by apply update_r1_modifies.
  assert (H4 : modifies [r3] [] s3 s4) by apply update_r3_modifies.
  assert (H5 : modifies [alpha_c; res2; res2_c] [old] s4
                 (update_mediator j s)).
  { change (update_mediator j s) with (for_ (w2 s4) (update_alpha_c j) s4).
    frame. }
  assert (Hr1 : (j < length (vecs s2 r1))%nat).
  { now rewrite (mod_vecs _ _ _ _ H2) by reflexivity. }
  assert (Hr3 : (j < length (vecs s3 r3))%nat).
  { rewrite (mod_vecs _ _ _ _ H3), (mod_vecs _ _ _ _ H2) by reflexivity.
    assumption. }
  pose proof (update_r1_draw j (mu_mj0 j s) (mu_mj1 j s) s2 Hr1) as D1.
  pose proof (update_r3_draw j (mu_alpha_aj0 j s) (mu_alpha_aj1 j s) s3 Hr3)
    as D3.
  cbv zeta in D1, D3. fold s3 in D1. fold s4 in D3.
  rewrite !(mod_vecs _ _ _ _ H2), !(mod_scal _ _ _ _ H2) in D1
    by reflexivity.
  rewrite !(mod_vecs _ _ _ _ H3), !(mod_scal _ _ _ _ H3),
    !(mod_vecs _ _ _ _ H2), !(mod_scal _ _ _ _ H2) in D3 by reflexivity.
  destruct D1 as [D1v D1g]. destruct D3 as [D3v _].
  rewrite D1g in D3v. intros d1 d3. split.
  - rewrite (mod_vecs _ _ _ _ H5), (mod_vecs _ _ _ _ H4) by reflexivity.
    exact D1v.
  - rewrite (mod_vecs _ _ _ _ H5) by reflexivity. exact D3v.
Qed.

End Indicators.

(** The rule at mediator 0 of the small object. *)
Lemma indicator_update_rule_witness :
  let s := small_state in
  let j := 0%nat in
  let s2 := update_alpha_a j (mu_alpha_aj0 j s) (mu_alpha_aj1 j s)
              (update_beta_m j (mu_mj0 j s) (mu_mj1 j s) s) in
  let d1 := indicator_draw
      (log_odds (mu_mj1 j s) (vecs s var_m1).[j]
         (mu_mj0 j s) (vecs s var_m0).[j]
         (scal s sigma_m1) (scal s sigma_m0) (vecs s pi_m).[j])
      (generator s2) in
  let d3 := indicator_draw
      (log_odds (mu_alpha_aj1 j s) (vecs s var_alpha_a1).[0]
         (mu_alpha_aj0 j s) (vecs s var_alpha_a0).[0]
         (scal s sigma_ma1) (scal s sigma_ma0) (vecs s pi_a).[j])
      (snd d1) in
  (vecs (update_mediator j s) r1).[j] = fst d1
  /\ (vecs (update_mediator j s) r3).[j] = fst d3.
Proof.
  apply (indicator_update_rule 0%nat small_state);
    try (simpl; lia); unfold means_defined, log_odds_defined; simpl;
    repeat split; lra.
Defined.

(** ** The proposal for the inclusion probabilities *)

(** The four assignments of the proposal loop, on the value they act on. *)
Definition reflect_code (k : nat) (x : R) : R :=
  let x := if Rgt_dec x 1.0 then 1.0 / x else x in
  if Rlt_dec x (1.0 / INR k) then 1.0 / (size_t_mul_to_T k k * x) else x.

Lemma propose_nth (k j : nat) (p e v : vec) :
  (j < length v)%nat ->
  (propose k j p e v).[j] = reflect_code k (Rabs (p.[j] * exp (e.[j]))).
Proof.
  intros Hj. unfold propose, reflect_code. cbv zeta.
  rewrite !nth_vset_eq by (rewrite ?length_vset; assumption).
  destruct (Rgt_dec _ 1.0);
    rewrite ?nth_vset_eq by (rewrite ?length_vset; assumption);
    destruct (Rlt_dec _ _);
    rewrite ?nth_vset_eq by (rewrite ?length_vset; assumption);
    reflexivity.
Qed.

Lemma propose_length (k j : nat) (p e v : vec) :
  length (propose k j p e v) = length v.
Proof.
  unfold propose. cbv zeta.
  destruct (Rgt_dec _ 1.0); destruct (Rlt_dec _ _);
    rewrite ?length_vset; reflexivity.
Qed.

Lemma propose_other (k j i : nat) (p e v : vec) :
  i <> j -> (propose k j p e v).[i] = v.[i].
Proof.
  intros Hi. unfold propose. cbv zeta.
  destruct (Rgt_dec _ 1.0); destruct (Rlt_dec _ _);
    rewrite ?nth_vset_neq by assumption; reflexivity.
Qed.

Lemma size_t_mul_small (k : nat) :
  (Z.of_nat k < 4294967296)%Z -> size_t_mul_to_T k k = INR k * INR k.
Proof.
  intros Hk. unfold size_t_mul_to_T.
  rewrite Z.mod_small by nia.
  rewrite mult_IZR, <- !INR_IZR_INZ. reflexivity.
Qed.

Lemma reflect_code_reflect (k : nat) (x : R) :
  (Z.of_nat k < 4294967296)%Z -> reflect_code k x = reflect k x.
Proof.
  intros Hk. unfold reflect_code, reflect.
  rewrite size_t_mul_small, !one_dot_zero by assumption. reflexivity.
Qed.

(** The reflected value is at least [1/k]. *)
Lemma reflect_code_floor (k : nat) (x : R) :
  (1 <= k)%nat -> (Z.of_nat k < 4294967296)%Z -> 0 < x ->
  1 / INR k <= reflect_code k x.
Proof.
  intros Hk1 Hk Hx. unfold reflect_code.
  rewrite size_t_mul_small, !one_dot_zero by assumption.
  assert (HK : 1 <= INR k) by (apply (le_INR 1); exact Hk1).
  assert (Hx' : 0 < (if Rgt_dec x 1 then 1 / x else x)).
  { destruct (Rgt_dec x 1); [apply Rdiv_lt_0_compat; lra | exact Hx]. }
  cbv zeta. set (y := if Rgt_dec x 1 then 1 / x else x) in *. clearbody y.
  set (K := INR k) in *. clearbody K.
  destruct (Rlt_dec y (1 / K)) as [Hlt|Hge]; [|lra].
  assert (HKy : K * y < 1).
  { replace 1 with (K * (1 / K)) by (field; lra).
    apply Rmult_lt_compat_l; lra. }
  assert (Hpos : 0 < K * K * y)
    by (apply Rmult_lt_0_compat; [apply Rmult_lt_0_compat; lra | exact Hx']).
  unfold Rdiv. rewrite !Rmult_1_l. apply Rinv_le_contravar; [exact Hpos|].
  nra.
Qed.

(** ** Sums that need not be finite *)

Lemma xlog_positive (x : R) : 0 < x -> xlog x = xfinite (ln x).
Proof.
  intros H. unfold xlog. destruct (Rlt_dec 0 x); [reflexivity|contradiction].
Qed.

Lemma xlog_negative (x : R) : x < 0 -> xlog x = xnan.
Proof.
  intros H. unfold xlog. destruct (Rlt_dec 0 x); [lra|].
  destruct (Rlt_dec x 0); [reflexivity|contradiction].
Qed.

Lemma xadd_nan_r (a : xreal) : xadd a xnan = xnan.
Proof. destruct a; reflexivity. Qed.

Lemma xmul_nan_l (b : xreal) : xmul xnan b = xnan.
Proof. destruct b; reflexivity. Qed.

Lemma xmul_comm (a b : xreal) : xmul a b = xmul b a.
Proof.
  destruct a, b; cbn [xmul]; try reflexivity. f_equal. ring.
Qed.

Lemma xgt_finite (x y : R) : x > y -> xgt (xfinite x) (xfinite y) = true.
Proof.
  intros H. cbn [xgt]. destruct (Rgt_dec x y); [reflexivity|contradiction].
Qed.

Lemma xsum_for_ext (k : nat) (f g : nat -> xreal) :
  (forall j, (j < k)%nat -> f j = g j) -> xsum_for k f = xsum_for k g.
Proof.
  induction k as [|k IH]; intros H; [reflexivity|]. cbn [xsum_for].
  rewrite IH, H by (intros; try apply H; lia). reflexivity.
Qed.

(** One term that is NaN makes the sum NaN. *)
Lemma xsum_for_nan (k : nat) (f : nat -> xreal) (j : nat) :
  (j < k)%nat -> f j = xnan -> xsum_for k f = xnan.
Proof.
  induction k as [|k IH]; intros Hj Hf; [lia|]. cbn [xsum_for].
  destruct (Nat.eq_dec j k) as [->|Hne].
  - rewrite Hf. apply xadd_nan_r.
  - rewrite IH by (assumption || lia). reflexivity.
Qed.

Lemma xsum_for_finite (k : nat) (f : nat -> xreal) (g : nat -> R) :
  (forall j, (j < k)%nat -> f j = xfinite (g j)) ->
  xsum_for k f = xfinite (sum_for k g).
Proof.
  induction k as [|k IH]; intros H; [reflexivity|]. cbn [xsum_for sum_for].
  rewrite IH, H by (intros; try apply H; lia). reflexivity.
Qed.

(** The term of the log-posterior of a probability above 1. *)
Lemma log_term_above_one (y : R) (a b : xreal) :
  1 < y -> xadd (xmul (xlog y) a) (xmul (xlog (1 - y)) b) = xnan.
Proof.
  intros Hy. rewrite (xlog_negative (1 - y)) by lra.
  rewrite xmul_nan_l. apply xadd_nan_r.
Qed.

Section Proposal.

Context {G E : Type} {RS : RandomSource G E} {EO : EvaluationOrder}.

Implicit Types (s : Variables G) (e : E).

(** The proposal loop, entry by entry. *)
Lemma my_pi_nth s (lm la : vec) :
  length (fst (my_pi s lm la)) = q s
  /\ length (snd (my_pi s lm la)) = q s
  /\ forall j, (j < q s)%nat ->
       (fst (my_pi s lm la)).[j]
       = reflect_code (q s) (Rabs ((vecs s pi_m).[j] * exp (lm.[j])))
       /\ (snd (my_pi s lm la)).[j]
          = reflect_code (q s) (Rabs ((vecs s pi_a).[j] * exp (la.[j]))).
Proof.
  unfold my_pi. rewrite Nat.mul_1_l.
  assert (H : forall k, (k <= q s)%nat ->
    let my := for_ k (fun j (my : vec * vec) =>
        (propose (q s) j (vecs s pi_m) lm (fst my),
         propose (q s) j (vecs s pi_a) la (snd my)))
        (repeat 0.0 (q s), repeat 0.0 (q s)) in
    length (fst my) = q s /\ length (snd my) = q s /\
    forall j, (j < k)%nat ->
      (fst my).[j]
      = reflect_code (q s) (Rabs ((vecs s pi_m).[j] * exp (lm.[j])))
      /\ (snd my).[j]
         = reflect_code (q s) (Rabs ((vecs s pi_a).[j] * exp (la.[j])))).
  { induction k as [|k IH]; intros Hk; cbn [for_ fst snd].
    - rewrite !repeat_length. repeat split; intros; lia.
    - destruct IH as (Lm & La & IH); [lia|].
      rewrite !propose_length. repeat split; try assumption.
      + destruct (Nat.eq_dec j k) as [->|Hne].
        * apply propose_nth. lia.
        * rewrite propose_other by assumption. apply IH. lia.
      + destruct (Nat.eq_dec j k) as [->|Hne].
        * apply propose_nth. lia.
        * rewrite propose_other by assumption. apply IH. lia. }
  apply (H (q s)). lia.
Qed.

Lemma PostDistribution1_logPosterior s (v : vec) :
  PostDistribution1 s v = logPosterior (q s) (vecs s r1) v.
Proof.
  unfold PostDistribution1, logPosterior. apply xsum_for_ext. intros.
  now rewrite (xmul_comm (xlog _)), (xmul_comm (xlog (1 - _))).
Qed.

Lemma PostDistribution2_logPosterior s (v : vec) :
  PostDistribution2 s v = logPosterior (q s) (vecs s r3) v.
Proof.
  unfold PostDistribution2, logPosterior. apply xsum_for_ext. intros.
  now rewrite (xmul_comm (xlog _)), (xmul_comm (xlog (1 - _))).
Qed.

Lemma probab_nan s (pm pa : vec) :
  PostDistribution1 s pm = xnan \/ PostDistribution2 s pa = xnan ->
  probab s pm pa = xnan.
Proof.
  unfold probab. generalize (PostDistribution1 s (vecs s pi_m)).
  generalize (PostDistribution2 s (vecs s pi_a)).
  intros c2 c1 [H|H]; rewrite H.
  - destruct (PostDistribution2 s pa), c2, c1; reflexivity.
  - destruct (PostDistribution1 s pm), c2, c1; reflexivity.
Qed.

(** A vector with an entry above 1 has no log-posterior: the sum is NaN. *)
Lemma PostDistribution1_above_one s (v : vec) (j : nat) :
  (j < q s)%nat -> 1 < v.[j] -> PostDistribution1 s v = xnan.
Proof.
  intros Hj Hv. unfold PostDistribution1.
  apply (xsum_for_nan _ _ j Hj), log_term_above_one, Hv.
Qed.

Lemma PostDistribution2_above_one s (v : vec) (j : nat) :
  (j < q s)%nat -> 1 < v.[j] -> PostDistribution2 s v = xnan.
Proof.
  intros Hj Hv. unfold PostDistribution2.
  apply (xsum_for_nan _ _ j Hj), log_term_above_one, Hv.
Qed.

(** A proposal that passes the acceptance test has no entry above 1. *)
Lemma accepted_at_most_one s (pm pa : vec) (b : xreal) :
  xgt (probab s pm pa) b = true ->
  forall j, (j < q s)%nat -> pm.[j] <= 1 /\ pa.[j] <= 1.
Proof.
  intros Hacc j Hj. split; apply Rnot_lt_le; intros Hv.
  - rewrite (probab_nan s pm pa) in Hacc; [destruct b; discriminate|].
    left. apply (PostDistribution1_above_one s pm j Hj Hv).
  - rewrite (probab_nan s pm pa) in Hacc; [destruct b; discriminate|].
    right. apply (PostDistribution2_above_one s pa j Hj Hv).
Qed.

(** Where every probability lies strictly between 0 and 1 the
    log-posterior is the real sum. *)
Lemma logPosterior_finite (k : nat) (r p : vec) :
  (forall j, (j < k)%nat -> 0 < p.[j] < 1) ->
  logPosterior k r p = xfinite (logPosterior_real k r p).
Proof.
  intros Hp. unfold logPosterior, logPosterior_real.
  apply xsum_for_finite. intros j Hj. destruct (Hp j Hj).
  rewrite !xlog_positive by lra. reflexivity.
Qed.

(** The loop that overwrites [pi_a] and [pi_m] with the proposal. *)
Lemma accept_loop s (my_pi_m my_pi_a : vec) :
  length (vecs s pi_m) = q s -> length (vecs s pi_a) = q s ->
  length my_pi_m = q s -> length my_pi_a = q s ->
  let s' := for_ (q s) (fun j t =>
      let t := set_elem pi_a j (my_pi_a.[j]) t in
      set_elem pi_m j (my_pi_m.[j]) t) s in
  vecs s' pi_m = my_pi_m /\ vecs s' pi_a = my_pi_a.
Proof.
  intros Lm La Lm' La'.
  assert (H : forall k, (k <= q s)%nat ->
    let t := for_ k (fun j t =>
        let t := set_elem pi_a j (my_pi_a.[j]) t in
        set_elem pi_m j (my_pi_m.[j]) t) s in
    length (vecs t pi_m) = q s /\ length (vecs t pi_a) = q s /\
    forall j,
      (vecs t pi_m).[j]
      = (if (j <? k)%nat then my_pi_m.[j] else (vecs s pi_m).[j])
      /\ (vecs t pi_a).[j]
         = (if (j <? k)%nat then my_pi_a.[j] else (vecs s pi_a).[j])).
  { induction k as [|k IH]; intros Hk.
    - rewrite for_0. repeat split; assumption || reflexivity.
    - destruct IH as (Lmk & Lak & IH); [lia|]. rewrite for_S.
      revert Lmk Lak IH. generalize (for_ k (fun j t =>
        let t := set_elem pi_a j (my_pi_a.[j]) t in
        set_elem pi_m j (my_pi_m.[j]) t) s).
      intros t Lmk Lak IH. cbv zeta. store.
      rewrite !length_vset. repeat split; try assumption.
      + rewrite nth_vset, Lmk. destruct (IH j) as [IHm _]. rewrite IHm.
        destruct (Nat.eqb_spec j k) as [->|Hne].
        * replace (k <? q s)%nat with true by (symmetry; apply Nat.ltb_lt; lia).
          replace (k <? S k)%nat with true by (symmetry; apply Nat.ltb_lt; lia).
          reflexivity.
        * cbn [andb]. destruct (Nat.ltb_spec j k), (Nat.ltb_spec j (S k));
            reflexivity || lia.
      + rewrite nth_vset, Lak. destruct (IH j) as [_ IHa]. rewrite IHa.
        destruct (Nat.eqb_spec j k) as [->|Hne].
        * replace (k <? q s)%nat with true by (symmetry; apply Nat.ltb_lt; lia).
          replace (k <? S k)%nat with true by (symmetry; apply Nat.ltb_lt; lia).
          reflexivity.
        * cbn [andb]. destruct (Nat.ltb_spec j k), (Nat.ltb_spec j (S k));
            reflexivity || lia. }
  destruct (H (q s)) as (Lmq & Laq & Hq); [lia|]. split.
  - apply (nth_ext _ _ 0 0); [congruence|]. intros j Hj.
    destruct (Hq j) as [-> _].
    replace (j <? q s)%nat with true by (symmetry; apply Nat.ltb_lt; lia).
    reflexivity.
  - apply (nth_ext _ _ 0 0); [congruence|]. intros j Hj.
    destruct (Hq j) as [_ ->].
    replace (j <? q s)%nat with true by (symmetry; apply Nat.ltb_lt; lia).
    reflexivity.
Qed.

(** What the proposal block leaves in [pi_m] and [pi_a]. *)
Lemma update_pi_outcome s e :
  length (vecs s pi_m) = q s -> length (vecs s pi_a) = q s ->
  let rm := Data_rand (-0.01) 0.01 (q s) e in
  let ra := Data_rand (-0.01) 0.01 (q s) (snd rm) in
  let pi_m' := fst (my_pi s (fst rm) (fst ra)) in
  let pi_a' := snd (my_pi s (fst rm) (fst ra)) in
  let u := (fst (Data_rand 0 1 1 (snd ra))).[0] in
  let s' := fst (update_pi s e) in
  (vecs s' pi_m, vecs s' pi_a)
  = if xgt (probab s pi_m' pi_a') (xlog u) then (pi_m', pi_a')
    else (vecs s pi_m, vecs s pi_a).
Proof.
  intros Lm La rm ra pi_m' pi_a' u.
  cbv delta [update_pi]; cbv beta.
  rewrite Nat.mul_1_l, zero_dot_zero, one_dot_zero. cbn [Nat.mul Nat.add].
  fold rm. destruct rm as [lm e1] eqn:Erm. cbn [snd fst] in *.
  fold ra. destruct ra as [la e2] eqn:Era. cbn [snd fst] in *.
  cbv zeta. fold pi_m' pi_a'.
  destruct (Data_rand 0 1 1 e2) as [un e3] eqn:Eu. cbn [fst] in u.
  fold u. destruct (xgt (probab s pi_m' pi_a') (xlog u)); cbn [fst].
  - destruct (my_pi_nth s lm la) as (L1 & L2 & _).
    pose proof (accept_loop s pi_m' pi_a' Lm La L1 L2) as Hacc.
    cbv zeta in Hacc. destruct Hacc as [-> ->]. reflexivity.
  - reflexivity.
Qed.

End Proposal.

Section Acceptance.

Context {G E : Type} {RS : RandomSource G E} {EO : EvaluationOrder}.

Implicit Types (s : Variables G) (e : E).

(** C4: where no divisor of the proposal is zero ([q < 2^32] and no current
    probability is 0), the proposal block computes
    [logRatio = logPosterior(pi_a') - logPosterior(pi_a)
                + logPosterior(pi_m') - logPosterior(pi_m)]
    with the current indicators ([r3] for [pi_a], [r1] for [pi_m]), draws
    one uniform [u], and overwrites [pi_m] and [pi_a] with their proposals
    when [logRatio > log u]; otherwise it leaves both as they were.  The
    two vectors are never accepted separately.  The logarithms, the sums
    and the comparison are those of the code: a [logRatio] that is NaN, as
    a proposal with an entry above 1 gives, fails the test. *)
Theorem joint_acceptance s e :
  (Z.of_nat (q s) < 4294967296)%Z ->
  length (vecs s pi_m) = q s ->
  length (vecs s pi_a) = q s ->
  (forall j, (j < q s)%nat ->
     (vecs s pi_m).[j] <> 0 /\ (vecs s pi_a).[j] <> 0) ->
  let rm := Data_rand (-0.01) 0.01 (q s) e in
  let ra := Data_rand (-0.01) 0.01 (q s) (snd rm) in
  let pi_m' := fst (my_pi s (fst rm) (fst ra)) in
  let pi_a' := snd (my_pi s (fst rm) (fst ra)) in
  let logRatio :=
    xsub
      (xadd
         (xsub (logPosterior (q s) (vecs s r3) pi_a')
               (logPosterior (q s) (vecs s r3) (vecs s pi_a)))
         (logPosterior (q s) (vecs s r1) pi_m'))
      (logPosterior (q s) (vecs s r1) (vecs s pi_m)) in
  let u := (fst (Data_rand 0 1 1 (snd ra))).[0] in
  let s' := fst (update_pi s e) in
  (vecs s' pi_m, vecs s' pi_a)
  = (if xgt logRatio (xlog u) then (pi_m', pi_a')
     else (vecs s pi_m, vecs s pi_a))
  /\ ((exists j, (j < q s)%nat /\ (1 < pi_m'.[j] \/ 1 < pi_a'.[j])) ->
      xgt logRatio (xlog u) = false).
Proof.
  intros _ Lm La _ rm ra pi_m' pi_a' logRatio u s'.
  pose proof (update_pi_outcome s e Lm La) as H. cbv zeta in H.
  fold rm ra pi_m' pi_a' u s' in H.
  assert (Hr : logRatio = probab s pi_m' pi_a').
  { unfold probab, logRatio.
    now rewrite !PostDistribution1_logPosterior,
      !PostDistribution2_logPosterior. }
  rewrite Hr. split; [exact H|].
  intros (j & Hj & Hv).
  destruct (xgt (probab s pi_m' pi_a') (xlog u)) eqn:Hacc; [|reflexivity].
  destruct (accepted_at_most_one s pi_m' pi_a' _ Hacc j Hj). lra.
Qed.

End Acceptance.

(** With perturbations equal to 0 the proposal for the object whose
    [pi_m[0]] is [0.3] differs from the current vectors: its first entry
    is [1 / (4 * 0.3)]. *)
Lemma pi_low_object_proposal :
  my_pi pi_low_object
    (fst (Data_rand (-0.01) 0.01 (q pi_low_object) tt))
    (fst (Data_rand (-0.01) 0.01 (q pi_low_object)
            (snd (Data_rand (-0.01) 0.01 (q pi_low_object) tt))))
  = ([5 / 6; 0.75], [0.5; 0.5]).
Proof.
  destruct (my_pi_nth pi_low_object
    (fst (Data_rand (-0.01) 0.01 (q pi_low_object) tt))
    (fst (Data_rand (-0.01) 0.01 (q pi_low_object)
            (snd (Data_rand (-0.01) 0.01 (q pi_low_object) tt)))))
    as (Lm & La & Hnth).
  destruct (my_pi _ _ _) as [pm pa]. cbn [fst snd] in Lm, La, Hnth.
  assert (Hval : forall x, 1 / 2 <= x <= 1 ->
    reflect_code 2 (Rabs (x * exp ((-0.01 + 0.01) / 2))) = x).
  { intros x Hx. replace ((-0.01 + 0.01) / 2) with 0 by lra.
    rewrite exp_0, Rmult_1_r, Rabs_pos_eq by lra.
    unfold reflect_code. simpl INR.
    destruct (Rgt_dec x 1.0) as [H|H]; [lra|].
    destruct (Rlt_dec x (1.0 / (1 + 1))) as [H'|H']; [lra|reflexivity]. }
  assert (Hlow :
    reflect_code 2 (Rabs (0.3 * exp ((-0.01 + 0.01) / 2))) = 5 / 6).
  { replace ((-0.01 + 0.01) / 2) with 0 by lra.
    rewrite exp_0, Rmult_1_r, Rabs_pos_eq by lra.
    unfold reflect_code. rewrite size_t_mul_small by (simpl; lia).
    simpl INR.
    destruct (Rgt_dec 0.3 1.0) as [H|H]; [lra|].
    destruct (Rlt_dec 0.3 (1.0 / (1 + 1))) as [H'|H']; [|lra].
    lra. }
  f_equal; apply (nth_ext _ _ 0 0); try assumption;
    intros j Hj; rewrite ?Lm, ?La in Hj;
    destruct (Hnth j Hj) as [E1 E2]; rewrite ?E1, ?E2;
    destruct j as [|[|j]]; try (simpl in Hj; lia);
    cbn [Data_rand mean_source fst snd q vecs pi_low_object repeat nth];
    try exact Hlow; apply Hval; lra.
Qed.

(** On that object the proposal is accepted: the log-ratio is
    [ln (5/6) - ln 0.3], which is positive, and [ln u] is [ln (1/2)]. *)
Lemma pi_low_object_accepted :
  let s' := fst (update_pi pi_low_object tt) in
  vecs s' pi_m = [5 / 6; 0.75] /\ vecs s' pi_a = [0.5; 0.5].
Proof.
  cbv zeta.
  pose proof (update_pi_outcome pi_low_object tt eq_refl eq_refl) as Hout.
  cbv zeta in Hout. rewrite pi_low_object_proposal in Hout.
  cbn [fst snd] in Hout.
  assert (Hacc : xgt (probab pi_low_object [5 / 6; 0.75] [0.5; 0.5])
                   (xlog (fst (Data_rand 0 1 1 tt)).[0]) = true).
  { cbn [Data_rand mean_source fst repeat nth].
    unfold probab, PostDistribution1, PostDistribution2.
    cbn [xsum_for q vecs pi_low_object nth].
    rewrite !xlog_positive by lra.
    cbn [xmul xadd xsub xopp]. apply xgt_finite.
    assert (H1 : ln 0.3 < ln (5 / 6)) by (apply ln_increasing; lra).
    assert (H2 : ln ((0 + 1) / 2) < ln 1) by (apply ln_increasing; lra).
    rewrite ln_1 in H2.
    lra. }
  cbn [Data_rand mean_source fst snd] in Hout, Hacc.
  rewrite Hacc in Hout. injection Hout as -> ->. split; reflexivity.
Qed.

(** The acceptance test on the object whose proposal differs from its
    current probabilities. *)
Lemma joint_acceptance_witness :
  let s := pi_low_object in
  let rm := Data_rand (-0.01) 0.01 (q s) tt in
  let ra := Data_rand (-0.01) 0.01 (q s) (snd rm) in
  let pi_m' := fst (my_pi s (fst rm) (fst ra)) in
  let pi_a' := snd (my_pi s (fst rm) (fst ra)) in
  let logRatio :=
    xsub
      (xadd
         (xsub (logPosterior (q s) (vecs s r3) pi_a')
               (logPosterior (q s) (vecs s r3) (vecs s pi_a)))
         (logPosterior (q s) (vecs s r1) pi_m'))
      (logPosterior (q s) (vecs s r1) (vecs s pi_m)) in
  let u := (fst (Data_rand 0 1 1 (snd ra))).[0] in
  let s' := fst (update_pi s tt) in
  (vecs s' pi_m, vecs s' pi_a)
  = (if xgt logRatio (xlog u) then (pi_m', pi_a')
     else (vecs s pi_m, vecs s pi_a))
  /\ ((exists j, (j < q s)%nat /\ (1 < pi_m'.[j] \/ 1 < pi_a'.[j])) ->
      xgt logRatio (xlog u) = false).
Proof.
  apply (joint_acceptance pi_low_object tt);
    try reflexivity; try (simpl; lia).
  intros [|[|j]] Hj; simpl in *; try lia; lra.
Defined.

(** ** The range of the inclusion probabilities *)

Section Range.

Context {G E : Type} {RS : RandomSource G E} {EO : EvaluationOrder}.

Implicit Types (s : Variables G) (e : E).

(** C5, as amended: for [2 <= q < 2^32], if every [pi_m[j]] and [pi_a[j]]
    lies in [(1/q^2, 1]] in front of the proposal block, then every
    [pi_m[j]] and [pi_a[j]] lies in [(1/q^2, 1]] after it, whatever the
    perturbations and the uniform draw are; an entry that the block has
    changed is at least [1/q]. *)
Theorem pi_range_preserved s e :
  (2 <= q s)%nat ->
  (Z.of_nat (q s) < 4294967296)%Z ->
  length (vecs s pi_m) = q s ->
  length (vecs s pi_a) = q s ->
  (forall j, (j < q s)%nat ->
     1 / INR (q s) ^ 2 < (vecs s pi_m).[j] <= 1
     /\ 1 / INR (q s) ^ 2 < (vecs s pi_a).[j] <= 1) ->
  let s' := fst (update_pi s e) in
  forall j, (j < q s)%nat ->
    (1 / INR (q s) ^ 2 < (vecs s' pi_m).[j] <= 1
     /\ ((vecs s' pi_m).[j] = (vecs s pi_m).[j]
         \/ 1 / INR (q s) <= (vecs s' pi_m).[j]))
    /\ (1 / INR (q s) ^ 2 < (vecs s' pi_a).[j] <= 1
        /\ ((vecs s' pi_a).[j] = (vecs s pi_a).[j]
            \/ 1 / INR (q s) <= (vecs s' pi_a).[j])).
Proof.
  intros Hq2 Hq32 Lm La Hin s' j Hj.
  assert (HQ : 2 <= INR (q s)) by (apply (le_INR 2); exact Hq2).
  assert (Hsq : 0 < 1 / INR (q s) ^ 2).
  { apply Rdiv_lt_0_compat; [lra|]. apply pow_lt. lra. }
  assert (Hfloor : forall x, 1 / INR (q s) <= x -> 1 / INR (q s) ^ 2 < x).
  { intros x Hx. apply Rlt_le_trans with (1 / INR (q s)); [|exact Hx].
    unfold Rdiv. rewrite !Rmult_1_l. apply Rinv_lt_contravar; nra. }
  pose proof (update_pi_outcome s e Lm La) as Hout. cbv zeta in Hout.
  fold s' in Hout.
  destruct (xgt _ _) eqn:Hacc in Hout; injection Hout as Hm Ha;
    rewrite Hm, Ha.
  - destruct (accepted_at_most_one s _ _ _ Hacc j Hj) as [Hm1 Ha1].
    destruct (my_pi_nth s
      (fst (Data_rand (-0.01) 0.01 (q s) e))
      (fst (Data_rand (-0.01) 0.01 (q s)
              (snd (Data_rand (-0.01) 0.01 (q s) e)))))
      as (_ & _ & Hnth).
    destruct (Hnth j Hj) as [Em Ea]. rewrite Em in Hm1. rewrite Ea in Ha1.
    rewrite Em, Ea.
    destruct (Hin j Hj) as [Hpm Hpa].
    assert (Fm : 1 / INR (q s)
                 <= reflect_code (q s)
                      (Rabs ((vecs s pi_m).[j]
                             * exp (fst (Data_rand (-0.01) 0.01 (q s) e)).[j]))).
    { apply reflect_code_floor; [lia | assumption |].
      apply Rabs_pos_lt, Rgt_not_eq, Rmult_lt_0_compat;
        [lra | apply exp_pos]. }
    assert (Fa : 1 / INR (q s)
                 <= reflect_code (q s)
                      (Rabs ((vecs s pi_a).[j]
                             * exp (fst (Data_rand (-0.01) 0.01 (q s)
                                      (snd (Data_rand (-0.01) 0.01 (q s) e)))).[j]))).
    { apply reflect_code_floor; [lia | assumption |].
      apply Rabs_pos_lt, Rgt_not_eq, Rmult_lt_0_compat;
        [lra | apply exp_pos]. }
    split; (split; [split; [apply Hfloor|] | right]); assumption.
  - destruct (Hin j Hj) as [Hpm Hpa].
    split; (split; [assumption | left; reflexivity]).
Qed.

End Range.

(** The range is kept on the object whose probabilities are 0.3, 0.75 and
    0.5, 0.5, with [q = 2]: the proposal, which replaces 0.3 with 5/6, is
    accepted. *)
Lemma pi_range_preserved_witness :
  let s := pi_low_object in
  let s' := fst (update_pi s tt) in
  let inside (j : nat) :=
    (1 / INR (q s) ^ 2 < (vecs s' pi_m).[j] <= 1
     /\ ((vecs s' pi_m).[j] = (vecs s pi_m).[j]
         \/ 1 / INR (q s) <= (vecs s' pi_m).[j]))
    /\ (1 / INR (q s) ^ 2 < (vecs s' pi_a).[j] <= 1
        /\ ((vecs s' pi_a).[j] = (vecs s pi_a).[j]
            \/ 1 / INR (q s) <= (vecs s' pi_a).[j])) in
  inside 0%nat /\ inside 1%nat.
Proof.
  cbv zeta.
  assert (H := pi_range_preserved pi_low_object tt).
  cbv zeta in H.
  split; apply H; try reflexivity; try (simpl; lia);
    intros [|[|j]] Hj; simpl in *; try lia; lra.
Defined.

(** C5, as stated, fails: the range holds after the block only if it held
    in front of it.  With [q = 2] and [pi_m[0] = 0.1], a probability inside
    [(0, 1)] that the caller may pass, the proposal for [pi_m[0]] is 2.5,
    its log-posterior is NaN, the proposal is rejected, and [pi_m[0]] is
    still 0.1 after the block, which is not in [(1/4, 1]]. *)
Lemma pi_leaves_range :
  let s' := fst (update_pi pi_object tt) in
  let p := (vecs s' pi_m).[0] in
  q pi_object = 2%nat
  /\ (vecs pi_object pi_m).[0] = 0.1
  /\ p = 0.1
  /\ p <= 1 / INR (q pi_object) ^ 2.
Proof.
  cbv zeta. split; [reflexivity|]. split; [reflexivity|].
  pose proof (update_pi_outcome pi_object tt eq_refl eq_refl) as Hout.
  cbv zeta in Hout. apply (f_equal fst) in Hout.
  destruct (xgt _ _) eqn:Hacc in Hout; cbn [fst] in Hout; rewrite Hout.
  - exfalso.
    destruct (accepted_at_most_one pi_object _ _ _ Hacc 0%nat) as [H1 _];
      [simpl; lia|].
    destruct (my_pi_nth pi_object
      (fst (Data_rand (-0.01) 0.01 (q pi_object) tt))
      (fst (Data_rand (-0.01) 0.01 (q pi_object)
              (snd (Data_rand (-0.01) 0.01 (q pi_object) tt)))))
      as (_ & _ & Hnth).
    destruct (Hnth 0%nat) as [E1 _]; [simpl; lia|].
    rewrite E1 in H1. revert H1.
    cbn [Data_rand mean_source fst snd q vecs pi_object repeat nth].
    replace ((-0.01 + 0.01) / 2) with 0 by lra.
    rewrite exp_0, Rmult_1_r, Rabs_pos_eq by lra.
    unfold reflect_code. rewrite size_t_mul_small by (simpl; lia).
    simpl INR.
    destruct (Rgt_dec 0.1 1.0) as [H|H]; [lra|].
    destruct (Rlt_dec 0.1 (1.0 / (1 + 1))) as [H'|H']; [|lra].
    intros H1.
    assert (H25 : 1.0 / ((1 + 1) * (1 + 1) * 0.1) = 2.5) by lra.
    lra.
  - split; [reflexivity|]. simpl. lra.
Qed.

(** ** The covariate coefficients of the outcome stage *)

(** C3, at [n = 2] and [w1 = 1]: the block for [beta_c[0]] consumes two
    normal draws instead of one (the engine counts them); with draws equal
    to their means the value left in [beta_c[0]] is [4/5], while the mean
    the specification describes (the complete inner product of the column with the
    residual plus the column times the old coefficient, over the squared
    norm) is [2].  The residual is corrected once, by [(old - new)] times
    the column. *)
Lemma beta_c_redrawn_in_loop :
  let s := beta_c_object in
  let s' := update_beta_c 0 s in
  n s = 2%nat
  /\ generator s = 0%nat /\ generator s' = 2%nat
  /\ (vecs s' beta_c).[0] = 4 / 5
  /\ sum_for (n s) (fun i =>
       at_n s C1 i 0
       * ((vecs s res1).[i] + at_n s C1 i 0 * (vecs s beta_c).[0]))
     / (vecs s C1_2norm).[0] = 2
  /\ vecs s' res1 = [5 + (0 - 4 / 5) * 2; 0 + (0 - 4 / 5) * 1].
Proof.
  cbv beta iota zeta delta
    [update_beta_c beta_c_object for_ draw normal_distribution mean_source
     set_scal set_elem set_vec set_generator vecs scal n generator
     nth vset at_n member_eqb member_code code_eqb scalar_eqb fst snd
     Nat.mul Nat.add sum_for].
  repeat split; try reflexivity; try lra.
  f_equal; [lra | f_equal; lra].
Qed.

(** ** The residual caches *)

Lemma vset_same (j : nat) (v : vec) : vset j (v.[j]) v = v.
Proof.
  revert j; induction v as [|h t IH]; intros [|j]; simpl; auto.
  now rewrite IH.
Qed.

Lemma vset_vset (j : nat) (x y : R) (v : vec) :
  vset j y (vset j x v) = vset j y v.
Proof.
  revert j; induction v as [|h t IH]; intros [|j]; simpl; auto.
  now rewrite IH.
Qed.

(** A loop that rewrites the entries [base .. base + k - 1] of a vector,
    each from its own old value. *)
Lemma vloop_nth (h : nat -> R -> R) (base k : nat) (v : vec) :
  (base + k <= length v)%nat ->
  let v' := for_ k (fun i u => vset (base + i) (h i (u.[base + i])) u) v in
  length v' = length v
  /\ forall idx,
       v'.[idx] = if (base <=? idx)%nat && (idx <? base + k)%nat
                  then h (idx - base)%nat (v.[idx]) else v.[idx].
Proof.
  induction k as [|k IH]; intros Hk; cbv zeta.
  - rewrite for_0. split; [reflexivity|]. intros idx.
    destruct (Nat.leb_spec base idx), (Nat.ltb_spec idx (base + 0));
      cbn [andb]; reflexivity || lia.
  - rewrite for_S. destruct IH as [IHl IHn]; [lia|]. cbv zeta in IHl, IHn.
    match goal with
    | |- context [for_ k ?body v] => set (u := for_ k body v) in *
    end.
    clearbody u.
    split; [now rewrite length_vset|]. intros idx.
    rewrite nth_vset, IHl, !IHn.
    destruct (Nat.eqb_spec idx (base + k)) as [->|Hne].
    + replace (base + k <? length v)%nat with true
        by (symmetry; apply Nat.ltb_lt; lia).
      replace (base <=? base + k)%nat with true
        by (symmetry; apply Nat.leb_le; lia).
      replace (base + k <? base + k)%nat with false
        by (symmetry; apply Nat.ltb_ge; lia).
      replace (base + k <? base + S k)%nat with true
        by (symmetry; apply Nat.ltb_lt; lia).
      cbn [andb]. replace (base + k - base)%nat with k by lia. reflexivity.
    + cbn [andb].
      destruct (Nat.leb_spec base idx), (Nat.ltb_spec idx (base + k)),
        (Nat.ltb_spec idx (base + S k)); cbn [andb]; reflexivity || lia.
Qed.

(** Entry [(i, j)] of the result of [xgemm] on an [m]-by-[nn] matrix [c]
    stored with leading dimension [m]. *)
Lemma xgemm_nth (m nn k : nat) (alpha : R) (a : vec) (lda : nat) (b : vec)
    (ldb : nat) (beta : R) (c : vec) :
  length c = (m * nn)%nat ->
  let c' := xgemm m nn k alpha a lda b ldb beta c m in
  length c' = length c
  /\ forall i j, (i < m)%nat -> (j < nn)%nat ->
       c'.[j * m + i]
       = alpha * sum_for k (fun p => a.[p * lda + i] * b.[j * ldb + p])
         + beta * c.[j * m + i].
Proof.
  intros Hc. unfold xgemm. cbv zeta.
  assert (H : forall cols, (cols <= nn)%nat ->
    let c' := for_ cols (fun j c0 =>
        for_ m (fun i c1 =>
          vset (j * m + i)
            (alpha * sum_for k (fun p => a.[p * lda + i] * b.[j * ldb + p])
             + beta * c1.[j * m + i]) c1) c0) c in
    length c' = length c
    /\ forall i j, (i < m)%nat ->
         c'.[j * m + i]
         = if (j <? cols)%nat
           then alpha * sum_for k (fun p =>
                          a.[p * lda + i] * b.[j * ldb + p])
                + beta * c.[j * m + i]
           else c.[j * m + i]).
  { induction cols as [|cols IH]; intros Hcols; cbv zeta.
    - rewrite for_0. split; [reflexivity|]. intros i j Hi. reflexivity.
    - rewrite for_S. destruct IH as [IHl IHn]; [lia|]. cbv zeta in IHl, IHn.
      match goal with
      | |- context [for_ cols ?body c] => set (c0 := for_ cols body c) in *
      end.
      clearbody c0.
      destruct (vloop_nth
        (fun i x => alpha * sum_for k (fun p =>
                              a.[p * lda + i] * b.[cols * ldb + p])
                    + beta * x)
        (cols * m) m c0) as [Ll Ln]; [rewrite IHl, Hc; nia|].
      cbv zeta in Ll, Ln. split; [now rewrite Ll|]. intros i j Hi.
      rewrite Ln, IHn by assumption.
      destruct (Nat.eq_dec j cols) as [->|Hne].
      + replace (cols * m <=? cols * m + i)%nat with true
          by (symmetry; apply Nat.leb_le; lia).
        replace (cols * m + i <? cols * m + m)%nat with true
          by (symmetry; apply Nat.ltb_lt; lia).
        replace (cols <? cols)%nat with false
          by (symmetry; apply Nat.ltb_ge; lia).
        replace (cols <? S cols)%nat with true
          by (symmetry; apply Nat.ltb_lt; lia).
        cbn [andb]. replace (cols * m + i - cols * m)%nat with i by lia.
        reflexivity.
      + replace ((cols * m <=? j * m + i)%nat
                 && (j * m + i <? cols * m + m)%nat) with false.
        * destruct (Nat.ltb_spec j cols), (Nat.ltb_spec j (S cols));
            reflexivity || lia.
        * symmetry. apply andb_false_iff.
          destruct (Nat.lt_ge_cases j cols) as [Hlt|Hge].
          -- left. apply Nat.leb_gt. nia.
          -- right. apply Nat.ltb_ge. nia. }
  destruct (H nn) as [Hl Hn]; [lia|]. cbv zeta in Hl, Hn.
  split; [exact Hl|]. intros i j Hi Hj. rewrite Hn by assumption.
  replace (j <? nn)%nat with true by (symmetry; apply Nat.ltb_lt; lia).
  reflexivity.
Qed.

Section Residuals.

Context {G E : Type} {RS : RandomSource G E} {EO : EvaluationOrder}.

Implicit Types (s t : Variables G).

(** A loop whose body rewrites entry [base + i] of the member [f] from its
    old value, seen on that member alone. *)
Lemma member_loop (f : member) W C (base : nat) (h : nat -> R -> R)
    (k : nat) (body : nat -> Variables G -> Variables G) s :
  (forall i t, (i < k)%nat -> modifies W C t (body i t)) ->
  (forall i t, (i < k)%nat -> modifies W C s t ->
     vecs (body i t) f
     = vset (base + i) (h i ((vecs t f).[base + i])) (vecs t f)) ->
  modifies W C s (for_ k body s)
  /\ vecs (for_ k body s) f
     = for_ k (fun i v => vset (base + i) (h i (v.[base + i])) v) (vecs s f).
Proof.
  induction k as [|k IH]; intros Hmod Hval.
  - rewrite !for_0. split; [apply modifies_refl | reflexivity].
  - rewrite !for_S. destruct IH as [IHm IHv].
    + intros i t Hi. apply Hmod. lia.
    + intros i t Hi. apply Hval. lia.
    + split.
      * eapply modifies_trans; [exact IHm | apply Hmod; lia].
      * rewrite Hval by (lia || assumption). now rewrite IHv.
Qed.

(** The dimensions and the members a formula reads, carried along a
    frame. *)
Lemma shaped_frame W C s t :
  modifies W C s t ->
  forallb (fun f => negb (touches W f))
    [Y; A; M; C1; C2; beta_a; beta_m; alpha_a; beta_c; alpha_c] = true ->
  shaped s -> shaped t.
Proof.
  intros [Hn Hw1 Hw2 Hq Hv _] HW []. rewrite forallb_forall in HW.
  assert (Hf : forall f,
    In f [Y; A; M; C1; C2; beta_a; beta_m; alpha_a; beta_c; alpha_c] ->
    vecs t f = vecs s f).
  { intros f Hf. apply Hv. apply HW in Hf.
    now destruct (touches W f). }
  constructor; rewrite ?Hn, ?Hw1, ?Hw2, ?Hq, Hf by (simpl; tauto);
    assumption.
Qed.

Lemma res1_formula_frame W C s t i :
  modifies W C s t ->
  forallb (fun f => negb (touches W f))
    [Y; A; M; C1; beta_a; beta_m; beta_c] = true ->
  res1_formula t i = res1_formula s i.
Proof.
  intros [Hn Hw1 Hw2 Hq Hv _] HW. rewrite forallb_forall in HW.
  assert (Hf : forall f, In f [Y; A; M; C1; beta_a; beta_m; beta_c] ->
            vecs t f = vecs s f).
  { intros f Hf. apply Hv. apply HW in Hf. now destruct (touches W f). }
  unfold res1_formula, at_n.
  rewrite Hn, Hw1, Hq, !Hf by (simpl; tauto). reflexivity.
Qed.

Lemma res2_formula_frame W C s t i j :
  modifies W C s t ->
  forallb (fun f => negb (touches W f)) [A; M; C2; alpha_a; alpha_c] = true ->
  res2_formula t i j = res2_formula s i j
  /\ res2_c_formula t i j = res2_c_formula s i j.
Proof.
  intros [Hn Hw1 Hw2 Hq Hv _] HW. rewrite forallb_forall in HW.
  assert (Hf : forall f, In f [A; M; C2; alpha_a; alpha_c] ->
            vecs t f = vecs s f).
  { intros f Hf. apply Hv. apply HW in Hf. now destruct (touches W f). }
  unfold res2_formula, res2_c_formula, at_n, alpha_c_at.
  rewrite Hn, Hw2, !Hf by (simpl; tauto). split; reflexivity.
Qed.

(** A block that assigns none of the data, the coefficients and the caches
    keeps the caches consistent. *)
Lemma cached_frame W C s t :
  modifies W C s t ->
  forallb (fun f => negb (touches W f))
    [Y; A; M; C1; C2; beta_a; beta_m; alpha_a; beta_c; alpha_c;
     res1; res2; res2_c] = true ->
  cached s -> cached t.
Proof.
  intros Hmod HW Hc.
  assert (HW' := HW). rewrite forallb_forall in HW'.
  assert (Hf : forall f,
    In f [Y; A; M; C1; C2; beta_a; beta_m; alpha_a; beta_c; alpha_c;
          res1; res2; res2_c] -> vecs t f = vecs s f).
  { intros f Hf. apply (mod_vecs _ _ _ _ Hmod). apply HW' in Hf.
    now destruct (touches W f). }
  assert (H1 : forall i, res1_formula t i = res1_formula s i).
  { intros i. apply (res1_formula_frame W C); [assumption|].
    apply forallb_forall. intros f Hin. apply HW'. simpl in *. tauto. }
  assert (H2 : forall i j,
    res2_formula t i j = res2_formula s i j
    /\ res2_c_formula t i j = res2_c_formula s i j).
  { intros i j. apply (res2_formula_frame W C); [assumption|].
    apply forallb_forall. intros f Hin. apply HW'. simpl in *. tauto. }
  destruct Hc. destruct Hmod as [Hn Hw1 Hw2 Hq _ _].
  constructor; rewrite ?Hn, ?Hq, ?(Hf res1), ?(Hf res2), ?(Hf res2_c)
    by (simpl; tauto); try assumption.
  - intros i Hi. rewrite H1. auto.
  - intros i j Hi Hj. destruct (H2 i j) as [-> _]. auto.
  - intros i j Hi Hj. destruct (H2 i j) as [_ ->]. auto.
Qed.


Lemma Residual_res1_values s :
  shaped s ->
  length (vecs (Residual_res1 s) res1) = n s
  /\ forall i, (i < n s)%nat ->
       (vecs (Residual_res1 s) res1).[i] = res1_formula s i.
Proof.
  intros [].
  cbv delta [Residual_res1]; cbv beta zeta.
  set (s1 := set_vec res1 (vecs s Y) s).
  assert (H1 : modifies [res1] [] s s1) by (subst s1; frame).
  assert (V1 : vecs s1 res1 = vecs s Y) by reflexivity.
  match goal with
  | |- context [for_ ?k ?body s1] =>
      destruct (member_loop res1 [res1] [] 0
                  (fun i x => x - (vecs s beta_a).[0] * (vecs s A).[i])
                  k body s1) as [H2 V2];
      [ intros i t Hi; frame
      | intros i t Hi Ht; cbv beta; store;
        rewrite (mod_vecs _ _ _ _ Ht beta_a eq_refl),
          (mod_vecs _ _ _ _ Ht A eq_refl); reflexivity
      | set (s2 := for_ k body s1) in * ]
  end.
  assert (H12 : modifies [res1] [] s s2)
    by (eapply modifies_trans; eassumption).
  destruct (vloop_nth
    (fun i x => x - (vecs s beta_a).[0] * (vecs s A).[i]) 0 (n s1)
    (vecs s1 res1)) as [L2 N2]; [rewrite V1; cbn; lia|].
  cbv zeta in L2, N2. rewrite <- V2 in L2, N2. rewrite V1 in L2, N2.
  clearbody s2. clear V2 H2. store.
  rewrite (mod_n _ _ _ _ H12), (mod_q _ _ _ _ H12), (mod_w1 _ _ _ _ H12),
    (mod_vecs _ _ _ _ H12 M eq_refl), (mod_vecs _ _ _ _ H12 C1 eq_refl),
    (mod_vecs _ _ _ _ H12 beta_m eq_refl),
    (mod_vecs _ _ _ _ H12 beta_c eq_refl).
  destruct (xgemm_nth (n s) 1 (q s) (-1.0) (vecs s M) (n s) (vecs s beta_m)
              (q s) 1.0 (vecs s2 res1)) as [L3 N3]; [rewrite L2; lia|].
  cbv zeta in L3, N3.
  set (c3 := xgemm (n s) 1 (q s) (-1.0) (vecs s M) (n s) (vecs s beta_m)
               (q s) 1.0 (vecs s2 res1) (n s)) in *.
  destruct (xgemm_nth (n s) 1 (w1 s) (-1.0) (vecs s C1) (n s)
              (vecs s beta_c) (w1 s) 1.0 c3) as [L4 N4];
    [rewrite L3, L2; lia|].
  cbv zeta in L4, N4. split; [rewrite L4, L3, L2; assumption|].
  intros i Hi.
  specialize (N4 i 0%nat Hi (Nat.lt_0_1)).
  specialize (N3 i 0%nat Hi (Nat.lt_0_1)).
  cbn [Nat.mul Nat.add] in N3, N4. rewrite N4, N3, N2.
  cbn [Nat.leb Nat.add]. unfold s1 at 1. store.
  replace (i <? n s)%nat with true by (symmetry; apply Nat.ltb_lt; lia).
  cbn [andb]. rewrite Nat.sub_0_r. unfold res1_formula, at_n. lra.
Qed.

Lemma Residual_res2_values s :
  shaped s ->
  length (vecs (Residual_res2 s) res2) = (n s * q s)%nat
  /\ forall i j, (i < n s)%nat -> (j < q s)%nat ->
       (vecs (Residual_res2 s) res2).[j * n s + i] = res2_formula s i j.
Proof.
  intros [].
  cbv delta [Residual_res2]; cbv beta zeta. store.
  destruct (xgemm_nth (n s) (q s) 1 (-1.0) (vecs s A) (n s)
              (vecs s alpha_a) 1 1.0 (vecs s M)) as [L2 N2]; [assumption|].
  cbv zeta in L2, N2.
  set (c2 := xgemm (n s) (q s) 1 (-1.0) (vecs s A) (n s) (vecs s alpha_a)
               1 1.0 (vecs s M) (n s)) in *.
  destruct (xgemm_nth (n s) (q s) (w2 s) (-1.0) (vecs s C2) (n s)
              (vecs s alpha_c) (w2 s) 1.0 c2) as [L3 N3];
    [rewrite L2; assumption|].
  cbv zeta in L3, N3. split; [rewrite L3, L2; assumption|].
  intros i j Hi Hj. rewrite N3, N2 by assumption.
  cbn [sum_for Nat.mul Nat.add]. rewrite Nat.mul_1_r, Nat.add_0_r.
  unfold res2_formula, at_n, alpha_c_at. lra.
Qed.

Lemma Residual_res2_c_values s :
  shaped s ->
  length (vecs (Residual_res2_c s) res2_c) = (n s * q s)%nat
  /\ forall i j, (i < n s)%nat -> (j < q s)%nat ->
       (vecs (Residual_res2_c s) res2_c).[j * n s + i]
       = res2_c_formula s i j.
Proof.
  intros [].
  cbv delta [Residual_res2_c]; cbv beta zeta. store.
  destruct (xgemm_nth (n s) (q s) (w2 s) (-1.0) (vecs s C2) (n s)
              (vecs s alpha_c) (w2 s) 1.0 (vecs s M)) as [L2 N2];
    [assumption|].
  cbv zeta in L2, N2. split; [rewrite L2; assumption|].
  intros i j Hi Hj. rewrite N2 by assumption.
  unfold res2_c_formula, at_n, alpha_c_at. lra.
Qed.

(** [Residual] leaves the caches consistent with the parameters. *)
Lemma Residual_cached s : shaped s -> shaped (Residual s) /\ cached (Residual s).
Proof.
  intros Hs.
  assert (Hshape : shaped (Residual s)).
  { apply (shaped_frame _ _ _ _ (Residual_modifies s)); [reflexivity|].
    exact Hs. }
  split; [exact Hshape|].
  unfold Residual.
  set (s1 := Residual_res1 s). set (s2 := Residual_res2 s1).
  assert (M1 : modifies [res1] [] s s1) by apply Residual_res1_modifies.
  assert (M2 : modifies [res2] [] s1 s2) by apply Residual_res2_modifies.
  assert (M3 : modifies [res2_c] [] s2 (Residual_res2_c s2))
    by apply Residual_res2_c_modifies.
  assert (S1 : shaped s1)
    by (apply (shaped_frame _ _ _ _ M1); [reflexivity | exact Hs]).
  assert (S2 : shaped s2)
    by (apply (shaped_frame _ _ _ _ M2); [reflexivity | exact S1]).
  destruct (Residual_res1_values s Hs) as [L1 V1]. fold s1 in L1, V1.
  destruct (Residual_res2_values s1 S1) as [L2 V2]. fold s2 in L2, V2.
  destruct (Residual_res2_c_values s2 S2) as [L3 V3].
  set (s3 := Residual_res2_c s2) in *.
  assert (M13 : modifies [res2; res2_c] [] s1 s3).
  { eapply modifies_trans;
      [ eapply modifies_weaken; [| | exact M2]; reflexivity
      | eapply modifies_weaken; [| | exact M3]; reflexivity ]. }
  assert (M03 : modifies [res1; res2; res2_c] [] s s3).
  { eapply modifies_trans;
      [ eapply modifies_weaken; [| | exact M1]; reflexivity
      | eapply modifies_weaken; [| | exact M13]; reflexivity ]. }
  assert (Hn1 : n s1 = n s) by apply (mod_n _ _ _ _ M1).
  assert (Hq1 : q s1 = q s) by apply (mod_q _ _ _ _ M1).
  assert (Hn2 : n s2 = n s) by (rewrite (mod_n _ _ _ _ M2); exact Hn1).
  assert (Hq2 : q s2 = q s) by (rewrite (mod_q _ _ _ _ M2); exact Hq1).
  assert (Hn3 : n s3 = n s) by apply (mod_n _ _ _ _ M03).
  assert (Hq3 : q s3 = q s) by apply (mod_q _ _ _ _ M03).
  constructor; rewrite ?Hn3, ?Hq3.
  - rewrite (mod_vecs _ _ _ _ M13 res1 eq_refl). exact L1.
  - rewrite (mod_vecs _ _ _ _ M3 res2 eq_refl). now rewrite L2, Hn1, Hq1.
  - now rewrite L3, Hn2, Hq2.
  - intros i Hi. rewrite (mod_vecs _ _ _ _ M13 res1 eq_refl).
    rewrite V1 by assumption. symmetry.
    apply (res1_formula_frame _ _ _ _ _ M03). reflexivity.
  - intros i j Hi Hj. rewrite (mod_vecs _ _ _ _ M3 res2 eq_refl).
    rewrite <- Hn1 at 1. rewrite V2 by lia. symmetry.
    transitivity (res2_formula s i j).
    + apply (res2_formula_frame _ _ _ _ _ _ M03). reflexivity.
    + symmetry. apply (res2_formula_frame _ _ _ _ _ _ M1). reflexivity.
  - intros i j Hi Hj. rewrite <- Hn2 at 1. rewrite V3 by lia. symmetry.
    transitivity (res2_c_formula s i j).
    + apply (res2_formula_frame _ _ _ _ _ _ M03). reflexivity.
    + symmetry.
      assert (M02 : modifies [res1; res2] [] s s2).
      { eapply modifies_trans;
          [ eapply modifies_weaken; [| | exact M1]; reflexivity
          | eapply modifies_weaken; [| | exact M2]; reflexivity ]. }
      apply (res2_formula_frame _ _ _ _ _ _ M02). reflexivity.
Qed.

(** A loop that adds [d * col i] to the entries [base .. base + k - 1] of
    a cache. *)
Lemma delta_loop (cache : member) W (base : nat) (d : R) (col : nat -> R)
    (k : nat) (body : nat -> Variables G -> Variables G) t :
  (forall i u, (i < k)%nat -> modifies W [] u (body i u)) ->
  (forall i u, (i < k)%nat -> modifies W [] t u ->
     vecs (body i u) cache
     = vset (base + i) ((vecs u cache).[base + i] + d * col i)
         (vecs u cache)) ->
  (base + k <= length (vecs t cache))%nat ->
  let t' := for_ k body t in
  modifies W [] t t'
  /\ length (vecs t' cache) = length (vecs t cache)
  /\ forall idx,
       (vecs t' cache).[idx]
       = if (base <=? idx)%nat && (idx <? base + k)%nat
         then (vecs t cache).[idx] + d * col (idx - base)%nat
         else (vecs t cache).[idx].
Proof.
  intros Hmod Hval Hlen t'. subst t'.
  destruct (member_loop cache W [] base (fun i x => x + d * col i) k body t
              Hmod Hval) as [Hm Hv].
  destruct (vloop_nth (fun i x => x + d * col i) base k (vecs t cache) Hlen)
    as [Ll Ln].
  cbv zeta in Ll, Ln. rewrite <- Hv in Ll, Ln.
  split; [exact Hm | split; [exact Ll | exact Ln]].
Qed.

(** Consistency needs only the dimensions and the lengths of the data and
    coefficient vectors to be kept. *)
Lemma shaped_lengths s t :
  n t = n s -> w1 t = w1 s -> w2 t = w2 s -> q t = q s ->
  (forall f,
     In f [Y; A; M; C1; C2; beta_a; beta_m; alpha_a; beta_c; alpha_c] ->
     length (vecs t f) = length (vecs s f)) ->
  shaped s -> shaped t.
Proof.
  intros Hn Hw1 Hw2 Hq Hf [].
  constructor; rewrite ?Hn, ?Hw1, ?Hw2, ?Hq, Hf by (simpl; tauto);
    assumption.
Qed.

(** A state [t] that differs from [s] by one coefficient of the outcome
    stage, [coef[k] = x], with the old value saved in [old], followed by a
    loop that adds [(old - x) * col i] to [res1[i]]: if the formula of
    [res1] moves by the same amount, the caches stay consistent. *)
Lemma res1_delta (coef : member) (k : nat) (x : R) (col : nat -> R)
    (body : nat -> Variables G -> Variables G) s t :
  shaped s -> cached s ->
  touches [beta_m; beta_c; beta_a] coef = true ->
  modifies [coef] [old] s t ->
  vecs t coef = vset k x (vecs s coef) ->
  (forall i u, (i < n t)%nat -> modifies [res1] [] u (body i u)) ->
  (forall i u, (i < n t)%nat -> modifies [res1] [] t u ->
     vecs (body i u) res1
     = vset (0 + i)
         ((vecs u res1).[0 + i] + ((vecs s coef).[k] - x) * col i)
         (vecs u res1)) ->
  (forall i, (i < n s)%nat ->
     res1_formula t i
     = res1_formula s i - col i * (x - (vecs s coef).[k])) ->
  let s' := for_ (n t) body t in
  shaped s' /\ cached s'.
Proof.
  intros Hs Hc Hcoef Hst Vcoef Hbody Hval Hformula s'.
  pose proof Hs as [LY LA LM LC1 LC2 Lba Lbm Laa Lbc Lac].
  pose proof Hc as [Lr1 Lr2 Lr2c Cr1 Cr2 Cr2c].
  assert (Hn : n t = n s) by apply (mod_n _ _ _ _ Hst).
  assert (Hq : q t = q s) by apply (mod_q _ _ _ _ Hst).
  assert (Vt : forall f, member_eqb f coef = false -> vecs t f = vecs s f).
  { intros f Hf. apply (mod_vecs _ _ _ _ Hst). cbn [touches existsb].
    now rewrite Hf. }
  assert (Hres : member_eqb res1 coef = false
                 /\ member_eqb res2 coef = false
                 /\ member_eqb res2_c coef = false).
  { destruct coef; try discriminate Hcoef; repeat split. }
  destruct Hres as (Er1 & Er2 & Er2c).
  destruct (delta_loop res1 [res1] 0 ((vecs s coef).[k] - x) col (n t) body t
              Hbody Hval) as (Hm & Hl & Hv).
  { rewrite Vt, Hn by assumption. lia. }
  fold s' in Hm, Hl, Hv. clearbody s'.
  assert (Hts' : modifies [coef; res1] [old] s s').
  { eapply modifies_trans.
    - eapply (modifies_weaken [coef] _ [old]); [| |exact Hst].
      + apply forallb_forall. intros f [<-|[]]. apply touches_true.
        simpl. auto.
      + reflexivity.
    - eapply (modifies_weaken [res1] _ []); [| |exact Hm].
      + apply forallb_forall. intros f [<-|[]]. apply touches_true.
        simpl. auto.
      + reflexivity. }
  assert (Hn' : n s' = n s) by apply (mod_n _ _ _ _ Hts').
  assert (Hq' : q s' = q s) by apply (mod_q _ _ _ _ Hts').
  assert (Hshape_t : shaped t).
  { apply (shaped_lengths s); try apply Hst; [|exact Hs].
    intros f Hf. destruct (member_eqb f coef) eqn:Ef.
    - apply member_eqb_eq in Ef. subst f. rewrite Vcoef. apply length_vset.
    - now rewrite Vt. }
  split.
  - apply (shaped_frame _ _ _ _ Hm); [reflexivity | exact Hshape_t].
  - constructor; rewrite ?Hn', ?Hq'.
    + rewrite Hl, Vt by assumption. exact Lr1.
    + rewrite (mod_vecs _ _ _ _ Hm res2 eq_refl), Vt by assumption.
      exact Lr2.
    + rewrite (mod_vecs _ _ _ _ Hm res2_c eq_refl), Vt by assumption.
      exact Lr2c.
    + intros i Hi. rewrite Hv, Vt by assumption.
      replace ((0 <=? i)%nat && (i <? 0 + n t)%nat) with true
        by (symmetry; apply andb_true_iff; split;
            [apply Nat.leb_le | apply Nat.ltb_lt]; lia).
      rewrite Nat.sub_0_r, Cr1 by assumption.
      rewrite (res1_formula_frame _ _ _ _ i Hm) by reflexivity.
      rewrite Hformula by assumption. lra.
    + intros i j Hi Hj.
      rewrite (mod_vecs _ _ _ _ Hm res2 eq_refl), Vt by assumption.
      rewrite Cr2 by assumption. symmetry.
      apply (res2_formula_frame _ _ _ _ _ _ Hts').
      destruct coef; try discriminate Hcoef; reflexivity.
    + intros i j Hi Hj.
      rewrite (mod_vecs _ _ _ _ Hm res2_c eq_refl), Vt by assumption.
      rewrite Cr2c by assumption. symmetry.
      apply (res2_formula_frame _ _ _ _ _ _ Hts').
      destruct coef; try discriminate Hcoef; reflexivity.
Qed.

Lemma update_beta_m_cached j m0 m1 s :
  shaped s -> cached s -> (j < q s)%nat ->
  shaped (update_beta_m j m0 m1 s) /\ cached (update_beta_m j m0 m1 s).
Proof.
  intros Hs Hc Hj. pose proof Hs as [].
  cbv delta [update_beta_m]; cbv beta zeta. operands.
  match goal with
  | |- context [for_ (n ?t0) ?body ?t0] =>
      match t0 with
      | set_elem beta_m j ?x _ =>
          apply (res1_delta beta_m j x (fun i => at_n s M i j) body s t0)
      end
  end; try assumption.
  - reflexivity.
  - frame.
  - reflexivity.
  - intros i u Hi. frame.
  - intros i u Hi Hu. cbv beta. store. unfold at_n.
    rewrite (mod_scal _ _ _ _ Hu old eq_refl),
      (mod_vecs _ _ _ _ Hu beta_m eq_refl),
      (mod_vecs _ _ _ _ Hu M eq_refl), (mod_n _ _ _ _ Hu).
    store. rewrite nth_vset_eq by lia. reflexivity.
  - intros i Hi. unfold res1_formula, at_n. store.
    rewrite (sum_for_vset (q s) j _
               (fun j0 => (vecs s M).[j0 * n s + i])) by lia.
    lra.
Qed.

Lemma update_beta_a_cached s :
  shaped s -> cached s ->
  shaped (update_beta_a s) /\ cached (update_beta_a s).
Proof.
  intros Hs Hc. pose proof Hs as [].
  cbv delta [update_beta_a draw]; cbv beta iota zeta. cbn [fst snd].
  match goal with
  | |- context [for_ (n ?t0) ?body ?t0] =>
      match t0 with
      | set_elem beta_a 0 ?x _ =>
          apply (res1_delta beta_a 0 x (fun i => (vecs s A).[i]) body s t0)
      end
  end; try assumption.
  - reflexivity.
  - frame.
  - reflexivity.
  - intros i u Hi. frame.
  - intros i u Hi Hu. cbv beta. store.
    rewrite (mod_scal _ _ _ _ Hu old eq_refl),
      (mod_vecs _ _ _ _ Hu beta_a eq_refl),
      (mod_vecs _ _ _ _ Hu A eq_refl).
    store. rewrite nth_vset_eq by lia. reflexivity.
  - intros i Hi. unfold res1_formula, at_n. store.
    rewrite nth_vset_eq by lia. lra.
Qed.

(** The block for [beta_c[j]]: however many times the loop over [i]
    redraws the coefficient, [old] holds the value from before the loop and
    the correction of [res1] uses the value left after it. *)
Lemma update_beta_c_cached j s :
  shaped s -> cached s -> (j < w1 s)%nat ->
  shaped (update_beta_c j s) /\ cached (update_beta_c j s).
Proof.
  intros Hs Hc Hj. pose proof Hs as [].
  cbv delta [update_beta_c]; cbv beta zeta.
  set (s0 := set_scal old ((vecs s beta_c).[j]) s).
  match goal with
  | |- context [for_ (n s0) ?bd (0.0, s0)] =>
      set (r := for_ (n s0) bd (0.0, s0));
      assert (Hr : modifies [beta_c] [old] s (snd r)
                   /\ scal (snd r) old = (vecs s beta_c).[j]
                   /\ exists x, vecs (snd r) beta_c
                                = vset j x (vecs s beta_c));
      [ subst r;
        apply (for_invariant (fun _ r0 =>
          modifies [beta_c] [old] s (snd r0)
          /\ scal (snd r0) old = (vecs s beta_c).[j]
          /\ exists x, vecs (snd r0) beta_c = vset j x (vecs s beta_c)))
      | ]
  end.
  - cbn [snd]. split; [subst s0; frame|]. split; [reflexivity|].
    exists ((vecs s beta_c).[j]). subst s0. store. now rewrite vset_same.
  - intros i [mu u] Hi (Hu & Ho & x & Hx). cbn [snd] in *.
    cbv delta [draw]; cbv beta iota zeta. cbn [fst snd].
    split; [frame|]. split; [exact Ho|].
    eexists. store. rewrite Hx, vset_vset. reflexivity.
  - destruct Hr as (Hmod & Hold & x & Hx). clearbody r.
    match goal with
    | |- context [for_ (n (snd r)) ?body (snd r)] =>
        apply (res1_delta beta_c j x (fun i => at_n s C1 i j) body s (snd r))
    end; try assumption.
    + reflexivity.
    + intros i u Hi. frame.
    + intros i u Hi Hu. cbv beta. store. unfold at_n.
      rewrite (mod_scal _ _ _ _ Hu old eq_refl),
        (mod_vecs _ _ _ _ Hu beta_c eq_refl),
        (mod_vecs _ _ _ _ Hu C1 eq_refl), (mod_n _ _ _ _ Hu),
        (mod_vecs _ _ _ _ Hmod C1 eq_refl), (mod_n _ _ _ _ Hmod),
        Hold, Hx.
      rewrite nth_vset_eq by lia. reflexivity.
    + intros i Hi. unfold res1_formula, at_n.
      rewrite (mod_n _ _ _ _ Hmod), (mod_q _ _ _ _ Hmod),
        (mod_w1 _ _ _ _ Hmod), Hx, !(mod_vecs _ _ _ _ Hmod) by reflexivity.
      rewrite (sum_for_vset (w1 s) j _
                 (fun j0 => (vecs s C1).[j0 * n s + i])) by lia.
      lra.
Qed.

(** A loop that adds [d * col i] to entry [(i, j)] of an [nn]-by-[qq]
    cache, column [j] being the only one it touches. *)
Lemma column_delta (cache : member) W (j nn qq : nat) (d : R)
    (col : nat -> R) (body : nat -> Variables G -> Variables G) t :
  (forall i u, (i < nn)%nat -> modifies W [] u (body i u)) ->
  (forall i u, (i < nn)%nat -> modifies W [] t u ->
     vecs (body i u) cache
     = vset (j * nn + i) ((vecs u cache).[j * nn + i] + d * col i)
         (vecs u cache)) ->
  (j < qq)%nat -> length (vecs t cache) = (nn * qq)%nat ->
  let t' := for_ nn body t in
  modifies W [] t t'
  /\ length (vecs t' cache) = (nn * qq)%nat
  /\ forall i j0, (i < nn)%nat -> (j0 < qq)%nat ->
       (vecs t' cache).[j0 * nn + i]
       = (vecs t cache).[j0 * nn + i]
         + (if (j0 =? j)%nat then d * col i else 0).
Proof.
  intros Hmod Hval Hj Hlen t'.
  destruct (delta_loop cache W (j * nn) d col nn body t Hmod Hval)
    as (Hm & Hl & Hv); [rewrite Hlen; nia|].
  fold t' in Hm, Hl, Hv. split; [exact Hm|]. split; [now rewrite Hl|].
  intros i j0 Hi Hj0. rewrite Hv.
  destruct (Nat.eqb_spec j0 j) as [->|Hne].
  - replace ((j * nn <=? j * nn + i)%nat && (j * nn + i <? j * nn + nn)%nat)
      with true
      by (symmetry; apply andb_true_iff; split;
          [apply Nat.leb_le | apply Nat.ltb_lt]; lia).
    replace (j * nn + i - j * nn)%nat with i by lia. reflexivity.
  - replace ((j * nn <=? j0 * nn + i)%nat
             && (j0 * nn + i <? j * nn + nn)%nat) with false; [lra|].
    symmetry. apply andb_false_iff.
    destruct (Nat.lt_ge_cases j0 j) as [Hlt|Hge].
    + left. apply Nat.leb_gt. nia.
    + right. apply Nat.ltb_ge. nia.
Qed.

Lemma sum_for_vset_shift (k j base : nat) (x : R) (c : nat -> R) (v : vec) :
  (j < k)%nat -> (base + j < length v)%nat ->
  sum_for k (fun i => c i * (vset (base + j) x v).[base + i])
  = sum_for k (fun i => c i * v.[base + i]) + c j * (x - v.[base + j]).
Proof.
  intros Hjk Hjv. induction k as [|k IH]; [lia|].
  cbn [sum_for]. destruct (Nat.eq_dec j k) as [->|Hne].
  - rewrite nth_vset_eq by assumption.
    rewrite (sum_for_ext k (fun i => c i * (vset (base + k) x v).[base + i])
               (fun i => c i * v.[base + i])).
    + lra.
    + intros i Hi. rewrite nth_vset_neq by lia. reflexivity.
  - rewrite IH by lia. rewrite nth_vset_neq by lia. lra.
Qed.

Lemma update_alpha_a_cached j a0 a1 s :
  shaped s -> cached s -> (j < q s)%nat ->
  shaped (update_alpha_a j a0 a1 s) /\ cached (update_alpha_a j a0 a1 s).
Proof.
  intros Hs Hc Hj.
  pose proof Hs as [LY LA LM LC1 LC2 Lba Lbm Laa Lbc Lac].
  pose proof Hc as [Lr1 Lr2 Lr2c Cr1 Cr2 Cr2c].
  pose proof (update_alpha_a_modifies j a0 a1 s) as Hall. revert Hall.
  cbv delta [update_alpha_a]; cbv beta zeta. operands.
  match goal with
  | |- context [for_ (n ?t0) ?body ?t0] =>
      match t0 with
      | set_elem alpha_a j ?x0 _ =>
          set (t := t0); set (bd := body); pose (x := x0)
      end
  end.
  intros Hall.
  assert (Ht : modifies [alpha_a] [old] s t) by (subst t; frame).
  assert (Va : vecs t alpha_a = vset j x (vecs s alpha_a)) by reflexivity.
  assert (Hn : n t = n s) by reflexivity.
  destruct (column_delta res2 [res2] j (n s) (q s)
              ((vecs s alpha_a).[j] - x) (fun i => (vecs s A).[i]) bd t)
    as (Hm & Hl & Hv).
  { intros i u Hi. subst bd. cbv beta. frame. }
  { intros i u Hi Hu. subst bd. cbv beta. store.
    rewrite (mod_scal _ _ _ _ Hu old eq_refl),
      (mod_vecs _ _ _ _ Hu alpha_a eq_refl),
      (mod_vecs _ _ _ _ Hu A eq_refl), (mod_n _ _ _ _ Hu).
    subst t. store. rewrite nth_vset_eq by lia. reflexivity. }
  { exact Hj. }
  { exact Lr2. }
  change (n t) with (n s) in *.
  set (s' := for_ (n s) bd t) in *. clearbody s'.
  assert (Hs' : shaped s').
  { apply (shaped_frame _ _ _ _ Hm); [reflexivity|].
    apply (shaped_lengths s); try reflexivity; [|exact Hs].
    intros f Hf. destruct (member_eqb f alpha_a) eqn:Ef.
    - apply member_eqb_eq in Ef. subst f. rewrite Va. apply length_vset.
    - rewrite (mod_vecs _ _ _ _ Ht); [reflexivity|].
      cbn [touches existsb]. now rewrite Ef. }
  split; [exact Hs'|].
  assert (Hn' : n s' = n s) by apply (mod_n _ _ _ _ Hall).
  assert (Hq' : q s' = q s) by apply (mod_q _ _ _ _ Hall).
  constructor; rewrite ?Hn', ?Hq'.
  - rewrite (mod_vecs _ _ _ _ Hall res1 eq_refl). exact Lr1.
  - exact Hl.
  - rewrite (mod_vecs _ _ _ _ Hall res2_c eq_refl). exact Lr2c.
  - intros i Hi. rewrite (mod_vecs _ _ _ _ Hall res1 eq_refl).
    rewrite Cr1 by assumption. symmetry.
    apply (res1_formula_frame _ _ _ _ _ Hall). reflexivity.
  - intros i j0 Hi Hj0. rewrite Hv by assumption.
    change (vecs t res2) with (vecs s res2). rewrite Cr2 by assumption.
    unfold res2_formula, at_n, alpha_c_at.
    rewrite Hn', (mod_w2 _ _ _ _ Hall),
      (mod_vecs _ _ _ _ Hall M eq_refl), (mod_vecs _ _ _ _ Hall A eq_refl),
      (mod_vecs _ _ _ _ Hall C2 eq_refl),
      (mod_vecs _ _ _ _ Hall alpha_c eq_refl),
      (mod_vecs _ _ _ _ Hm alpha_a eq_refl), Va.
    destruct (Nat.eqb_spec j0 j) as [->|Hne].
    + rewrite nth_vset_eq by lia. lra.
    + rewrite nth_vset_neq by assumption. lra.
  - intros i j0 Hi Hj0. rewrite (mod_vecs _ _ _ _ Hall res2_c eq_refl).
    rewrite Cr2c by assumption. symmetry.
    unfold res2_c_formula, at_n, alpha_c_at.
    rewrite Hn', (mod_w2 _ _ _ _ Hall),
      (mod_vecs _ _ _ _ Hall M eq_refl), (mod_vecs _ _ _ _ Hall C2 eq_refl),
      (mod_vecs _ _ _ _ Hall alpha_c eq_refl).
    reflexivity.
Qed.

(** The sum over the covariates of the mediator stage after
    [alpha_c(j1, j) = x]. *)
Lemma alpha_c_sum (ww j j1 j0 : nat) (x : R) (c : nat -> R) (v : vec) :
  (j1 < ww)%nat -> (j * ww + j1 < length v)%nat ->
  sum_for ww (fun k => c k * (vset (j * ww + j1) x v).[j0 * ww + k])
  = sum_for ww (fun k => c k * v.[j0 * ww + k])
    + (if (j0 =? j)%nat then c j1 * (x - v.[j * ww + j1]) else 0).
Proof.
  intros Hj1 Hlen. destruct (Nat.eqb_spec j0 j) as [->|Hne].
  - apply sum_for_vset_shift; assumption.
  - rewrite Rplus_0_r. apply sum_for_ext. intros k Hk.
    rewrite nth_vset_neq; [reflexivity|]. nia.
Qed.

Lemma update_alpha_c_cached j j1 s :
  shaped s -> cached s -> (j < q s)%nat -> (j1 < w2 s)%nat ->
  shaped (update_alpha_c j j1 s) /\ cached (update_alpha_c j j1 s).
Proof.
  intros Hs Hc Hj Hj1.
  pose proof Hs as [LY LA LM LC1 LC2 Lba Lbm Laa Lbc Lac].
  pose proof Hc as [Lr1 Lr2 Lr2c Cr1 Cr2 Cr2c].
  pose proof (update_alpha_c_modifies j j1 s) as Hall. revert Hall.
  cbv delta [update_alpha_c draw]; cbv beta iota zeta. cbn [fst snd].
  match goal with
  | |- context [for_ (n ?t0) ?body ?t0] =>
      match t0 with
      | set_elem alpha_c _ ?x0 _ =>
          set (t := t0); set (bd := body); pose (x := x0)
      end
  end.
  intros Hall.
  assert (Ht : modifies [alpha_c] [old] s t) by (subst t; frame).
  assert (Va : vecs t alpha_c = vset (j * w2 s + j1) x (vecs s alpha_c))
    by reflexivity.
  assert (Ot : scal t old = (vecs s alpha_c).[j * w2 s + j1])
    by reflexivity.
  assert (Hidx : (j * w2 s + j1 < length (vecs s alpha_c))%nat)
    by (rewrite Lac; nia).
  change (n t) with (n s) in *.
  assert (Hnt : n t = n s) by reflexivity.
  assert (Hwt : w2 t = w2 s) by reflexivity.
  clearbody x t.
  assert (Hbody : forall i u, (i < n s)%nat ->
            modifies [res2; res2_c] [] u (bd i u)).
  { intros i u Hi. subst bd. cbv beta. frame. }
  assert (Hreads : forall u, modifies [res2; res2_c] [] t u ->
            scal u old - alpha_c_at u j1 j
            = (vecs s alpha_c).[j * w2 s + j1] - x
            /\ (forall i, at_n u C2 i j1 = at_n s C2 i j1)
            /\ n u = n s).
  { intros u Hu. unfold alpha_c_at, at_n.
    rewrite (mod_scal _ _ _ _ Hu old eq_refl),
      (mod_vecs _ _ _ _ Hu alpha_c eq_refl),
      (mod_vecs _ _ _ _ Hu C2 eq_refl), (mod_n _ _ _ _ Hu),
      (mod_w2 _ _ _ _ Hu), Ot, Va, Hnt, Hwt,
      (mod_vecs _ _ _ _ Ht C2 eq_refl).
    rewrite nth_vset_eq by assumption. repeat split. }
  destruct (column_delta res2 [res2; res2_c] j (n s) (q s)
              ((vecs s alpha_c).[j * w2 s + j1] - x)
              (fun i => at_n s C2 i j1) bd t Hbody)
    as (Hm & Hl2 & Hv2);
    [|exact Hj|rewrite (mod_vecs _ _ _ _ Ht res2 eq_refl); exact Lr2|].
  { intros i u Hi Hu. destruct (Hreads u Hu) as (Hd & Hcol & Hnu).
    subst bd. cbv beta.
    change (vecs (set_elem res2_c ?a ?b (set_elem res2 ?c ?e u)) res2)
      with (vset c e (vecs u res2)).
    rewrite Hd, Hcol, Hnu. reflexivity. }
  destruct (column_delta res2_c [res2; res2_c] j (n s) (q s)
              ((vecs s alpha_c).[j * w2 s + j1] - x)
              (fun i => at_n s C2 i j1) bd t Hbody)
    as (_ & Hl2c & Hv2c);
    [|exact Hj|rewrite (mod_vecs _ _ _ _ Ht res2_c eq_refl); exact Lr2c|].
  { intros i u Hi Hu. subst bd. cbv beta.
    match goal with
    | |- vecs (set_elem res2_c ?a ?b ?u') res2_c = _ =>
        change (vecs (set_elem res2_c a b u') res2_c)
          with (vset a b (vecs u' res2_c));
        assert (Hu' : modifies [res2; res2_c] [] t u') by frame;
        change (vecs u' res2_c) with (vecs u res2_c);
        destruct (Hreads u' Hu') as (Hd & Hcol & Hnu)
    end.
    rewrite Hd, Hcol, Hnu. reflexivity. }
  set (s' := for_ (n s) bd t) in *. clearbody s'.
  assert (Hs' : shaped s').
  { apply (shaped_frame _ _ _ _ Hm); [reflexivity|].
    apply (shaped_lengths s); try apply Ht; [|exact Hs].
    intros f Hf. destruct (member_eqb f alpha_c) eqn:Ef.
    - apply member_eqb_eq in Ef. subst f. rewrite Va. apply length_vset.
    - rewrite (mod_vecs _ _ _ _ Ht); [reflexivity|].
      cbn [touches existsb]. now rewrite Ef. }
  split; [exact Hs'|].
  assert (Hn' : n s' = n s) by apply (mod_n _ _ _ _ Hall).
  assert (Hq' : q s' = q s) by apply (mod_q _ _ _ _ Hall).
  assert (Hw2' : w2 s' = w2 s) by apply (mod_w2 _ _ _ _ Hall).
  assert (Vac : vecs s' alpha_c = vset (j * w2 s + j1) x (vecs s alpha_c)).
  { rewrite (mod_vecs _ _ _ _ Hm alpha_c eq_refl). exact Va. }
  constructor; rewrite ?Hn', ?Hq'.
  - rewrite (mod_vecs _ _ _ _ Hall res1 eq_refl). exact Lr1.
  - exact Hl2.
  - exact Hl2c.
  - intros i Hi. rewrite (mod_vecs _ _ _ _ Hall res1 eq_refl).
    rewrite Cr1 by assumption. symmetry.
    apply (res1_formula_frame _ _ _ _ _ Hall). reflexivity.
  - intros i j0 Hi Hj0. rewrite Hv2 by assumption.
    rewrite (mod_vecs _ _ _ _ Ht res2 eq_refl), Cr2 by assumption.
    unfold res2_formula, at_n, alpha_c_at.
    rewrite Hn', Hw2', Vac,
      (mod_vecs _ _ _ _ Hall M eq_refl), (mod_vecs _ _ _ _ Hall A eq_refl),
      (mod_vecs _ _ _ _ Hall C2 eq_refl),
      (mod_vecs _ _ _ _ Hall alpha_a eq_refl).
    rewrite (alpha_c_sum (w2 s) j j1 j0 x
               (fun k => (vecs s C2).[k * n s + i])) by assumption.
    destruct (j0 =? j)%nat; lra.
  - intros i j0 Hi Hj0. rewrite Hv2c by assumption.
    rewrite (mod_vecs _ _ _ _ Ht res2_c eq_refl), Cr2c by assumption.
    unfold res2_c_formula, at_n, alpha_c_at.
    rewrite Hn', Hw2', Vac,
      (mod_vecs _ _ _ _ Hall M eq_refl), (mod_vecs _ _ _ _ Hall C2 eq_refl).
    rewrite (alpha_c_sum (w2 s) j j1 j0 x
               (fun k => (vecs s C2).[k * n s + i])) by assumption.
    destruct (j0 =? j)%nat; lra.
Qed.

Lemma update_mediator_cached j s :
  shaped s -> cached s -> (j < q s)%nat ->
  shaped (update_mediator j s) /\ cached (update_mediator j s).
Proof.
  intros Hs Hc Hj. cbv delta [update_mediator]; cbv beta zeta.
  set (m0 := mu_mj0 j s). set (m1 := mu_mj1 j s).
  set (a0 := mu_alpha_aj0 j s). set (a1 := mu_alpha_aj1 j s).
  clearbody m0 m1 a0 a1.
  destruct (update_beta_m_cached j m0 m1 s Hs Hc Hj) as [S1 C1'].
  set (s1 := update_beta_m j m0 m1 s) in *.
  assert (Q1 : q s1 = q s)
    by apply (mod_q _ _ _ _ (update_beta_m_modifies j m0 m1 s)).
  clearbody s1.
  destruct (update_alpha_a_cached j a0 a1 s1 S1 C1') as [S2 C2'];
    [lia|].
  set (s2 := update_alpha_a j a0 a1 s1) in *.
  assert (Q2 : q s2 = q s).
  { rewrite <- Q1.
    apply (mod_q _ _ _ _ (update_alpha_a_modifies j a0 a1 s1)). }
  clearbody s2.
  pose proof (update_r1_modifies j m0 m1 s2) as M3.
  set (s3 := update_r1 j m0 m1 s2) in *. clearbody s3.
  pose proof (update_r3_modifies j a0 a1 s3) as M4.
  set (s4 := update_r3 j a0 a1 s3) in *. clearbody s4.
  assert (S4 : shaped s4).
  { apply (shaped_frame _ _ _ _ M4); [reflexivity|].
    apply (shaped_frame _ _ _ _ M3); [reflexivity | exact S2]. }
  assert (C4 : cached s4).
  { apply (cached_frame _ _ _ _ M4); [reflexivity|].
    apply (cached_frame _ _ _ _ M3); [reflexivity | exact C2']. }
  assert (Q4 : q s4 = q s).
  { rewrite (mod_q _ _ _ _ M4), (mod_q _ _ _ _ M3). exact Q2. }
  assert (H : forall k, (k <= w2 s4)%nat ->
    let u := for_ k (update_alpha_c j) s4 in
    shaped u /\ cached u /\ q u = q s /\ w2 u = w2 s4).
  { induction k as [|k IH]; intros Hk; cbv zeta.
    - rewrite for_0. auto.
    - rewrite for_S. destruct IH as (Su & Cu & Qu & Wu); [lia|].
      cbv zeta in Su, Cu, Qu, Wu.
      set (u := for_ k (update_alpha_c j) s4) in *. clearbody u.
      destruct (update_alpha_c_cached j k u Su Cu) as [Su' Cu']; [lia..|].
      split; [exact Su'|]. split; [exact Cu'|]. split.
      + rewrite (mod_q _ _ _ _ (update_alpha_c_modifies j k u)). exact Qu.
      + rewrite (mod_w2 _ _ _ _ (update_alpha_c_modifies j k u)). exact Wu. }
  destruct (H (w2 s4)) as (Su & Cu & _); [lia|]. split; assumption.
Qed.

Lemma mediators_cached s :
  shaped s -> cached s ->
  shaped (for_ (q s) update_mediator s)
  /\ cached (for_ (q s) update_mediator s).
Proof.
  intros Hs Hc.
  assert (H : forall k, (k <= q s)%nat ->
    let u := for_ k update_mediator s in
    shaped u /\ cached u /\ q u = q s).
  { induction k as [|k IH]; intros Hk; cbv zeta.
    - rewrite for_0. auto.
    - rewrite for_S. destruct IH as (Su & Cu & Qu); [lia|].
      cbv zeta in Su, Cu, Qu.
      set (u := for_ k update_mediator s) in *. clearbody u.
      destruct (update_mediator_cached k u Su Cu) as [Su' Cu']; [lia|].
      split; [exact Su'|]. split; [exact Cu'|].
      rewrite (mod_q _ _ _ _ (update_mediator_modifies k u)). exact Qu. }
  destruct (H (q s)) as (Su & Cu & _); [lia|]. split; assumption.
Qed.

Lemma covariates_cached s :
  shaped s -> cached s ->
  shaped (for_ (w1 s) update_beta_c s)
  /\ cached (for_ (w1 s) update_beta_c s).
Proof.
  intros Hs Hc.
  assert (H : forall k, (k <= w1 s)%nat ->
    let u := for_ k update_beta_c s in
    shaped u /\ cached u /\ w1 u = w1 s).
  { induction k as [|k IH]; intros Hk; cbv zeta.
    - rewrite for_0. auto.
    - rewrite for_S. destruct IH as (Su & Cu & Wu); [lia|].
      cbv zeta in Su, Cu, Wu.
      set (u := for_ k update_beta_c s) in *. clearbody u.
      destruct (update_beta_c_cached k u Su Cu) as [Su' Cu']; [lia|].
      split; [exact Su'|]. split; [exact Cu'|].
      rewrite (mod_w1 _ _ _ _ (update_beta_c_modifies k u)). exact Wu. }
  destruct (H (w1 s)) as (Su & Cu & _); [lia|]. split; assumption.
Qed.

(** The object-only part of an iteration keeps the caches consistent; at
    iteration 0 it makes them so. *)
Lemma sweep_cached it s :
  shaped s -> it = 0%nat \/ cached s ->
  shaped (sweep it s) /\ cached (sweep it s).
Proof.
  intros Hs Hit. cbv delta [sweep]; cbv beta zeta.
  assert (H0 : shaped (if (it =? 0)%nat then Residual s else s)
               /\ cached (if (it =? 0)%nat then Residual s else s)).
  { destruct (Nat.eqb_spec it 0) as [->|Hne].
    - now apply Residual_cached.
    - destruct Hit as [->|Hc]; [contradiction | now split]. }
  destruct H0 as [S0 C0].
  set (s0 := if (it =? 0)%nat then Residual s else s) in *. clearbody s0.
  pose proof (update_var_m_modifies s0) as M1.
  set (s1 := update_var_m s0) in *. clearbody s1.
  pose proof (update_sigma_e_g_modifies s1) as M2.
  set (s2 := update_sigma_e_g s1) in *. clearbody s2.
  pose proof (update_var_a_modifies s2) as M3.
  set (s3 := update_var_a s2) in *. clearbody s3.
  assert (S3 : shaped s3).
  { apply (shaped_frame _ _ _ _ M3); [reflexivity|].
    apply (shaped_frame _ _ _ _ M2); [reflexivity|].
    apply (shaped_frame _ _ _ _ M1); [reflexivity | exact S0]. }
  assert (C3 : cached s3).
  { apply (cached_frame _ _ _ _ M3); [reflexivity|].
    apply (cached_frame _ _ _ _ M2); [reflexivity|].
    apply (cached_frame _ _ _ _ M1); [reflexivity | exact C0]. }
  destruct (mediators_cached s3 S3 C3) as [S4 C4].
  set (s4 := for_ (q s3) update_mediator s3) in *. clearbody s4.
  destruct (covariates_cached s4 S4 C4) as [S5 C5].
  set (s5 := for_ (w1 s4) update_beta_c s4) in *. clearbody s5.
  destruct (update_beta_a_cached s5 S5 C5) as [S6 C6].
  set (s6 := update_beta_a s5) in *. clearbody s6.
  pose proof (update_sigma_m_modifies s6) as M7. split.
  - apply (shaped_frame _ _ _ _ M7); [reflexivity | exact S6].
  - apply (cached_frame _ _ _ _ M7); [reflexivity | exact C6].
Qed.

(** Consistent caches are what [Residual] would compute. *)
Lemma cached_is_Residual s :
  shaped s -> cached s ->
  vecs s res1 = vecs (Residual s) res1
  /\ vecs s res2 = vecs (Residual s) res2
  /\ vecs s res2_c = vecs (Residual s) res2_c.
Proof.
  intros Hs Hc. destruct (Residual_cached s Hs) as [_ Hr].
  pose proof (Residual_modifies s) as Hm.
  destruct Hc as [L1 L2 L3 V1 V2 V3].
  destruct Hr as [L1' L2' L3' V1' V2' V3'].
  rewrite (mod_n _ _ _ _ Hm) in *. rewrite (mod_q _ _ _ _ Hm) in *.
  assert (Hcell : forall idx, (idx < n s * q s)%nat ->
    exists i j, (i < n s)%nat /\ (j < q s)%nat /\ idx = (j * n s + i)%nat).
  { intros idx Hidx. assert (Hn : n s <> 0%nat) by nia.
    exists (idx mod n s)%nat, (idx / n s)%nat. split; [|split].
    - now apply Nat.mod_upper_bound.
    - apply Nat.Div0.div_lt_upper_bound. lia.
    - rewrite (Nat.div_mod_eq idx (n s)) at 1. lia. }
  split; [|split].
  - apply (nth_ext _ _ 0 0); [congruence|]. intros i Hi.
    rewrite V1, V1' by lia.
    symmetry. exact (res1_formula_frame _ _ _ _ i Hm eq_refl).
  - apply (nth_ext _ _ 0 0); [congruence|]. intros idx Hidx.
    destruct (Hcell idx) as (i & j & Hi & Hj & ->); [lia|].
    rewrite V2, V2' by assumption.
    destruct (res2_formula_frame _ _ _ _ i j Hm eq_refl) as [Eq2 _].
    symmetry. exact Eq2.
  - apply (nth_ext _ _ 0 0); [congruence|]. intros idx Hidx.
    destruct (Hcell idx) as (i & j & Hi & Hj & ->); [lia|].
    rewrite V3, V3' by assumption.
    destruct (res2_formula_frame _ _ _ _ i j Hm eq_refl) as [_ Eq2].
    symmetry. exact Eq2.
Qed.

(** C2: if the caches are consistent with the parameters when
    [Iteration] is entered (or the iteration is iteration 0, which rebuilds
    them), they are consistent when it returns: [res1], [res2] and [res2_c]
    hold [Y - beta_a A - M beta_m - C1 beta_c], [M - A alpha_a - C2 alpha_c]
    and [M - C2 alpha_c] of the parameters the iteration ends with, which is
    what [Residual] would store.  Every coefficient assignment is followed
    by the addition of [(old - new)] times its column to the entries it
    affects. *)
Theorem residual_caches_consistent burnIn it s (w : World E) :
  shaped s ->
  it = 0%nat \/ cached s ->
  let s' := fst (Iteration burnIn it (s, w)) in
  shaped s' /\ cached s'
  /\ vecs s' res1 = vecs (Residual s') res1
  /\ vecs s' res2 = vecs (Residual s') res2
  /\ vecs s' res2_c = vecs (Residual s') res2_c.
Proof.
  intros Hs Hit s'. subst s'. rewrite Iteration_fst.
  destruct (sweep_cached it s Hs Hit) as [S1 C1'].
  pose proof (update_pi_modifies (sweep it s) (srand it (rand_state w)))
    as Hpi.
  set (s' := fst (update_pi (sweep it s) (srand it (rand_state w)))) in *.
  assert (S' : shaped s')
    by (apply (shaped_frame _ _ _ _ Hpi); [reflexivity | exact S1]).
  assert (C' : cached s')
    by (apply (cached_frame _ _ _ _ Hpi); [reflexivity | exact C1']).
  split; [exact S'|]. split; [exact C'|].
  now apply cached_is_Residual.
Qed.

End Residuals.

(** Iteration 0 on the small object. *)
Lemma residual_caches_consistent_witness :
  let s' := fst (Iteration 0 0 (small_state, empty_world)) in
  shaped s' /\ cached s'
  /\ vecs s' res1 = vecs (Residual s') res1
  /\ vecs s' res2 = vecs (Residual s') res2
  /\ vecs s' res2_c = vecs (Residual s') res2_c.
Proof.
  apply (residual_caches_consistent 0 0 small_state empty_world).
  - constructor; reflexivity.
  - left. reflexivity.
Defined.

(** * Further properties of the code *)

(** ** [Normalize] *)

(** The entries of the columns below [k] after the first [k] rounds of the
    loop over the columns. *)
Lemma Normalize_columns (m k : nat) (v : vec) :
  (k * m <= length v)%nat ->
  let body := fun j a =>
       let mean := sum_for m (fun i => a.[j * m + i]) in
       let mean := mean / INR m in
       let stde := sum_for m (fun i =>
         let tmp := a.[j * m + i] - mean in tmp * tmp) in
       let stde := stde / INR m in
       let stde := sqrt stde in
       for_ m (fun i a =>
         vset (j * m + i) ((a.[j * m + i] - mean) / stde) a) a in
  let v' := for_ k body v in
  length v' = length v
  /\ forall idx,
       v'.[idx] =
       if (idx <? k * m)%nat
       then (v.[idx] - column_mean (mkData m k v) (idx / m))
            / sqrt (column_variance (mkData m k v) (idx / m))
       else v.[idx].
Proof.
  intros Hk body. induction k as [|k IH]; cbv zeta.
  - rewrite for_0. split; [reflexivity|]. intros idx. reflexivity.
  - rewrite for_S. destruct IH as [IHl IHn]; [lia|]. cbv zeta in IHl, IHn.
    set (u := for_ k body v) in *. clearbody u.
    assert (Hcol : forall i, (i < m)%nat -> u.[k * m + i] = v.[k * m + i]).
    { intros i Hi. rewrite IHn.
      destruct (Nat.ltb_spec (k * m + i) (k * m)); [lia | reflexivity]. }
    unfold body at 1. cbv zeta.
    set (mean := sum_for m (fun i => u.[k * m + i]) / INR m).
    set (stde := sqrt (sum_for m (fun i =>
                   (u.[k * m + i] - mean) * (u.[k * m + i] - mean)) / INR m)).
    destruct (vloop_nth (fun _ x => (x - mean) / stde) (k * m) m u)
      as [Ll Ln]; [simpl in Hk; lia|]. cbv zeta in Ll, Ln.
    split; [rewrite Ll; exact IHl|]. intros idx. rewrite Ln.
    assert (Emean : mean = column_mean (mkData m (S k) v) k).
    { unfold mean, column_mean, Data_at. cbn [dim entries]. f_equal.
      apply sum_for_ext. exact Hcol. }
    assert (Estde : stde = sqrt (column_variance (mkData m (S k) v) k)).
    { unfold stde, column_variance. rewrite <- Emean.
      unfold Data_at. cbn [dim entries]. f_equal. f_equal.
      apply sum_for_ext. intros i Hi. now rewrite Hcol. }
    destruct (Nat.leb_spec (k * m) idx) as [Hlo|Hlo];
      destruct (Nat.ltb_spec idx (k * m + m)) as [Hhi|Hhi]; cbn [andb].
    + replace (idx <? S k * m)%nat with true
        by (symmetry; apply Nat.ltb_lt; simpl; lia).
      assert (Hdiv : (idx / m = k)%nat).
      { symmetry. apply Nat.div_unique with (idx - k * m)%nat; lia. }
      rewrite Hdiv, <- Emean, <- Estde.
      replace idx with (k * m + (idx - k * m))%nat at 1 by lia.
      rewrite Hcol by lia. replace (k * m + (idx - k * m))%nat with idx by lia.
      reflexivity.
    + replace (idx <? S k * m)%nat with false
        by (symmetry; apply Nat.ltb_ge; simpl; lia).
      rewrite IHn.
      destruct (Nat.ltb_spec idx (k * m)); [lia | reflexivity].
    + replace (idx <? S k * m)%nat with true
        by (symmetry; apply Nat.ltb_lt; simpl; lia).
      rewrite IHn.
      destruct (Nat.ltb_spec idx (k * m)); [|lia].
      reflexivity.
    + lia.
Qed.

Lemma Normalize_entries (A : Data) :
  (num A * dim A <= length (entries A))%nat ->
  length (entries (Normalize A)) = length (entries A)
  /\ forall idx,
       (entries (Normalize A)).[idx] =
       if (idx <? num A * dim A)%nat
       then ((entries A).[idx] - column_mean A (idx / dim A))
            / sqrt (column_variance A (idx / dim A))
       else (entries A).[idx].
Proof.
  destruct A as [m k v]. cbn [dim num entries]. intros Hk.
  exact (Normalize_columns m k v Hk).
Qed.

Lemma sum_for_const (k : nat) (c : R) : sum_for k (fun _ => c) = INR k * c.
Proof.
  induction k as [|k IH]; [simpl; lra|].
  cbn [sum_for]. rewrite IH, S_INR. lra.
Qed.

Lemma sum_for_minus (k : nat) (f g : nat -> R) :
  sum_for k (fun i => f i - g i) = sum_for k f - sum_for k g.
Proof.
  induction k as [|k IH]; simpl; [lra | rewrite IH; lra].
Qed.


Lemma column_index (m i j : nat) :
  (i < m)%nat -> ((j * m + i) / m = j)%nat.
Proof.
  intros Hi. symmetry. apply Nat.div_unique with i; lia.
Qed.

Lemma Normalize_at (A : Data) (i j : nat) :
  length (entries A) = (dim A * num A)%nat ->
  (i < dim A)%nat -> (j < num A)%nat ->
  Data_at (Normalize A) i j
  = (Data_at A i j - column_mean A j) / sqrt (column_variance A j).
Proof.
  intros Hlen Hi Hj.
  destruct (Normalize_entries A) as [Hl Hn]; [lia|].
  unfold Data_at at 1. change (dim (Normalize A)) with (dim A).
  rewrite Hn, column_index by assumption.
  replace (j * dim A + i <? num A * dim A)%nat with true
    by (symmetry; apply Nat.ltb_lt; nia).
  reflexivity.
Qed.

Lemma two_by_two_variance :
  0 < column_variance two_by_two 0 /\ 0 < column_variance two_by_two 1.
Proof.
  unfold column_variance, column_mean, Data_at; simpl. split; lra.
Qed.

(** X1: [Normalize] replaces every entry of a column that is not constant
    (positive variance) by its distance from the mean of the column, in
    units of the standard deviation of the column; mean and deviation are
    those of the column as it was passed in.  The dimensions and the number
    of entries are kept.  (For a constant column the code divides 0 by 0.) *)
Theorem Normalize_standardises (A : Data) (i j : nat) :
  length (entries A) = (dim A * num A)%nat ->
  (i < dim A)%nat -> (j < num A)%nat ->
  0 < column_variance A j ->
  dim (Normalize A) = dim A
  /\ num (Normalize A) = num A
  /\ length (entries (Normalize A)) = length (entries A)
  /\ Data_at (Normalize A) i j
     = (Data_at A i j - column_mean A j) / sqrt (column_variance A j).
Proof.
  intros Hlen Hi Hj _.
  destruct (Normalize_entries A) as [Hl _]; [lia|].
  split; [reflexivity|]. split; [reflexivity|]. split; [exact Hl|].
  now apply Normalize_at.
Qed.

Lemma Normalize_standardises_witness :
  dim (Normalize two_by_two) = dim two_by_two
  /\ num (Normalize two_by_two) = num two_by_two
  /\ length (entries (Normalize two_by_two)) = length (entries two_by_two)
  /\ Data_at (Normalize two_by_two) 1 1
     = (Data_at two_by_two 1 1 - column_mean two_by_two 1)
       / sqrt (column_variance two_by_two 1).
Proof.
  apply (Normalize_standardises two_by_two 1 1);
    [reflexivity | simpl; lia | simpl; lia | apply two_by_two_variance].
Defined.

(** The sums behind the mean and the variance of a standardised column. *)
Lemma standardised_sums (m : nat) (x : nat -> R) :
  let mu := sum_for m x / INR m in
  let var := sum_for m (fun i => (x i - mu) * (x i - mu)) / INR m in
  0 < var ->
  sum_for m (fun i => (x i - mu) / sqrt var) = 0
  /\ sum_for m (fun i => (x i - mu) / sqrt var * ((x i - mu) / sqrt var))
     = INR m.
Proof.
  intros mu var Hvar.
  assert (Hm : (0 < m)%nat).
  { destruct m; [|lia]. unfold var in Hvar. simpl in Hvar. lra. }
  assert (HM : 0 < INR m) by (apply lt_0_INR; exact Hm).
  assert (Hsd : 0 < sqrt var) by (apply sqrt_lt_R0; exact Hvar).
  assert (Hsq : sqrt var * sqrt var = var) by (apply sqrt_sqrt; lra).
  split.
  - rewrite (sum_for_ext m _ (fun i => / sqrt var * (x i - mu)))
      by (intros; unfold Rdiv; apply Rmult_comm).
    rewrite sum_for_scale, sum_for_minus, sum_for_const.
    unfold mu.
    replace (INR m * (sum_for m x / INR m)) with (sum_for m x)
      by (field; lra).
    lra.
  - rewrite (sum_for_ext m _
      (fun i => / var * ((x i - mu) * (x i - mu)))).
    + rewrite sum_for_scale.
      replace (sum_for m (fun i => (x i - mu) * (x i - mu)))
        with (var * INR m) by (unfold var; field; lra).
      field. lra.
    + intros i _. generalize dependent (sqrt var). intros sd Hsd Hsq.
      rewrite <- Hsq. field. lra.
Qed.

Lemma standardised_column (A : Data) (j : nat) :
  length (entries A) = (dim A * num A)%nat ->
  (j < num A)%nat ->
  0 < column_variance A j ->
  column_mean (Normalize A) j = 0
  /\ column_variance (Normalize A) j = 1.
Proof.
  intros Hlen Hj Hvar.
  assert (Hm : (0 < dim A)%nat).
  { destruct (dim A) eqn:E; [|lia]. unfold column_variance in Hvar.
    rewrite E in Hvar. simpl in Hvar. lra. }
  assert (HM : 0 < INR (dim A)) by (apply lt_0_INR; exact Hm).
  destruct (standardised_sums (dim A) (fun i => Data_at A i j)) as [S1 S2].
  { exact Hvar. }
  fold (column_mean A j) in S1, S2. fold (column_variance A j) in S1, S2.
  assert (Hent : forall i, (i < dim A)%nat ->
    Data_at (Normalize A) i j
    = (Data_at A i j - column_mean A j) / sqrt (column_variance A j)).
  { intros i Hi. now apply Normalize_at. }
  assert (Hmean : column_mean (Normalize A) j = 0).
  { unfold column_mean at 1. change (dim (Normalize A)) with (dim A).
    rewrite (sum_for_ext _ _ _ Hent), S1. unfold Rdiv. apply Rmult_0_l. }
  split; [exact Hmean|].
  unfold column_variance. rewrite Hmean. change (dim (Normalize A)) with (dim A).
  rewrite (sum_for_ext _ _
    (fun i => (Data_at A i j - column_mean A j) / sqrt (column_variance A j)
              * ((Data_at A i j - column_mean A j)
                 / sqrt (column_variance A j)))).
  - rewrite S2. field. lra.
  - intros i Hi. rewrite Hent by assumption. lra.
Qed.

(** X2: after [Normalize], a column that was not constant has mean 0 and
    variance 1. *)
Theorem Normalize_moments (A : Data) (j : nat) :
  length (entries A) = (dim A * num A)%nat ->
  (j < num A)%nat ->
  0 < column_variance A j ->
  column_mean (Normalize A) j = 0
  /\ column_variance (Normalize A) j = 1.
Proof.
  exact (standardised_column A j).
Qed.

Lemma Normalize_moments_witness :
  column_mean (Normalize two_by_two) 1 = 0
  /\ column_variance (Normalize two_by_two) 1 = 1.
Proof.
  apply (Normalize_moments two_by_two 1);
    [reflexivity | simpl; lia | apply two_by_two_variance].
Defined.

(** X3: [Normalize] is idempotent on data without constant columns: the second
    call finds mean 0 and deviation 1 in every column and changes nothing. *)
Theorem Normalize_idempotent (A : Data) :
  length (entries A) = (dim A * num A)%nat ->
  (forall j, (j < num A)%nat -> 0 < column_variance A j) ->
  Normalize (Normalize A) = Normalize A.
Proof.
  intros Hlen Hvar.
  destruct (Normalize_entries A) as [Hl Hn]; [lia|].
  destruct (Normalize_entries (Normalize A)) as [Hl2 Hn2].
  { change (num (Normalize A)) with (num A).
    change (dim (Normalize A)) with (dim A). lia. }
  change (num (Normalize A)) with (num A) in Hn2.
  change (dim (Normalize A)) with (dim A) in Hn2.
  assert (E : entries (Normalize (Normalize A)) = entries (Normalize A)).
  { apply (nth_ext _ _ 0 0); [exact Hl2|]. intros idx Hidx.
    rewrite Hn2.
    destruct (Nat.ltb_spec idx (num A * dim A)) as [Hin|Hout];
      [|reflexivity].
    assert (Hm : (0 < dim A)%nat) by nia.
    assert (Hj : (idx / dim A < num A)%nat).
    { apply Nat.Div0.div_lt_upper_bound. lia. }
    destruct (standardised_column A (idx / dim A) Hlen Hj (Hvar _ Hj))
      as [-> ->].
    rewrite sqrt_1. field. }
  unfold Normalize at 1. unfold Normalize in E at 1. cbn [entries] in E.
  change (dim (Normalize A)) with (dim A) in *.
  change (num (Normalize A)) with (num A) in *.
  rewrite E. reflexivity.
Qed.

Lemma Normalize_idempotent_witness :
  Normalize (Normalize two_by_two) = Normalize two_by_two.
Proof.
  apply (Normalize_idempotent two_by_two); [reflexivity|].
  intros [|[|j]] Hj; simpl in Hj; try lia; apply two_by_two_variance.
Defined.

(** X4: a [Data] without rows or without columns is returned as it is. *)
Theorem Normalize_empty (A : Data) :
  dim A = 0%nat \/ num A = 0%nat -> Normalize A = A.
Proof.
  destruct A as [m k v]. cbn [dim num]. intros [-> | ->];
    unfold Normalize; cbn [dim num entries].
  - f_equal. induction k as [|k IH]; [reflexivity|].
    rewrite for_S, IH. reflexivity.
  - reflexivity.
Qed.

Lemma Normalize_empty_witness :
  Normalize (mkData 0 3 []) = mkData 0 3 [].
Proof.
  apply (Normalize_empty (mkData 0 3 [])). left. reflexivity.
Defined.

(** ** The constructor *)

Section Norms.

Context {G E : Type} {RS : RandomSource G E} {EO : EvaluationOrder}.

Implicit Types (s t : Variables G).

Lemma vecs_set_elem_same (f : member) (i : nat) (x : R) t :
  vecs (set_elem f i x t) f = vset i x (vecs t f).
Proof.
  unfold set_elem, set_vec. cbn [vecs].
  replace (member_eqb f f) with true; [reflexivity|].
  symmetry. now apply member_eqb_eq.
Qed.

(** [for ( i < k ) f[ j ] += c( i )]. *)
Lemma accumulate_loop (f : member) (j k : nat) (c : nat -> R)
    (body : nat -> Variables G -> Variables G) s :
  (forall i t, (i < k)%nat -> modifies [f] [] s t ->
     body i t = set_elem f j ((vecs t f).[j] + c i) t) ->
  (j < length (vecs s f))%nat ->
  modifies [f] [] s (for_ k body s)
  /\ vecs (for_ k body s) f
     = vset j ((vecs s f).[j] + sum_for k c) (vecs s f).
Proof.
  intros Hbody Hj. induction k as [|k IH].
  - rewrite for_0. split; [apply modifies_refl|].
    cbn [sum_for]. rewrite Rplus_0_r. symmetry. apply vset_same.
  - rewrite for_S. destruct IH as [IHm IHv].
    { intros i t Hi. apply Hbody. lia. }
    rewrite Hbody by (lia || assumption). split.
    + apply modifies_set_elem; [|exact IHm].
      unfold touches. cbn [existsb].
      replace (member_eqb f f) with true; [reflexivity|].
      symmetry. now apply member_eqb_eq.
    + rewrite vecs_set_elem_same, IHv, nth_vset_eq, vset_vset by assumption.
      cbn [sum_for]. f_equal. lra.
Qed.

(** The loops over the columns of [src] that accumulate the squared norms
    in [f]. *)
Lemma norm_loop (f src : member) (k : nat) s :
  member_eqb src f = false ->
  (k <= length (vecs s f))%nat ->
  let s' := for_ k (fun j s => for_ (n s) (fun i s =>
    set_elem f j
      ((vecs s f).[j]
       + (vecs s src).[j * n s + i] * (vecs s src).[j * n s + i]) s) s) s in
  modifies [f] [] s s'
  /\ length (vecs s' f) = length (vecs s f)
  /\ forall j,
       (vecs s' f).[j]
       = if (j <? k)%nat
         then (vecs s f).[j]
              + sum_for (n s) (fun i =>
                  (vecs s src).[j * n s + i] * (vecs s src).[j * n s + i])
         else (vecs s f).[j].
Proof.
  intros Hsrc Hk. induction k as [|k IH]; cbv zeta.
  - rewrite for_0. split; [apply modifies_refl|]. split; [reflexivity|].
    intros j. reflexivity.
  - rewrite for_S. destruct IH as (IHm & IHl & IHv); [lia|].
    cbv zeta in IHm, IHl, IHv.
    match goal with
    | |- context [for_ k ?b s] => set (u := for_ k b s) in *
    end.
    clearbody u.
    assert (Hfs : touches [f] src = false).
    { unfold touches. cbn [existsb]. now rewrite Hsrc. }
    destruct (accumulate_loop f k (n u)
      (fun i => (vecs s src).[k * n s + i] * (vecs s src).[k * n s + i])
      (fun i t => set_elem f k
         ((vecs t f).[k]
          + (vecs t src).[k * n t + i] * (vecs t src).[k * n t + i]) t) u)
      as [Lm Lv].
    { intros i t Hi Ht.
      rewrite (mod_vecs _ _ _ _ Ht src Hfs), (mod_vecs _ _ _ _ IHm src Hfs).
      rewrite (mod_n _ _ _ _ Ht), (mod_n _ _ _ _ IHm). reflexivity. }
    { lia. }
    split; [eapply modifies_trans; eassumption|].
    rewrite Lv, length_vset. split; [exact IHl|].
    intros j. rewrite nth_vset, IHl, !IHv, (mod_n _ _ _ _ IHm).
    destruct (Nat.eqb_spec j k) as [->|Hne].
    + replace (k <? length (vecs s f))%nat with true
        by (symmetry; apply Nat.ltb_lt; lia).
      replace (k <? k)%nat with false by (symmetry; apply Nat.ltb_ge; lia).
      replace (k <? S k)%nat with true by (symmetry; apply Nat.ltb_lt; lia).
      reflexivity.
    + destruct (Nat.ltb_spec j k), (Nat.ltb_spec j (S k));
        reflexivity || lia.
Qed.

(** One [let] of a block, named. *)
Ltac let_step H name :=
  match type of H with
  | ?l = (let x := ?X in @?b x) =>
      change (l = b X) in H; cbv beta in H; set (name := X) in H
  end.

Lemma vecs_resize_member_same (f : member) (m k : nat) (x : R) t :
  vecs (resize_member f m k x t) f = resize (m * k) x (vecs t f).
Proof.
  unfold resize_member, set_vec. cbn [vecs].
  replace (member_eqb f f) with true; [reflexivity|].
  symmetry. now apply member_eqb_eq.
Qed.

Lemma nth_repeat (x : R) (k j : nat) :
  (j < k)%nat -> (repeat x k).[j] = x.
Proof.
  revert j; induction k as [|k IH]; intros [|j] H; simpl; try lia; auto.
  apply IH. lia.
Qed.

Lemma modifies_cons (f : member) W s t u :
  modifies W [] s t -> modifies [f] [] t u -> modifies (f :: W) [] s u.
Proof.
  intros [Hn Hw1 Hw2 Hq Hv Hc] [Hn' Hw1' Hw2' Hq' Hv' Hc'].
  constructor; try congruence.
  - intros g Hg. unfold touches in Hg. cbn [existsb] in Hg.
    apply orb_false_iff in Hg. destruct Hg as [Hgf HgW].
    rewrite Hv', Hv; [reflexivity | exact HgW |].
    unfold touches. cbn [existsb]. now rewrite Hgf.
  - intros c Hcc. rewrite Hc', Hc by reflexivity. reflexivity.
Qed.

(** A norm member that is resized from empty and filled by the loops. *)
Lemma norm_block (f src : member) (k : nat) W s t :
  member_eqb src f = false ->
  modifies W [] s t ->
  touches W src = false ->
  touches W f = false ->
  vecs s f = [] ->
  let t' := for_ k (fun j s => for_ (n s) (fun i s =>
    set_elem f j
      ((vecs s f).[j]
       + (vecs s src).[j * n s + i] * (vecs s src).[j * n s + i]) s) s)
    (resize_member f 1 k 0.0 t) in
  modifies (f :: W) [] s t'
  /\ modifies [f] [] t t'
  /\ length (vecs t' f) = k
  /\ forall j, (j < k)%nat -> (vecs t' f).[j] = squared_norm s src j.
Proof.
  intros Hsrc Hst Hts Htf Hnil.
  assert (Hr : modifies [f] [] t (resize_member f 1 k 0.0 t)).
  { apply modifies_resize_member; [|apply modifies_refl].
    unfold touches. cbn [existsb].
    replace (member_eqb f f) with true; [reflexivity|].
    symmetry. now apply member_eqb_eq. }
  assert (Hv : vecs (resize_member f 1 k 0.0 t) f = repeat 0.0 k).
  { rewrite vecs_resize_member_same, (mod_vecs _ _ _ _ Hst f Htf), Hnil,
      resize_nil, Nat.mul_1_l.
    reflexivity. }
  set (t1 := resize_member f 1 k 0.0 t) in *. clearbody t1.
  destruct (norm_loop f src k t1 Hsrc) as (Lm & Ll & Lv).
  { rewrite Hv, repeat_length. lia. }
  cbv zeta in Lm, Ll, Lv. cbv zeta.
  match goal with
  | |- context [for_ k ?b t1] => set (t' := for_ k b t1) in *
  end.
  clearbody t'.
  assert (Htt' : modifies [f] [] t t')
    by (eapply modifies_trans; eassumption).
  assert (Hfs : touches [f] src = false).
  { unfold touches. cbn [existsb]. now rewrite Hsrc. }
  split; [eapply modifies_cons; eassumption|]. split; [exact Htt'|]. split.
  { rewrite Ll, Hv, repeat_length. reflexivity. }
  intros j Hj. rewrite Lv.
  replace (j <? k)%nat with true by (symmetry; apply Nat.ltb_lt; lia).
  rewrite Hv, nth_repeat by assumption.
  rewrite (mod_n _ _ _ _ Hr), (mod_n _ _ _ _ Hst).
  rewrite (sum_for_ext _ _ (fun i =>
    (vecs s src).[j * n s + i] * (vecs s src).[j * n s + i])).
  - unfold squared_norm. lra.
  - intros i _.
    rewrite (mod_vecs _ _ _ _ Hr src Hfs), (mod_vecs _ _ _ _ Hst src Hts).
    reflexivity.
Qed.

Lemma init_norms_values s :
  vecs s A2norm = [] -> vecs s M2norm = [] ->
  vecs s C1_2norm = [] -> vecs s C2_2norm = [] ->
  let s' := init_norms s in
  vecs s' A2norm = [sum_for (n s) (fun i => (vecs s A).[i] * (vecs s A).[i])]
  /\ (length (vecs s' M2norm) = q s
      /\ forall j, (j < q s)%nat -> (vecs s' M2norm).[j] = squared_norm s M j)
  /\ (length (vecs s' C1_2norm) = w1 s
      /\ forall j, (j < w1 s)%nat ->
           (vecs s' C1_2norm).[j] = squared_norm s C1 j)
  /\ (length (vecs s' C2_2norm) = w2 s
      /\ forall j, (j < w2 s)%nat ->
           (vecs s' C2_2norm).[j] = squared_norm s C2 j).
Proof.
  intros NA NM NC1 NC2 s'.
  assert (Hs' : s' = init_norms s) by reflexivity. clearbody s'.
  cbv delta [init_norms] in Hs'; cbv beta in Hs'.
  (* A2norm *)
  let_step Hs' s1.
  assert (V1 : vecs s1 A2norm = [0]).
  { subst s1. rewrite vecs_resize_member_same, NA, resize_nil. simpl.
    f_equal. lra. }
  assert (M1 : modifies [A2norm] [] s s1).
  { subst s1. apply modifies_resize_member;
      [reflexivity | apply modifies_refl]. }
  clearbody s1.
  let_step Hs' s2.
  assert (H2 : modifies [A2norm] [] s1 s2
               /\ vecs s2 A2norm
                  = [sum_for (n s) (fun i => (vecs s A).[i] * (vecs s A).[i])]).
  { destruct (accumulate_loop A2norm 0 (n s1)
      (fun i => (vecs s A).[i] * (vecs s A).[i])
      (fun i t => set_elem A2norm 0
         ((vecs t A2norm).[0] + (vecs t A).[i] * (vecs t A).[i]) t) s1)
      as [Lm Lv].
    - intros i t Hi Ht.
      rewrite (mod_vecs _ _ _ _ Ht A eq_refl), (mod_vecs _ _ _ _ M1 A eq_refl).
      reflexivity.
    - rewrite V1. simpl. lia.
    - subst s2. split; [exact Lm|]. rewrite Lv, V1, (mod_n _ _ _ _ M1).
      simpl. f_equal. lra. }
  destruct H2 as [M2 V2].
  assert (M02 : modifies [A2norm] [] s s2)
    by (eapply modifies_trans; eassumption).
  clearbody s2. clear M1 M2 V1 s1.
  (* M2norm *)
  let_step Hs' s3. let_step Hs' s4.
  destruct (norm_block M2norm M (q s2) [A2norm] s s2 eq_refl M02 eq_refl
              eq_refl NM) as (M04 & M24 & L4 & V4).
  cbv zeta in M04, M24, L4, V4.
  match type of M04 with
  | modifies _ _ _ ?T => change T with s4 in M04, M24, L4, V4
  end.
  clearbody s4. clear s3.
  (* C1_2norm *)
  let_step Hs' s5. let_step Hs' s6.
  destruct (norm_block C1_2norm C1 (w1 s4) [M2norm; A2norm] s s4 eq_refl M04
              eq_refl eq_refl NC1) as (M06 & M46 & L6 & V6).
  cbv zeta in M06, M46, L6, V6.
  match type of M06 with
  | modifies _ _ _ ?T => change T with s6 in M06, M46, L6, V6
  end.
  clearbody s6. clear s5.
  (* C2_2norm *)
  let_step Hs' s7.
  destruct (norm_block C2_2norm C2 (w2 s6) [C1_2norm; M2norm; A2norm] s s6
              eq_refl M06 eq_refl eq_refl NC2) as (M08 & M68 & L8 & V8).
  cbv zeta in M08, M68, L8, V8.
  match type of M08 with
  | modifies _ _ _ ?T =>
      replace T with s' in M08, M68, L8, V8 by (rewrite Hs'; reflexivity)
  end.
  clear Hs' s7.
  rewrite (mod_vecs _ _ _ _ M68 A2norm eq_refl),
    (mod_vecs _ _ _ _ M46 A2norm eq_refl),
    (mod_vecs _ _ _ _ M24 A2norm eq_refl).
  rewrite (mod_vecs _ _ _ _ M68 M2norm eq_refl),
    (mod_vecs _ _ _ _ M46 M2norm eq_refl).
  rewrite (mod_vecs _ _ _ _ M68 C1_2norm eq_refl).
  rewrite (mod_q _ _ _ _ M02) in L4, V4.
  rewrite (mod_w1 _ _ _ _ M04) in L6, V6.
  rewrite (mod_w2 _ _ _ _ M06) in L8, V8.
  split; [exact V2|]. split; [split; assumption|].
  split; split; assumption.
Qed.

(** X6: the constructor stores the squared norm of [A] and of every column of
    [M], [C1] and [C2] in [A2norm], [M2norm], [C1_2norm] and [C2_2norm],
    and hands the caller's nine vectors and the dimensions [n], [w1], [w2]
    and [q] to the object as they are. *)
Theorem ctor_norms_and_data
    (userY userA userM userC1 userC2 userbeta_m useralpha_a userpi_m
     userpi_a : vec) (un uw1 uw2 uq uq1 uq2 : nat) :
  let s := Variables_ctor userY userA userM userC1 userC2 userbeta_m
             useralpha_a userpi_m userpi_a un uw1 uw2 uq uq1 uq2 in
  let norm (X : vec) (j : nat) :=
    sum_for un (fun i => X.[j * un + i] * X.[j * un + i]) in
  (vecs s A2norm = [sum_for un (fun i => userA.[i] * userA.[i])]
   /\ (length (vecs s M2norm) = uq
       /\ forall j, (j < uq)%nat -> (vecs s M2norm).[j] = norm userM j)
   /\ (length (vecs s C1_2norm) = uw1
       /\ forall j, (j < uw1)%nat -> (vecs s C1_2norm).[j] = norm userC1 j)
   /\ (length (vecs s C2_2norm) = uw2
       /\ forall j, (j < uw2)%nat -> (vecs s C2_2norm).[j] = norm userC2 j))
  /\ map (vecs s) [Y; A; M; C1; C2; beta_m; alpha_a; pi_m; pi_a]
     = [userY; userA; userM; userC1; userC2; userbeta_m; useralpha_a;
        userpi_m; userpi_a]
  /\ (n s, w1 s, w2 s, q s) = (un, uw1, uw2, uq).
Proof.
  cbv delta [Variables_ctor]; cbv beta zeta.
  set (s0 := mkVariables un uw1 uw2 uq uq1 uq2 default_random_engine _ _).
  set (s1 := init_sigma s0). set (s2 := init_values s1).
  pose proof (init_sigma_modifies s0) as F1. fold s1 in F1.
  pose proof (init_values_modifies s1) as F2. fold s2 in F2.
  pose proof (init_norms_modifies s2) as F3.
  assert (Hnil : forall f,
    In f [A2norm; M2norm; C1_2norm; C2_2norm] -> vecs s2 f = []).
  { intros f Hf.
    assert (Ht : touches [r1; r3; beta_a; beta_c; alpha_c] f = false).
    { repeat (destruct Hf as [<-|Hf]; [reflexivity|]). destruct Hf. }
    rewrite (mod_vecs _ _ _ _ F2 f Ht), (mod_vecs _ _ _ _ F1 f eq_refl).
    repeat (destruct Hf as [<-|Hf]; [reflexivity|]). destruct Hf. }
  assert (Hsrc : forall f,
    In f [Y; A; M; C1; C2; beta_m; alpha_a; pi_m; pi_a] ->
    vecs s2 f = vecs s0 f).
  { intros f Hf.
    assert (Ht : touches [r1; r3; beta_a; beta_c; alpha_c] f = false).
    { repeat (destruct Hf as [<-|Hf]; [reflexivity|]). destruct Hf. }
    rewrite (mod_vecs _ _ _ _ F2 f Ht), (mod_vecs _ _ _ _ F1 f eq_refl).
    reflexivity. }
  assert (Hn : n s2 = un).
  { rewrite (mod_n _ _ _ _ F2), (mod_n _ _ _ _ F1). reflexivity. }
  assert (Hq : q s2 = uq).
  { rewrite (mod_q _ _ _ _ F2), (mod_q _ _ _ _ F1). reflexivity. }
  assert (Hw1 : w1 s2 = uw1).
  { rewrite (mod_w1 _ _ _ _ F2), (mod_w1 _ _ _ _ F1). reflexivity. }
  assert (Hw2 : w2 s2 = uw2).
  { rewrite (mod_w2 _ _ _ _ F2), (mod_w2 _ _ _ _ F1). reflexivity. }
  pose proof (init_norms_values s2
    (Hnil A2norm ltac:(simpl; tauto)) (Hnil M2norm ltac:(simpl; tauto))
    (Hnil C1_2norm ltac:(simpl; tauto))
    (Hnil C2_2norm ltac:(simpl; tauto))) as HN.
  cbv zeta in HN. unfold squared_norm in HN.
  rewrite Hn, Hq, Hw1, Hw2, !Hsrc in HN by (simpl; tauto).
  set (s := init_norms s2) in *.
  assert (Hdata : forall f,
    In f [Y; A; M; C1; C2; beta_m; alpha_a; pi_m; pi_a] ->
    vecs s f = vecs s0 f).
  { intros f Hf. rewrite <- Hsrc by exact Hf.
    apply (mod_vecs _ _ _ _ F3).
    repeat (destruct Hf as [<-|Hf]; [reflexivity|]). destruct Hf. }
  assert (Hdims : (n s, w1 s, w2 s, q s)
                  = (un, uw1, uw2, uq)).
  { rewrite (mod_n _ _ _ _ F3), (mod_q _ _ _ _ F3), (mod_w1 _ _ _ _ F3),
      (mod_w2 _ _ _ _ F3), Hn, Hq, Hw1, Hw2.
    reflexivity. }
  clearbody s. clear Hn Hq Hw1 Hw2 Hsrc Hnil F1 F2 F3. clearbody s2.
  clearbody s1.
  split; [exact HN|]. split; [|exact Hdims].
  cbn [map]. rewrite !Hdata by (simpl; tauto). reflexivity.
Qed.

End Norms.

(** ** Whole iterations and whole runs *)

Section Runs.

Context {G E : Type} {RS : RandomSource G E} {EO : EvaluationOrder}.

Implicit Types (s t : Variables G) (w : World E).

(** What one call of [Iteration] may assign in the object. *)
Lemma Iteration_modifies burnIn it s w :
  modifies
    [pi_m; pi_a;
     res1; res2; res2_c; var_m0; var_m1; var_alpha_a0; var_alpha_a1; var_a;
     beta_m; alpha_a; r1; r3; alpha_c; beta_c; beta_a]
    [sigma_m0; sigma_m1; sigma_a; sigma_ma0; sigma_ma1; sigma_g; sigma_e;
     old]
    s (fst (Iteration burnIn it (s, w))).
Proof.
  rewrite Iteration_fst.
  eapply modifies_trans.
  - eapply modifies_weaken; [| |apply (sweep_modifies it s)]; reflexivity.
  - eapply modifies_weaken; [| |apply update_pi_modifies]; reflexivity.
Qed.

Lemma run_modifies burnIn k s w :
  modifies
    [pi_m; pi_a;
     res1; res2; res2_c; var_m0; var_m1; var_alpha_a0; var_alpha_a1; var_a;
     beta_m; alpha_a; r1; r3; alpha_c; beta_c; beta_a]
    [sigma_m0; sigma_m1; sigma_a; sigma_ma0; sigma_ma1; sigma_g; sigma_e;
     old]
    s (fst (for_ k (Iteration burnIn) (s, w))).
Proof.
  induction k as [|k IH]; [apply modifies_refl|].
  rewrite for_S. destruct (for_ k (Iteration burnIn) (s, w)) as [t u].
  cbn [fst] in IH. eapply modifies_trans; [exact IH|].
  apply Iteration_modifies.
Qed.

(** X7: no number of iterations changes the data [Y], [A], [M], [C1], [C2],
    the four vectors of squared norms or the dimensions [n], [w1], [w2],
    [q] of the object. *)
Theorem run_keeps_data burnIn k s w :
  let s' := fst (for_ k (Iteration burnIn) (s, w)) in
  map (vecs s') [Y; A; M; C1; C2; A2norm; M2norm; C1_2norm; C2_2norm]
  = map (vecs s) [Y; A; M; C1; C2; A2norm; M2norm; C1_2norm; C2_2norm]
  /\ (n s', w1 s', w2 s', q s') = (n s, w1 s, w2 s, q s).
Proof.
  intros s'. pose proof (run_modifies burnIn k s w) as H. fold s' in H.
  clearbody s'. split.
  - cbn [map]. rewrite !(mod_vecs _ _ _ _ H) by reflexivity. reflexivity.
  - rewrite (mod_n _ _ _ _ H), (mod_w1 _ _ _ _ H), (mod_w2 _ _ _ _ H),
      (mod_q _ _ _ _ H).
    reflexivity.
Qed.

(** *** The indicators *)

(** The body of the loop over the mediators assigns entry [j] of [r1] and
    of [r3], a zero or a one each, and no other entry of the two. *)
Lemma update_mediator_indicators j s :
  exists b1 b3, binary b1 /\ binary b3
    /\ vecs (update_mediator j s) r1 = vset j b1 (vecs s r1)
    /\ vecs (update_mediator j s) r3 = vset j b3 (vecs s r3).
Proof.
  cbv delta [update_mediator]; cbv beta zeta.
  set (m0 := mu_mj0 j s). set (m1 := mu_mj1 j s).
  set (a0 := mu_alpha_aj0 j s). set (a1 := mu_alpha_aj1 j s).
  clearbody m0 m1 a0 a1.
  pose proof (update_beta_m_modifies j m0 m1 s) as F1.
  set (s1 := update_beta_m j m0 m1 s) in *. clearbody s1.
  pose proof (update_alpha_a_modifies j a0 a1 s1) as F2.
  set (s2 := update_alpha_a j a0 a1 s1) in *. clearbody s2.
  assert (E1 : vecs s2 r1 = vecs s r1).
  { rewrite (mod_vecs _ _ _ _ F2), (mod_vecs _ _ _ _ F1) by reflexivity.
    reflexivity. }
  assert (E3 : vecs s2 r3 = vecs s r3).
  { rewrite (mod_vecs _ _ _ _ F2), (mod_vecs _ _ _ _ F1) by reflexivity.
    reflexivity. }
  clear F1 F2 s1.
  assert (R1 : exists b1, binary b1
            /\ vecs (update_r1 j m0 m1 s2) r1 = vset j b1 (vecs s2 r1)).
  { cbv delta [update_r1]; cbv beta zeta.
    destruct (Rlt_dec _ 300); [|exists 1; split; [right; reflexivity|]].
    - cbv delta [draw]; cbv beta iota.
      destruct (bernoulli_distribution _ (generator s2)) as [[|] g'];
        cbn [fst snd].
      + exists 1. split; [right; reflexivity|].
        rewrite vecs_set_elem_same. f_equal. lra.
      + exists 0. split; [left; reflexivity|].
        rewrite vecs_set_elem_same. f_equal. lra.
    - rewrite vecs_set_elem_same. f_equal. lra. }
  destruct R1 as (b1 & B1 & V1).
  pose proof (update_r1_modifies j m0 m1 s2) as F3.
  set (s3 := update_r1 j m0 m1 s2) in *. clearbody s3.
  assert (R3 : exists b3, binary b3
            /\ vecs (update_r3 j a0 a1 s3) r3 = vset j b3 (vecs s3 r3)).
  { cbv delta [update_r3]; cbv beta zeta.
    destruct (Rlt_dec _ 300); [|exists 1; split; [right; reflexivity|]].
    - cbv delta [draw]; cbv beta iota.
      destruct (bernoulli_distribution _ (generator s3)) as [[|] g'];
        cbn [fst snd].
      + exists 1. split; [right; reflexivity|].
        rewrite vecs_set_elem_same. f_equal. lra.
      + exists 0. split; [left; reflexivity|].
        rewrite vecs_set_elem_same. f_equal. lra.
    - rewrite vecs_set_elem_same. f_equal. lra. }
  destruct R3 as (b3 & B3 & V3).
  pose proof (update_r3_modifies j a0 a1 s3) as F4.
  set (s4 := update_r3 j a0 a1 s3) in *. clearbody s4.
  assert (F5 : modifies [alpha_c; res2; res2_c] [old] s4
                 (for_ (w2 s4) (update_alpha_c j) s4)) by frame.
  exists b1, b3. split; [exact B1|]. split; [exact B3|]. split.
  - rewrite (mod_vecs _ _ _ _ F5), (mod_vecs _ _ _ _ F4) by reflexivity.
    rewrite V1, E1. reflexivity.
  - rewrite (mod_vecs _ _ _ _ F5) by reflexivity.
    rewrite V3, (mod_vecs _ _ _ _ F3), E3 by reflexivity. reflexivity.
Qed.

Lemma binary_below_vset (k : nat) (b : R) (v : vec) :
  (k < length v)%nat -> binary b -> binary_below k v ->
  binary_below (S k) (vset k b v).
Proof.
  intros Hk Hb Hv j Hj. destruct (Nat.eq_dec j k) as [->|Hne].
  - now rewrite nth_vset_eq.
  - rewrite nth_vset_neq by assumption. apply Hv. lia.
Qed.

(** The loop over the mediators leaves zeros and ones in [r1] and [r3]. *)
Lemma mediators_indicators s :
  length (vecs s r1) = q s -> length (vecs s r3) = q s ->
  let s' := for_ (q s) update_mediator s in
  (length (vecs s' r1) = q s /\ binary_below (q s) (vecs s' r1))
  /\ (length (vecs s' r3) = q s /\ binary_below (q s) (vecs s' r3)).
Proof.
  intros L1 L3.
  assert (H : forall k, (k <= q s)%nat ->
    let u := for_ k update_mediator s in
    (length (vecs u r1) = q s /\ binary_below k (vecs u r1))
    /\ (length (vecs u r3) = q s /\ binary_below k (vecs u r3))).
  { induction k as [|k IH]; intros Hk; cbv zeta.
    - rewrite for_0. split; (split; [assumption|]); intros j Hj; lia.
    - rewrite for_S. destruct IH as [[IL1 IB1] [IL3 IB3]]; [lia|].
      cbv zeta in IL1, IB1, IL3, IB3.
      set (u := for_ k update_mediator s) in *. clearbody u.
      destruct (update_mediator_indicators k u)
        as (b1 & b3 & B1 & B3 & -> & ->).
      rewrite !length_vset.
      split; (split; [assumption|]); apply binary_below_vset;
        assumption || lia. }
  apply H. lia.
Qed.

(** The indicators in front of the last block of the sweep and after the
    iteration. *)
Lemma sweep_indicators it s :
  length (vecs s r1) = q s -> length (vecs s r3) = q s ->
  let s1 := update_var_m (if (it =? 0)%nat then Residual s else s) in
  let s3 := update_var_a (update_sigma_e_g s1) in
  let s4 := for_ (q s3) update_mediator s3 in
  let s5 := for_ (w1 s4) update_beta_c s4 in
  let s6 := update_beta_a s5 in
  sweep it s = update_sigma_m s6
  /\ q s6 = q s
  /\ (length (vecs s6 r1) = q s /\ binary_below (q s) (vecs s6 r1))
  /\ (length (vecs s6 r3) = q s /\ binary_below (q s) (vecs s6 r3)).
Proof.
  intros L1 L3 s1 s3 s4 s5 s6. split; [reflexivity|].
  assert (F3 : modifies [res1; res2; res2_c; var_m0; var_m1; var_alpha_a0;
                         var_alpha_a1; var_a] [sigma_e; sigma_g] s s3).
  { subst s3 s1. frame. }
  clearbody s3. clear s1.
  assert (Q3 : q s3 = q s) by apply (mod_q _ _ _ _ F3).
  destruct (mediators_indicators s3) as [[ML1 MB1] [ML3 MB3]].
  { rewrite (mod_vecs _ _ _ _ F3) by reflexivity. congruence. }
  { rewrite (mod_vecs _ _ _ _ F3) by reflexivity. congruence. }
  cbv zeta in ML1, MB1, ML3, MB3. fold s4 in ML1, MB1, ML3, MB3.
  assert (F4 : modifies [beta_m; res1; alpha_a; res2; r1; r3; alpha_c;
                         res2_c] [old] s3 s4).
  { subst s4. frame. }
  clearbody s4.
  assert (F6 : modifies [beta_c; res1; beta_a] [old] s4 s6).
  { subst s6 s5. frame. }
  clearbody s6. clear s5.
  rewrite !(mod_vecs _ _ _ _ F6) by reflexivity.
  rewrite (mod_q _ _ _ _ F6), (mod_q _ _ _ _ F4).
  rewrite Q3 in *. split; [reflexivity|]. split; split; assumption.
Qed.

(** X8: after every iteration the entries of [r1] and [r3] are zeros and
    ones, whatever the two vectors held before. *)
Theorem indicators_are_binary burnIn it s w :
  length (vecs s r1) = q s -> length (vecs s r3) = q s ->
  let s' := fst (Iteration burnIn it (s, w)) in
  forall j, (j < q s)%nat ->
    ((vecs s' r1).[j] = 0 \/ (vecs s' r1).[j] = 1)
    /\ ((vecs s' r3).[j] = 0 \/ (vecs s' r3).[j] = 1).
Proof.
  intros L1 L3 s' j Hj. subst s'. rewrite Iteration_fst.
  rewrite !(mod_vecs _ _ _ _ (update_pi_modifies _ _)) by reflexivity.
  destruct (sweep_indicators it s L1 L3) as (-> & _ & [_ B1] & [_ B3]).
  rewrite !(mod_vecs _ _ _ _ (update_sigma_m_modifies _)) by reflexivity.
  split; [apply B1 | apply B3]; exact Hj.
Qed.

(** *** The variances *)




End Runs.



Lemma indicators_are_binary_witness :
  let s' := fst (Iteration 0 0 (small_state, empty_world)) in
  ((vecs s' r1).[0] = 0 \/ (vecs s' r1).[0] = 1)
  /\ ((vecs s' r3).[0] = 0 \/ (vecs s' r3).[0] = 1).
Proof.
  apply (indicators_are_binary 0 0 small_state empty_world eq_refl eq_refl).
  simpl. lia.
Defined.

(** ** The order of the draws *)

Lemma concat_repeat_snoc {X : Type} (l : list X) (k : nat) :
  concat (repeat l (Datatypes.S k)) = concat (repeat l k) ++ l.
Proof.
  induction k as [|k IH]; cbn [repeat concat] in *.
  - now rewrite app_nil_r.
  - rewrite IH at 1. now rewrite app_assoc.
Qed.

Lemma concat_repeat_one {X : Type} (x : X) (k : nat) :
  concat (repeat [x] k) = repeat x k.
Proof.
  induction k as [|k IH]; [reflexivity|]. cbn [repeat concat app].
  now rewrite IH.
Qed.

Section DrawOrder.

Context {G E : Type} {RS : RandomSource G E} {EO : EvaluationOrder}.

Implicit Types (s t : Variables G) (g : G) (w : World E).

Lemma in_order_nil g : draws_in_order [] g g.
Proof. exists []. split; reflexivity. Qed.

Lemma in_order_app (ds1 ds2 : list distribution) g1 g2 g3 :
  draws_in_order ds1 g1 g2 -> draws_in_order ds2 g2 g3 ->
  draws_in_order (ds1 ++ ds2) g1 g3.
Proof.
  intros (e1 & M1 & A1) (e2 & M2 & A2). exists (e1 ++ e2). split.
  - now rewrite map_app, M1, M2.
  - unfold advance_all in *. now rewrite fold_left_app, A1.
Qed.

Lemma in_order_eq (ds ds' : list distribution) g g1 g2 :
  draws_in_order ds g g1 -> ds = ds' -> g1 = g2 -> draws_in_order ds' g g2.
Proof. now intros H <- <-. Qed.

(** A loop whose body does not draw leaves the engine alone. *)
Lemma generator_for (k : nat) (body : nat -> Variables G -> Variables G) s :
  (forall i t, generator (body i t) = generator t) ->
  generator (for_ k body s) = generator s.
Proof.
  intros Hb. induction k as [|k IH]; [reflexivity|].
  rewrite for_S, Hb. exact IH.
Qed.

(** A loop whose body takes the draws [ds], whatever the object is. *)
Lemma in_order_loop (ds : list distribution) (Inv : Variables G -> Prop)
    (k : nat) (body : nat -> Variables G -> Variables G) s :
  Inv s ->
  (forall i t, (i < k)%nat -> Inv t ->
     Inv (body i t)
     /\ draws_in_order ds (generator t) (generator (body i t))) ->
  Inv (for_ k body s)
  /\ draws_in_order (concat (repeat ds k)) (generator s)
       (generator (for_ k body s)).
Proof.
  intros H0 Hb. induction k as [|k IH].
  - split; [exact H0 | apply in_order_nil].
  - destruct IH as [Ik Dk]; [intros i t Hi; apply Hb; lia|].
    rewrite for_S, concat_repeat_snoc.
    destruct (Hb k (for_ k body s)) as [Ik' Dk']; [lia | exact Ik |].
    split; [exact Ik'|]. eapply in_order_app; eassumption.
Qed.

(** The same for a loop that carries a value beside the object. *)
Lemma in_order_pair_loop {X : Type} (ds : list distribution) (k : nat)
    (body : nat -> X * Variables G -> X * Variables G)
    (r : X * Variables G) :
  (forall i u, draws_in_order ds (generator (snd u))
                 (generator (snd (body i u)))) ->
  draws_in_order (concat (repeat ds k)) (generator (snd r))
    (generator (snd (for_ k body r))).
Proof.
  intros Hb. induction k as [|k IH]; [apply in_order_nil|].
  rewrite for_S, concat_repeat_snoc.
  eapply in_order_app; [exact IH | apply Hb].
Qed.

End DrawOrder.

(** Reads of the engine of an object built by assignments. *)
Ltac engine :=
  repeat first
    [ reflexivity
    | progress cbn [generator set_vec set_elem set_scal set_generator
                    resize_member]
    | rewrite generator_for by (intros; cbv beta; engine) ].

(** The draws of a block that is a sequence of assignments and draws. *)
Tactic Notation "takes" uconstr(evs) :=
  cbv delta [draw]; cbv beta iota zeta; cbn [fst snd]; engine;
  refine (ex_intro _ evs (conj eq_refl eq_refl)).

Section Draws.

Context {G E : Type} {RS : RandomSource G E} {EO : EvaluationOrder}.

Implicit Types (s t : Variables G) (g : G) (w : World E).

Lemma Residual_engine s : generator (Residual s) = generator s.
Proof.
  assert (H1 : forall t, generator (Residual_res1 t) = generator t)
    by (intros t; unfold Residual_res1; engine).
  assert (H2 : forall t, generator (Residual_res2 t) = generator t)
    by (intros t; unfold Residual_res2; engine).
  assert (H3 : forall t, generator (Residual_res2_c t) = generator t)
    by (intros t; unfold Residual_res2_c; engine).
  unfold Residual. now rewrite H3, H2, H1.
Qed.

Lemma update_var_m_engine s : generator (update_var_m s) = generator s.
Proof. cbv delta [update_var_m]; cbv beta zeta. engine. Qed.

Lemma update_var_a_engine s : generator (update_var_a s) = generator s.
Proof. cbv delta [update_var_a]; cbv beta zeta. engine. Qed.

Lemma init_values_engine s : generator (init_values s) = generator s.
Proof. cbv delta [init_values]; cbv beta zeta. engine. Qed.

Lemma init_norms_engine s : generator (init_norms s) = generator s.
Proof. cbv delta [init_norms]; cbv beta zeta. engine. Qed.

Lemma init_sigma_order s :
  draws_in_order [Gamma; Gamma; Gamma; Gamma; Gamma; Gamma; Gamma]
    (generator s) (generator (init_sigma s)).
Proof.
  cbv delta [init_sigma]; cbv beta.
  takes [gamma_draw _ _; gamma_draw _ _; gamma_draw _ _; gamma_draw _ _;
         gamma_draw _ _; gamma_draw _ _; gamma_draw _ _].
Qed.

(** The constructor takes seven gamma draws from the default-constructed
    engine. *)
Lemma Variables_ctor_order
    (userY userA userM userC1 userC2 userbeta_m useralpha_a userpi_m
     userpi_a : vec) (un uw1 uw2 uq uq1 uq2 : nat) :
  draws_in_order [Gamma; Gamma; Gamma; Gamma; Gamma; Gamma; Gamma]
    default_random_engine
    (generator (Variables_ctor userY userA userM userC1 userC2 userbeta_m
                  useralpha_a userpi_m userpi_a un uw1 uw2 uq uq1 uq2)).
Proof.
  cbv delta [Variables_ctor]; cbv beta zeta.
  rewrite init_norms_engine, init_values_engine.
  apply (init_sigma_order (mkVariables _ _ _ _ _ _ _ _ _)).
Qed.

Lemma update_sigma_e_g_order s :
  draws_in_order [Gamma; Gamma] (generator s)
    (generator (update_sigma_e_g s)).
Proof.
  cbv delta [update_sigma_e_g]; cbv beta.
  takes [gamma_draw _ _; gamma_draw _ _].
Qed.

Lemma update_beta_m_order j m0 m1 s :
  draws_in_order [Normal; Normal] (generator s)
    (generator (update_beta_m j m0 m1 s)).
Proof.
  cbv delta [update_beta_m draw_operands]; cbv beta.
  destruct (@beta_m_left_first EO);
    takes [normal_draw _ _; normal_draw _ _].
Qed.

Lemma update_alpha_a_order j a0 a1 s :
  draws_in_order [Normal; Normal] (generator s)
    (generator (update_alpha_a j a0 a1 s)).
Proof.
  cbv delta [update_alpha_a draw_operands]; cbv beta.
  destruct (@alpha_a_left_first EO);
    takes [normal_draw _ _; normal_draw _ _].
Qed.

Lemma update_r1_order j m0 m1 s :
  exists b : bool,
    draws_in_order (if b then [Bernoulli] else []) (generator s)
      (generator (update_r1 j m0 m1 s)).
Proof.
  cbv delta [update_r1]; cbv beta zeta.
  destruct (Rlt_dec _ 300); [exists true | exists false].
  - cbv delta [draw]; cbv beta iota zeta; cbn [fst snd].
    destruct (fst (bernoulli_distribution _ _)); takes [bernoulli_draw _].
  - takes [].
Qed.

Lemma update_r3_order j a0 a1 s :
  exists b : bool,
    draws_in_order (if b then [Bernoulli] else []) (generator s)
      (generator (update_r3 j a0 a1 s)).
Proof.
  cbv delta [update_r3]; cbv beta zeta.
  destruct (Rlt_dec _ 300); [exists true | exists false].
  - cbv delta [draw]; cbv beta iota zeta; cbn [fst snd].
    destruct (fst (bernoulli_distribution _ _)); takes [bernoulli_draw _].
  - takes [].
Qed.

Lemma update_alpha_c_order j j1 s :
  draws_in_order [Normal] (generator s) (generator (update_alpha_c j j1 s)).
Proof.
  cbv delta [update_alpha_c]; cbv beta. takes [normal_draw _ _].
Qed.

Lemma update_beta_a_order s :
  draws_in_order [Normal] (generator s) (generator (update_beta_a s)).
Proof.
  cbv delta [update_beta_a]; cbv beta. takes [normal_draw _ _].
Qed.

Lemma update_sigma_m_order s :
  draws_in_order [Gamma; Gamma; Gamma; Gamma; Gamma] (generator s)
    (generator (update_sigma_m s)).
Proof.
  cbv delta [update_sigma_m]; cbv beta.
  takes [gamma_draw _ _; gamma_draw _ _; gamma_draw _ _; gamma_draw _ _;
         gamma_draw _ _].
Qed.

(** The loop over the covariates of the mediator stage. *)
Lemma alpha_c_loop_order j s :
  draws_in_order (repeat Normal (w2 s)) (generator s)
    (generator (for_ (w2 s) (update_alpha_c j) s)).
Proof.
  rewrite <- concat_repeat_one.
  apply (in_order_loop [Normal] (fun _ => True)); [exact I|].
  intros i t _ _. split; [exact I | apply update_alpha_c_order].
Qed.

(** The body of the loop over the mediators. *)
Lemma update_mediator_order j s :
  exists b : bool * bool,
    draws_in_order (mediator_draws (w2 s) b) (generator s)
      (generator (update_mediator j s)).
Proof.
  cbv delta [update_mediator]; cbv beta zeta.
  set (m0 := mu_mj0 j s). set (m1 := mu_mj1 j s).
  set (a0 := mu_alpha_aj0 j s). set (a1 := mu_alpha_aj1 j s).
  pose proof (update_beta_m_order j m0 m1 s) as D1.
  pose proof (update_beta_m_modifies j m0 m1 s) as F1.
  set (s1 := update_beta_m j m0 m1 s) in *. clearbody s1.
  pose proof (update_alpha_a_order j a0 a1 s1) as D2.
  pose proof (update_alpha_a_modifies j a0 a1 s1) as F2.
  set (s2 := update_alpha_a j a0 a1 s1) in *. clearbody s2.
  destruct (update_r1_order j m0 m1 s2) as [b1 D3].
  pose proof (update_r1_modifies j m0 m1 s2) as F3.
  set (s3 := update_r1 j m0 m1 s2) in *. clearbody s3.
  destruct (update_r3_order j a0 a1 s3) as [b3 D4].
  pose proof (update_r3_modifies j a0 a1 s3) as F4.
  set (s4 := update_r3 j a0 a1 s3) in *. clearbody s4.
  pose proof (alpha_c_loop_order j s4) as D5.
  assert (Hw : w2 s4 = w2 s).
  { rewrite (mod_w2 _ _ _ _ F4), (mod_w2 _ _ _ _ F3), (mod_w2 _ _ _ _ F2).
    apply (mod_w2 _ _ _ _ F1). }
  rewrite Hw in D5 at 1.
  exists (b1, b3). unfold mediator_draws. cbn [fst snd].
  repeat (eapply in_order_app; [eassumption|]). exact D5.
Qed.

(** The loop over the mediators. *)
Lemma mediators_order (k : nat) s :
  exists bs : list (bool * bool),
    length bs = k
    /\ draws_in_order (flat_map (mediator_draws (w2 s)) bs) (generator s)
         (generator (for_ k update_mediator s)).
Proof.
  induction k as [|k (bs & Hlen & IH)].
  - exists []. split; [reflexivity | apply in_order_nil].
  - rewrite for_S.
    assert (F : modifies
      [beta_m; res1; alpha_a; res2; r1; r3; alpha_c; res2_c] [old]
      s (for_ k update_mediator s)) by frame.
    destruct (update_mediator_order k (for_ k update_mediator s)) as [b D].
    rewrite (mod_w2 _ _ _ _ F) in D.
    exists (bs ++ [b]). split; [rewrite length_app; cbn [length]; lia|].
    rewrite flat_map_app. cbn [flat_map]. rewrite app_nil_r.
    eapply in_order_app; eassumption.
Qed.

(** The body of the loop over the covariates of the outcome stage: the
    draw is inside the loop over the observations. *)
Lemma update_beta_c_order j s :
  draws_in_order (repeat Normal (n s)) (generator s)
    (generator (update_beta_c j s)).
Proof.
  cbv delta [update_beta_c]; cbv beta zeta. engine.
  rewrite <- concat_repeat_one.
  apply (in_order_pair_loop [Normal] (n s) _
           (0.0, set_scal old (vecs s beta_c).[j] s)).
  intros i [mu t].
  cbv delta [draw]; cbv beta iota zeta; cbn [fst snd]. engine.
  refine (ex_intro _ [normal_draw _ _] (conj eq_refl eq_refl)).
Qed.

Lemma beta_c_loop_order s :
  draws_in_order (concat (repeat (repeat Normal (n s)) (w1 s))) (generator s)
    (generator (for_ (w1 s) update_beta_c s)).
Proof.
  apply (in_order_loop (repeat Normal (n s)) (fun t => n t = n s));
    [reflexivity|].
  intros i t _ Ht. split.
  - rewrite (mod_n _ _ _ _ (update_beta_c_modifies i t)). exact Ht.
  - rewrite <- Ht. apply update_beta_c_order.
Qed.

(** The statements of [Iteration] in front of the proposal block. *)
Lemma sweep_order it s :
  exists bs : list (bool * bool),
    length bs = q s
    /\ draws_in_order (iteration_draws (n s) (w1 s) (w2 s) bs) (generator s)
         (generator (sweep it s)).
Proof.
  cbv delta [sweep]; cbv beta zeta.
  assert (D0 : generator (if (it =? 0)%nat then Residual s else s)
               = generator s)
    by (destruct (it =? 0)%nat; [apply Residual_engine | reflexivity]).
  assert (F0 : modifies [res1; res2; res2_c] [] s
                 (if (it =? 0)%nat then Residual s else s))
    by (destruct (it =? 0)%nat; frame).
  set (s0 := if (it =? 0)%nat then Residual s else s) in *. clearbody s0.
  pose proof (update_var_m_engine s0) as D1.
  pose proof (update_var_m_modifies s0) as F1.
  set (s1 := update_var_m s0) in *. clearbody s1.
  pose proof (update_sigma_e_g_order s1) as D2.
  pose proof (update_sigma_e_g_modifies s1) as F2.
  set (s2 := update_sigma_e_g s1) in *. clearbody s2.
  pose proof (update_var_a_engine s2) as D3.
  pose proof (update_var_a_modifies s2) as F3.
  set (s3 := update_var_a s2) in *. clearbody s3.
  destruct (mediators_order (q s3) s3) as (bs & Hlen & D4).
  assert (F4 : modifies
    [beta_m; res1; alpha_a; res2; r1; r3; alpha_c; res2_c] [old]
    s3 (for_ (q s3) update_mediator s3)) by frame.
  set (s4 := for_ (q s3) update_mediator s3) in *. clearbody s4.
  pose proof (beta_c_loop_order s4) as D5.
  assert (F5 : modifies [beta_c; res1] [old] s4
                 (for_ (w1 s4) update_beta_c s4)) by frame.
  set (s5 := for_ (w1 s4) update_beta_c s4) in *. clearbody s5.
  pose proof (update_beta_a_order s5) as D6.
  set (s6 := update_beta_a s5) in *. clearbody s6.
  pose proof (update_sigma_m_order s6) as D7.
  assert (Hq : q s3 = q s).
  { rewrite (mod_q _ _ _ _ F3), (mod_q _ _ _ _ F2), (mod_q _ _ _ _ F1).
    apply (mod_q _ _ _ _ F0). }
  assert (Hw2 : w2 s3 = w2 s).
  { rewrite (mod_w2 _ _ _ _ F3), (mod_w2 _ _ _ _ F2), (mod_w2 _ _ _ _ F1).
    apply (mod_w2 _ _ _ _ F0). }
  assert (Hn : n s4 = n s).
  { rewrite (mod_n _ _ _ _ F4), (mod_n _ _ _ _ F3), (mod_n _ _ _ _ F2),
      (mod_n _ _ _ _ F1). apply (mod_n _ _ _ _ F0). }
  assert (Hw1 : w1 s4 = w1 s).
  { rewrite (mod_w1 _ _ _ _ F4), (mod_w1 _ _ _ _ F3), (mod_w1 _ _ _ _ F2),
      (mod_w1 _ _ _ _ F1). apply (mod_w1 _ _ _ _ F0). }
  rewrite Hw2 in D4. rewrite Hn, Hw1 in D5. rewrite D3 in D4.
  rewrite D1, D0 in D2.
  exists bs. split; [congruence|]. unfold iteration_draws.
  repeat (eapply in_order_app; [eassumption|]). exact D7.
Qed.

(** The proposal block does not draw from the engine; it reads the
    process-wide source three times. *)
Lemma update_pi_engine s (e : E) :
  generator (fst (update_pi s e)) = generator s.
Proof.
  cbv delta [update_pi]; cbv beta.
  destruct (Data_rand (-0.01) 0.01 (1 * q s) e) as [lm e1].
  destruct (Data_rand (-0.01) 0.01 (1 * q s) e1) as [la e2].
  cbv zeta. destruct (Data_rand 0.0 1.0 (1 * 1) e2) as [u e3].
  destruct (xgt _ _); cbn [fst]; engine.
Qed.

Lemma update_pi_rand_state s (e : E) :
  snd (update_pi s e)
  = snd (Data_rand 0 1 1
           (snd (Data_rand (-0.01) 0.01 (q s)
                   (snd (Data_rand (-0.01) 0.01 (q s) e))))).
Proof.
  cbv delta [update_pi]; cbv beta.
  rewrite Nat.mul_1_l, zero_dot_zero, one_dot_zero. cbn [Nat.mul Nat.add].
  destruct (Data_rand (-0.01) 0.01 (q s) e) as [lm e1]. cbn [snd].
  destruct (Data_rand (-0.01) 0.01 (q s) e1) as [la e2]. cbn [snd].
  cbv zeta. destruct (Data_rand 0 1 1 e2) as [u e3].
  destruct (xgt _ _); reflexivity.
Qed.

(** One call of [Iteration]. *)
Lemma Iteration_order burnIn it s w :
  (exists bs : list (bool * bool),
     length bs = q s
     /\ draws_in_order (iteration_draws (n s) (w1 s) (w2 s) bs)
          (generator s) (generator (fst (Iteration burnIn it (s, w)))))
  /\ rand_state (snd (Iteration burnIn it (s, w)))
     = reseeded_and_read (q s) it (rand_state w).
Proof.
  rewrite Iteration_fst, Iteration_rand_state, update_pi_engine,
    update_pi_rand_state.
  rewrite (mod_q _ _ _ _ (sweep_modifies it s)).
  split; [apply sweep_order | reflexivity].
Qed.

End Draws.

(** ** Reproducibility *)

Section Reproducibility.

Context {G E : Type} {RS : RandomSource G E} {EO : EvaluationOrder}.

Implicit Types (s : Variables G) (w : World E).

(** The object and the random source after [k] iterations do not depend on
    the burn-in, on what was printed or on the files. *)
Lemma runs_agree (b1 b2 k : nat) (sw sw' : Variables G * World E) :
  fst sw = fst sw' ->
  rand_state (snd sw) = rand_state (snd sw') ->
  fst (for_ k (Iteration b1) sw) = fst (for_ k (Iteration b2) sw')
  /\ rand_state (snd (for_ k (Iteration b1) sw))
     = rand_state (snd (for_ k (Iteration b2) sw')).
Proof.
  intros Hs Hw. induction k as [|k [IHs IHw]]; [now split|].
  cbn [for_].
  destruct (for_ k (Iteration b1) sw) as [s1 w1'].
  destruct (for_ k (Iteration b2) sw') as [s2 w2'].
  cbn [fst snd] in IHs, IHw. subst s2.
  rewrite !Iteration_fst, !Iteration_rand_state, IHw. now split.
Qed.

(** The dimensions of the object the constructor builds. *)
Lemma ctor_dimensions
    (userY userA userM userC1 userC2 userbeta_m useralpha_a userpi_m
     userpi_a : vec) (un uw1 uw2 uq uq1 uq2 : nat) :
  let s := Variables_ctor userY userA userM userC1 userC2 userbeta_m
             useralpha_a userpi_m userpi_a un uw1 uw2 uq uq1 uq2 in
  n s = un /\ w1 s = uw1 /\ w2 s = uw2 /\ q s = uq.
Proof.
  cbv delta [Variables_ctor]; cbv beta zeta.
  set (s0 := mkVariables un uw1 uw2 uq uq1 uq2 _ _ _).
  pose proof (init_sigma_modifies s0) as F1.
  pose proof (init_values_modifies (init_sigma s0)) as F2.
  pose proof (init_norms_modifies (init_values (init_sigma s0))) as F3.
  rewrite (mod_n _ _ _ _ F3), (mod_n _ _ _ _ F2), (mod_n _ _ _ _ F1),
    (mod_w1 _ _ _ _ F3), (mod_w1 _ _ _ _ F2), (mod_w1 _ _ _ _ F1),
    (mod_w2 _ _ _ _ F3), (mod_w2 _ _ _ _ F2), (mod_w2 _ _ _ _ F1),
    (mod_q _ _ _ _ F3), (mod_q _ _ _ _ F2), (mod_q _ _ _ _ F1).
  repeat split.
Qed.

(** C8: for every build and every pair of random sources, the engine and
    the process-wide source are consumed in a fixed order.  The constructor
    takes seven gamma draws from the default-constructed engine.  Call
    [it] of [Iteration] takes from the engine two gamma draws; for each of
    the [q] mediators in order four normal draws, at most one Bernoulli
    draw for [r1[j]] and at most one for [r3[j]], and [w2] normal draws;
    then [w1 * n] normal draws, one normal draw and five gamma draws; it
    reseeds the process-wide source with [it] and reads from it [q], [q]
    and one uniform number.  Two runs of [mcmc] on the same inputs, from the
    same state of the process-wide source, go through the same trajectory
    of [beta_m], [alpha_a], [pi_m], [pi_a], [beta_a], [r1], [r3] and the
    seven variances, and leave the object, its engine included, and the
    process-wide source in the same state, even if they differ in the
    burn-in and in what the output and the files held before. *)
Theorem reproducible_run
    (userY userA userM userC1 userC2 userbeta_m useralpha_a userpi_m
     userpi_a : vec)
    (un uw1 uw2 uq uq1 uq2 burnIn burnIn' niter : nat) (w w' : World E) :
  rand_state w = rand_state w' ->
  let run := mcmc userY userA userM userC1 userC2 userbeta_m useralpha_a
               userpi_m userpi_a un uw1 uw2 uq uq1 uq2 in
  let start := Variables_ctor userY userA userM userC1 userC2 userbeta_m
                 useralpha_a userpi_m userpi_a un uw1 uw2 uq uq1 uq2 in
  draws_in_order [Gamma; Gamma; Gamma; Gamma; Gamma; Gamma; Gamma]
    default_random_engine (generator start)
  /\ (forall it : nat,
        (exists bs : list (bool * bool),
           length bs = uq
           /\ draws_in_order (iteration_draws un uw1 uw2 bs)
                (generator (fst (run burnIn it w)))
                (generator (fst (run burnIn (Datatypes.S it) w))))
        /\ rand_state (snd (run burnIn (Datatypes.S it) w))
           = reseeded_and_read uq it (rand_state (snd (run burnIn it w))))
  /\ trajectory burnIn niter (start, w) = trajectory burnIn' niter (start, w')
  /\ fst (run burnIn niter w) = fst (run burnIn' niter w')
  /\ rand_state (snd (run burnIn niter w))
     = rand_state (snd (run burnIn' niter w')).
Proof.
  intros Hw run start. subst run. unfold mcmc. fold start.
  split; [apply Variables_ctor_order|].
  destruct (ctor_dimensions userY userA userM userC1 userC2 userbeta_m
              useralpha_a userpi_m userpi_a un uw1 uw2 uq uq1 uq2)
    as (Hn & Hw1 & Hw2 & Hq).
  cbv zeta in Hn, Hw1, Hw2, Hq. fold start in Hn, Hw1, Hw2, Hq.
  revert Hn Hw1 Hw2 Hq. generalize start as s0. intros s0 Hn Hw1 Hw2 Hq.
  split; [|split].
  - intros it. rewrite for_S.
    pose proof (run_modifies burnIn it s0 w) as F.
    destruct (for_ it (Iteration burnIn) (s0, w)) as [t u].
    cbn [fst snd] in *.
    pose proof (Iteration_order burnIn it t u) as D.
    rewrite (mod_n _ _ _ _ F), (mod_w1 _ _ _ _ F), (mod_w2 _ _ _ _ F),
      (mod_q _ _ _ _ F), Hn, Hw1, Hw2, Hq in D.
    exact D.
  - unfold trajectory. apply map_ext. intros k.
    destruct (runs_agree burnIn burnIn' k (s0, w) (s0, w') eq_refl Hw)
      as [Hk _].
    rewrite Hk. reflexivity.
  - exact (runs_agree burnIn burnIn' niter (s0, w) (s0, w') eq_refl Hw).
Qed.

End Reproducibility.

(** On the source that counts the draws, draws from [ds] advance the
    engine by the length of [ds]. *)
Lemma mean_source_counts (ds : list distribution) (g g' : nat) :
  draws_in_order ds g g' -> g' = (g + length ds)%nat.
Proof.
  intros (evs & <- & <-). rewrite length_map. revert g.
  induction evs as [|ev evs IH]; intros g; cbn [advance_all fold_left length].
  - lia.
  - unfold advance_all in IH. rewrite IH.
    destruct ev; cbn [advance mean_source gamma_distribution
                      normal_distribution bernoulli_distribution snd]; lia.
Qed.

(** Two runs of three iterations on the small data set, one with no
    burn-in and one with a burn-in of five iterations. *)
Lemma reproducible_run_witness :
  let run := mcmc [1; 2] [1; 1] [1; 0] [1; 3] [2; 1] [0] [0] [0.5] [0.5]
               2 1 1 1 0 0 in
  draws_in_order [Gamma; Gamma; Gamma; Gamma; Gamma; Gamma; Gamma]
    default_random_engine (generator small_object)
  /\ (forall it : nat,
        (exists bs : list (bool * bool),
           length bs = 1%nat
           /\ draws_in_order (iteration_draws 2 1 1 bs)
                (generator (fst (run 0%nat it empty_world)))
                (generator (fst (run 0%nat (Datatypes.S it) empty_world))))
        /\ rand_state (snd (run 0%nat (Datatypes.S it) empty_world))
           = reseeded_and_read 1 it
               (rand_state (snd (run 0%nat it empty_world))))
  /\ trajectory 0 3 (small_object, empty_world)
     = trajectory 5 3 (small_object, empty_world)
  /\ fst (run 0%nat 3%nat empty_world) = fst (run 5%nat 3%nat empty_world)
  /\ rand_state (snd (run 0%nat 3%nat empty_world))
     = rand_state (snd (run 5%nat 3%nat empty_world)).
Proof.
  exact (reproducible_run [1; 2] [1; 1] [1; 0] [1; 3] [2; 1] [0] [0] [0.5]
           [0.5] 2 1 1 1 0 0 0 5 3 empty_world empty_world eq_refl).
Defined.

Section WholeRun.

Context {G E : Type} {RS : RandomSource G E} {EO : EvaluationOrder}.

Implicit Types (s t : Variables G) (w : World E).

Lemma init_values_lengths s :
  length (vecs (init_values s) beta_a) = 1%nat
  /\ length (vecs (init_values s) beta_c) = w1 s
  /\ length (vecs (init_values s) alpha_c) = (w2 s * q s)%nat.
Proof.
  cbv delta [init_values]; cbv beta zeta. store.
  rewrite ?length_vset, !length_resize. repeat split; lia.
Qed.

(** The object the constructor builds from data of the stated dimensions
    has members of the dimensions the sweep assumes. *)
Lemma ctor_shaped
    (userY userA userM userC1 userC2 userbeta_m useralpha_a userpi_m
     userpi_a : vec) (un uw1 uw2 uq uq1 uq2 : nat) :
  length userY = un -> length userA = un -> length userM = (un * uq)%nat ->
  length userC1 = (un * uw1)%nat -> length userC2 = (un * uw2)%nat ->
  length userbeta_m = uq -> length useralpha_a = uq ->
  let s : Variables G :=
    Variables_ctor userY userA userM userC1 userC2 userbeta_m useralpha_a
      userpi_m userpi_a un uw1 uw2 uq uq1 uq2 in
  shaped s /\ n s = un /\ q s = uq.
Proof.
  intros LY LA LM LC1 LC2 Lb La.
  cbv delta [Variables_ctor]; cbv beta zeta.
  set (s0 := mkVariables un uw1 uw2 uq uq1 uq2 default_random_engine _ _).
  set (s1 := init_sigma s0). set (s2 := init_values s1).
  pose proof (init_sigma_modifies s0) as F1. fold s1 in F1.
  pose proof (init_values_modifies s1) as F2. fold s2 in F2.
  pose proof (init_norms_modifies s2) as F3.
  destruct (init_values_lengths s1) as (Lba & Lbc & Lac).
  fold s2 in Lba, Lbc, Lac.
  rewrite (mod_w1 _ _ _ _ F1) in Lbc.
  rewrite (mod_w2 _ _ _ _ F1), (mod_q _ _ _ _ F1) in Lac.
  assert (Hdata : forall f,
    In f [Y; A; M; C1; C2; beta_m; alpha_a] ->
    vecs (init_norms s2) f = vecs s0 f).
  { intros f Hf.
    assert (Ht : touches [A2norm; M2norm; C1_2norm; C2_2norm] f = false
                 /\ touches [r1; r3; beta_a; beta_c; alpha_c] f = false).
    { repeat (destruct Hf as [<-|Hf]; [split; reflexivity|]).
      destruct Hf. }
    destruct Ht as [Ht3 Ht2].
    rewrite (mod_vecs _ _ _ _ F3 f Ht3), (mod_vecs _ _ _ _ F2 f Ht2),
      (mod_vecs _ _ _ _ F1 f eq_refl).
    reflexivity. }
  assert (Hn : n (init_norms s2) = un).
  { rewrite (mod_n _ _ _ _ F3), (mod_n _ _ _ _ F2), (mod_n _ _ _ _ F1).
    reflexivity. }
  assert (Hq : q (init_norms s2) = uq).
  { rewrite (mod_q _ _ _ _ F3), (mod_q _ _ _ _ F2), (mod_q _ _ _ _ F1).
    reflexivity. }
  assert (Hw1 : w1 (init_norms s2) = uw1).
  { rewrite (mod_w1 _ _ _ _ F3), (mod_w1 _ _ _ _ F2), (mod_w1 _ _ _ _ F1).
    reflexivity. }
  assert (Hw2 : w2 (init_norms s2) = uw2).
  { rewrite (mod_w2 _ _ _ _ F3), (mod_w2 _ _ _ _ F2), (mod_w2 _ _ _ _ F1).
    reflexivity. }
  assert (Hown : forall f, In f [beta_a; beta_c; alpha_c] ->
    vecs (init_norms s2) f = vecs s2 f).
  { intros f Hf. apply (mod_vecs _ _ _ _ F3).
    repeat (destruct Hf as [<-|Hf]; [reflexivity|]). destruct Hf. }
  set (s := init_norms s2) in *. clearbody s. clearbody s2. clearbody s1.
  split; [|split; assumption].
  constructor; rewrite ?Hn, ?Hq, ?Hw1, ?Hw2;
    first [ rewrite Hdata by (simpl; tauto); assumption
          | rewrite Hown by (simpl; tauto); assumption ].
Qed.

(** One iteration keeps the caches consistent; iteration 0 makes them
    so. *)
Lemma Iteration_cached burnIn it s w :
  shaped s -> it = 0%nat \/ cached s ->
  shaped (fst (Iteration burnIn it (s, w)))
  /\ cached (fst (Iteration burnIn it (s, w))).
Proof.
  intros Hs Hit. rewrite Iteration_fst.
  destruct (sweep_cached it s Hs Hit) as [S1 C1'].
  pose proof (update_pi_modifies (sweep it s) (srand it (rand_state w)))
    as Hpi.
  split.
  - apply (shaped_frame _ _ _ _ Hpi); [reflexivity | exact S1].
  - apply (cached_frame _ _ _ _ Hpi); [reflexivity | exact C1'].
Qed.

Lemma run_cached burnIn k s w :
  shaped s ->
  shaped (fst (for_ (S k) (Iteration burnIn) (s, w)))
  /\ cached (fst (for_ (S k) (Iteration burnIn) (s, w))).
Proof.
  intros Hs. induction k as [|k [IHs IHc]].
  - rewrite for_S, for_0. apply Iteration_cached; auto.
  - rewrite for_S.
    destruct (for_ (S k) (Iteration burnIn) (s, w)) as [t u].
    cbn [fst] in IHs, IHc. apply Iteration_cached; auto.
Qed.

(** X10: a run of one iteration or more on data of the stated dimensions ends
    with residual caches that hold the residuals of the final parameters:
    the constructor leaves the caches empty and the first iteration builds
    them. *)
Theorem mcmc_caches_consistent
    (userY userA userM userC1 userC2 userbeta_m useralpha_a userpi_m
     userpi_a : vec) (un uw1 uw2 uq uq1 uq2 burnIn niter : nat) w :
  length userY = un -> length userA = un -> length userM = (un * uq)%nat ->
  length userC1 = (un * uw1)%nat -> length userC2 = (un * uw2)%nat ->
  length userbeta_m = uq -> length useralpha_a = uq ->
  (1 <= niter)%nat ->
  let s := fst (mcmc userY userA userM userC1 userC2 userbeta_m useralpha_a
                  userpi_m userpi_a un uw1 uw2 uq uq1 uq2 burnIn niter w) in
  (forall i, (i < un)%nat -> (vecs s res1).[i] = res1_formula s i)
  /\ (forall i j, (i < un)%nat -> (j < uq)%nat ->
        (vecs s res2).[j * un + i] = res2_formula s i j
        /\ (vecs s res2_c).[j * un + i] = res2_c_formula s i j).
Proof.
  intros LY LA LM LC1 LC2 Lb La Hniter.
  destruct (ctor_shaped userY userA userM userC1 userC2 userbeta_m
              useralpha_a userpi_m userpi_a un uw1 uw2 uq uq1 uq2
              LY LA LM LC1 LC2 Lb La) as (Hs0 & Hn0 & Hq0).
  unfold mcmc.
  set (s0 := Variables_ctor userY userA userM userC1 userC2 userbeta_m
               useralpha_a userpi_m userpi_a un uw1 uw2 uq uq1 uq2) in *.
  clearbody s0. destruct niter as [|k]; [lia|].
  destruct (run_cached burnIn k s0 w Hs0) as [_ Hc].
  pose proof (run_modifies burnIn (S k) s0 w) as Hm.
  cbv zeta.
  set (s := fst (for_ (S k) (Iteration burnIn) (s0, w))) in *. clearbody s.
  destruct Hc as [_ _ _ V1 V2 V3].
  rewrite (mod_n _ _ _ _ Hm), Hn0 in V1, V2, V3.
  rewrite (mod_q _ _ _ _ Hm), Hq0 in V2, V3.
  split; [exact V1|]. intros i j Hi Hj. split; auto.
Qed.

End WholeRun.

Lemma mcmc_caches_consistent_witness :
  let s := fst (mcmc [1; 2] [1; 1] [1; 0] [1; 3] [2; 1] [0] [0] [0.5] [0.5]
                  2 1 1 1 0 0 0 2 empty_world) in
  (forall i, (i < 2)%nat -> (vecs s res1).[i] = res1_formula s i)
  /\ (forall i j, (i < 2)%nat -> (j < 1)%nat ->
        (vecs s res2).[j * 2 + i] = res2_formula s i j
        /\ (vecs s res2_c).[j * 2 + i] = res2_c_formula s i j).
Proof.
  apply (mcmc_caches_consistent [1; 2] [1; 1] [1; 0] [1; 3] [2; 1] [0] [0]
           [0.5] [0.5] 2 1 1 1 0 0 0 2 empty_world);
    reflexivity || lia.
Defined.

(** ** The result file over a run *)

Lemma retained_count (burnIn k : nat) :
  length (filter (retained burnIn) (seq 0 k))
  = ((k - 1) / 10 - burnIn / 10)%nat.
Proof.
  induction k as [|k IH]; [reflexivity|].
  rewrite seq_S, filter_app, length_app, IH. cbn [filter Nat.add].
  replace (S k - 1)%nat with k by lia.
  pose proof (Nat.div_mod_eq k 10). pose proof (Nat.div_mod_eq (k - 1) 10).
  pose proof (Nat.div_mod_eq burnIn 10).
  pose proof (Nat.mod_upper_bound k 10).
  pose proof (Nat.mod_upper_bound (k - 1) 10).
  pose proof (Nat.mod_upper_bound burnIn 10).
  unfold retained.
  destruct (Nat.ltb_spec burnIn k), (Nat.eqb_spec (k mod 10) 0);
    cbn [andb length]; lia.
Qed.

Lemma retained_none (burnIn k : nat) :
  (k <= S burnIn)%nat -> filter (retained burnIn) (seq 0 k) = [].
Proof.
  intros Hk. induction k as [|k IH]; [reflexivity|].
  rewrite seq_S, filter_app, IH by lia. cbn [filter Nat.add app].
  unfold retained.
  destruct (Nat.ltb_spec burnIn k); [lia | reflexivity].
Qed.

Section ResultFile.

Context {G E : Type} {RS : RandomSource G E} {EO : EvaluationOrder}.

Implicit Types (s t : Variables G) (w : World E).

(** The files after [k] iterations. *)
Lemma run_files burnIn k s w (f : string) :
  files (snd (for_ k (Iteration burnIn) (s, w))) f
  = files w f
    ++ (if String.eqb f (outfilename s)
        then flat_map
               (fun it => result_row
                            (fst (for_ (S it) (Iteration burnIn) (s, w))))
               (filter (retained burnIn) (seq 0 k))
        else []).
Proof.
  induction k as [|k IH].
  - rewrite for_0. cbn [snd seq filter flat_map].
    destruct (String.eqb f (outfilename s)); now rewrite app_nil_r.
  - rewrite seq_S, filter_app, flat_map_app. cbn [Nat.add filter].
    pose proof (run_modifies burnIn k s w) as Hm.
    assert (HF : files (snd (for_ (S k) (Iteration burnIn) (s, w))) f
                 = if retained burnIn k && String.eqb f (outfilename s)
                   then files (snd (for_ k (Iteration burnIn) (s, w))) f
                        ++ result_row
                             (fst (for_ (S k) (Iteration burnIn) (s, w)))
                   else files (snd (for_ k (Iteration burnIn) (s, w))) f).
    { rewrite (for_S k).
      destruct (for_ k (Iteration burnIn) (s, w)) as [t u].
      cbn [fst snd] in Hm |- *.
      rewrite Iteration_files. unfold outfilename, retained.
      now rewrite (mod_q _ _ _ _ Hm). }
    rewrite HF, IH.
    destruct (retained burnIn k); cbn [andb flat_map];
      destruct (String.eqb f (outfilename s));
      rewrite ?app_nil_r, <- ?app_assoc; reflexivity.
Qed.

(** X11: after [k] iterations the result file holds what it held before,
    followed by one row for every iteration [it] below [k] with
    [it > burnIn] and [it mod 10 == 0], in order, each row showing the
    parameters as that iteration left them; there are
    [(k - 1) / 10 - burnIn / 10] such rows (in natural numbers).  Every
    other file is as it was. *)
Theorem run_result_file burnIn k s w (f : string) :
  let rows :=
    map (fun it => result_row (fst (for_ (S it) (Iteration burnIn) (s, w))))
      (filter (retained burnIn) (seq 0 k)) in
  files (snd (for_ k (Iteration burnIn) (s, w))) f
  = (if String.eqb f (outfilename s) then files w f ++ concat rows
     else files w f)
  /\ length rows = ((k - 1) / 10 - burnIn / 10)%nat.
Proof.
  intros rows. split.
  - rewrite run_files. subst rows. rewrite <- flat_map_concat_map.
    destruct (String.eqb f (outfilename s)); [reflexivity|].
    apply app_nil_r.
  - subst rows. rewrite length_map. apply retained_count.
Qed.

(** X12: a run that is not longer than the burn-in plus one iteration writes
    to no file. *)
Theorem short_run_writes_nothing
    (userY userA userM userC1 userC2 userbeta_m useralpha_a userpi_m
     userpi_a : vec) (un uw1 uw2 uq uq1 uq2 burnIn niter : nat) w :
  (niter <= S burnIn)%nat ->
  forall f : string,
    files (snd (mcmc userY userA userM userC1 userC2 userbeta_m useralpha_a
                  userpi_m userpi_a un uw1 uw2 uq uq1 uq2 burnIn niter w)) f
    = files w f.
Proof.
  intros Hk f. unfold mcmc. rewrite run_files, retained_none by exact Hk.
  cbn [flat_map]. destruct (String.eqb _ _); apply app_nil_r.
Qed.

End ResultFile.

Lemma short_run_writes_nothing_witness :
  files (snd (mcmc [1; 2] [1; 1] [1; 0] [1; 3] [2; 1] [0] [0] [0.5] [0.5]
                2 1 1 1 0 0 20 21 empty_world)) "results_1.txt"
  = files empty_world "results_1.txt".
Proof.
  apply (short_run_writes_nothing [1; 2] [1; 1] [1; 0] [1; 3] [2; 1] [0] [0]
           [0.5] [0.5] 2 1 1 1 0 0 20 21 empty_world).
  lia.
Defined.

(** ** The name of the result file *)

Lemma string_length_append (a b : string) :
  String.length (a ++ b) = (String.length a + String.length b)%nat.
Proof. induction a as [|c a IH]; simpl; [reflexivity | now rewrite IH]. Qed.

Lemma string_append_inj_r (a b c : string) :
  (a ++ c = b ++ c)%string -> a = b.
Proof.
  revert b. induction a as [|x a IH]; intros [|y b] H.
  - reflexivity.
  - apply (f_equal String.length) in H. simpl in H.
    rewrite string_length_append in H. lia.
  - apply (f_equal String.length) in H. simpl in H.
    rewrite string_length_append in H. lia.
  - simpl in H. injection H as -> H. f_equal. now apply IH.
Qed.

Lemma to_string_inj (z z' : Z) : to_string z = to_string z' -> z = z'.
Proof.
  unfold to_string. intros H.
  assert (Hnil : forall x : Z,
    Z.to_int x <> Decimal.Pos Decimal.Nil
    /\ Z.to_int x <> Decimal.Neg Decimal.Nil).
  { intros x. split; intros Hx;
      pose proof (DecimalZ.of_to x) as Hof; rewrite Hx in Hof;
      cbn in Hof; subst x; discriminate Hx. }
  apply DecimalZ.to_int_inj.
  pose proof (NilZero.isi (Z.to_int z) (proj1 (Hnil z)) (proj2 (Hnil z)))
    as E1.
  pose proof (NilZero.isi (Z.to_int z') (proj1 (Hnil z')) (proj2 (Hnil z')))
    as E2.
  rewrite H in E1. rewrite E1 in E2. now injection E2.
Qed.

Lemma int_of_size_t_small (k : nat) :
  (Z.of_nat k < 2147483648)%Z -> int_of_size_t k = Z.of_nat k.
Proof.
  intros Hk. unfold int_of_size_t.
  rewrite Z.mod_small by lia. lia.
Qed.

Section FileName.

Context {G E : Type} {RS : RandomSource G E} {EO : EvaluationOrder}.

(** X13: objects with different numbers of mediators, both below [2^31], write
    to different files. *)
Theorem outfilename_injective (s t : Variables G) :
  (Z.of_nat (q s) < 2147483648)%Z -> (Z.of_nat (q t) < 2147483648)%Z ->
  outfilename s = outfilename t -> q s = q t.
Proof.
  intros Hs Ht H. unfold outfilename in H.
  cbn [String.append] in H.
  repeat match type of H with
  | String _ _ = String _ _ => injection H as H
  end.
  apply string_append_inj_r, to_string_inj in H.
  rewrite !int_of_size_t_small in H by assumption. lia.
Qed.

End FileName.

Lemma outfilename_injective_witness : q small_state = q small_object.
Proof.
  apply (outfilename_injective small_state small_object);
    [simpl; lia | simpl; lia | reflexivity].
Defined.

(** ** More on the proposal *)

Lemma reflect_code_positive (k : nat) (x : R) :
  (1 <= k)%nat -> (Z.of_nat k < 4294967296)%Z -> 0 < x ->
  0 < reflect_code k x.
Proof.
  intros Hk1 Hk Hx. unfold reflect_code.
  rewrite size_t_mul_small, !one_dot_zero by assumption.
  assert (HK : 1 <= INR k) by (apply (le_INR 1); exact Hk1).
  assert (Hx' : 0 < (if Rgt_dec x 1 then 1 / x else x)).
  { destruct (Rgt_dec x 1); [apply Rdiv_lt_0_compat; lra | exact Hx]. }
  cbv zeta. set (y := if Rgt_dec x 1 then 1 / x else x) in *. clearbody y.
  destruct (Rlt_dec y (1 / INR k)); [|exact Hx'].
  apply Rdiv_lt_0_compat; [lra|].
  apply Rmult_lt_0_compat; [apply Rmult_lt_0_compat; lra | exact Hx'].
Qed.

Section Positivity.

Context {G E : Type} {RS : RandomSource G E} {EO : EvaluationOrder}.

Implicit Types (s t : Variables G) (e : E).

(** X14: for [1 <= q < 2^32], positive inclusion probabilities stay positive
    through the proposal block, whatever the perturbations are and whether
    the proposal is accepted or not. *)
Theorem pi_stays_positive s e :
  (1 <= q s)%nat -> (Z.of_nat (q s) < 4294967296)%Z ->
  length (vecs s pi_m) = q s -> length (vecs s pi_a) = q s ->
  (forall j, (j < q s)%nat ->
     0 < (vecs s pi_m).[j] /\ 0 < (vecs s pi_a).[j]) ->
  let s' := fst (update_pi s e) in
  forall j, (j < q s)%nat ->
    0 < (vecs s' pi_m).[j] /\ 0 < (vecs s' pi_a).[j].
Proof.
  intros Hq1 Hq Lm La Hpos s' j Hj.
  pose proof (update_pi_outcome s e Lm La) as Hout. cbv zeta in Hout.
  fold s' in Hout.
  destruct (xgt _ _) in Hout; injection Hout as -> ->.
  - destruct (my_pi_nth s
      (fst (Data_rand (-0.01) 0.01 (q s) e))
      (fst (Data_rand (-0.01) 0.01 (q s)
              (snd (Data_rand (-0.01) 0.01 (q s) e)))))
      as (_ & _ & Hnth).
    destruct (Hnth j Hj) as [-> ->]. destruct (Hpos j Hj) as [Pm Pa].
    split; apply reflect_code_positive; try assumption;
      apply Rabs_pos_lt, Rgt_not_eq, Rmult_lt_0_compat;
      assumption || apply exp_pos.
  - apply Hpos. exact Hj.
Qed.

End Positivity.

(** ** [Residual] *)

Section Overwrite.

Context {G E : Type} {RS : RandomSource G E} {EO : EvaluationOrder}.

Implicit Types (s t : Variables G).

(** X15: [Residual] overwrites the three caches: what it stores does not depend
    on what they held. *)
Theorem Residual_ignores_caches C s t :
  shaped s -> modifies [res1; res2; res2_c] C s t ->
  map (vecs (Residual t)) [res1; res2; res2_c]
  = map (vecs (Residual s)) [res1; res2; res2_c].
Proof.
  intros Hs Hst.
  assert (Ht : shaped t)
    by (apply (shaped_frame _ _ _ _ Hst); [reflexivity | exact Hs]).
  destruct (Residual_cached s Hs) as [_ [L1 L2 L3 V1 V2 V3]].
  destruct (Residual_cached t Ht) as [_ [L1' L2' L3' V1' V2' V3']].
  pose proof (Residual_modifies s) as Fs.
  pose proof (Residual_modifies t) as Ft.
  rewrite (mod_n _ _ _ _ Fs) in *. rewrite (mod_q _ _ _ _ Fs) in *.
  rewrite (mod_n _ _ _ _ Ft), (mod_n _ _ _ _ Hst) in *.
  rewrite (mod_q _ _ _ _ Ft), (mod_q _ _ _ _ Hst) in *.
  assert (Hcell : forall idx, (idx < n s * q s)%nat ->
    exists i j, (i < n s)%nat /\ (j < q s)%nat /\ idx = (j * n s + i)%nat).
  { intros idx Hidx. assert (Hn : n s <> 0%nat) by nia.
    exists (idx mod n s)%nat, (idx / n s)%nat. split; [|split].
    - now apply Nat.mod_upper_bound.
    - apply Nat.Div0.div_lt_upper_bound. lia.
    - rewrite (Nat.div_mod_eq idx (n s)) at 1. lia. }
  assert (F1 : forall i, res1_formula (Residual t) i
                         = res1_formula (Residual s) i).
  { intros i.
    rewrite (res1_formula_frame _ _ _ _ i Ft eq_refl),
      (res1_formula_frame _ _ _ _ i Hst eq_refl),
      (res1_formula_frame _ _ _ _ i Fs eq_refl).
    reflexivity. }
  assert (F2 : forall i j,
    res2_formula (Residual t) i j = res2_formula (Residual s) i j
    /\ res2_c_formula (Residual t) i j = res2_c_formula (Residual s) i j).
  { intros i j.
    destruct (res2_formula_frame _ _ _ _ i j Ft eq_refl) as [-> ->].
    destruct (res2_formula_frame _ _ _ _ i j Hst eq_refl) as [-> ->].
    destruct (res2_formula_frame _ _ _ _ i j Fs eq_refl) as [-> ->].
    split; reflexivity. }
  cbn [map]. f_equal; [|f_equal; [|f_equal]].
  - apply (nth_ext _ _ 0 0); [congruence|]. intros i Hi.
    rewrite V1, V1', F1 by lia. reflexivity.
  - apply (nth_ext _ _ 0 0); [congruence|]. intros idx Hidx.
    destruct (Hcell idx) as (i & j & Hi & Hj & ->); [lia|].
    rewrite V2, V2' by assumption. apply F2.
  - apply (nth_ext _ _ 0 0); [congruence|]. intros idx Hidx.
    destruct (Hcell idx) as (i & j & Hi & Hj & ->); [lia|].
    rewrite V3, V3' by assumption. apply F2.
Qed.

End Overwrite.

Lemma pi_stays_positive_witness :
  let s' := fst (update_pi pi_object tt) in
  (0 < (vecs s' pi_m).[0] /\ 0 < (vecs s' pi_a).[0])
  /\ (0 < (vecs s' pi_m).[1] /\ 0 < (vecs s' pi_a).[1]).
Proof.
  cbv zeta.
  assert (H := pi_stays_positive pi_object tt).
  cbv zeta in H.
  split; apply H; try reflexivity; try (simpl; lia);
    intros [|[|j]] Hj; simpl in *; try lia; lra.
Defined.

Lemma Residual_ignores_caches_witness :
  map (vecs (Residual (set_vec res1 [7; 7] small_state)))
    [res1; res2; res2_c]
  = map (vecs (Residual small_state)) [res1; res2; res2_c].
Proof.
  apply (Residual_ignores_caches [] small_state
           (set_vec res1 [7; 7] small_state)).
  - constructor; reflexivity.
  - apply modifies_set_vec; [reflexivity | apply modifies_refl].
Defined.

(** ** The posterior variances *)

Section PosteriorVariances.

Context {G E : Type} {RS : RandomSource G E} {EO : EvaluationOrder}.

Implicit Types (s t : Variables G) (w : World E).

(** The block [var_m]. *)
Lemma update_var_m_values s :
  forall j, (j < q s)%nat ->
    (vecs (update_var_m s) var_m0).[j]
    = 1 / (1 / scal s sigma_m0 + (vecs s M2norm).[j] / scal s sigma_e)
    /\ (vecs (update_var_m s) var_m1).[j]
       = 1 / (1 / scal s sigma_m1 + (vecs s M2norm).[j] / scal s sigma_e).
Proof.
  cbv delta [update_var_m]; cbv beta zeta.
  set (s0 := resize_member var_m1 1 (q (resize_member var_m0 1 (q s) 0.0 s))
               0.0 (resize_member var_m0 1 (q s) 0.0 s)).
  assert (F0 : modifies [var_m0; var_m1] [] s s0) by (subst s0; frame).
  assert (L0 : length (vecs s0 var_m0) = q s
               /\ length (vecs s0 var_m1) = q s).
  { subst s0. store. rewrite !length_resize. lia. }
  clearbody s0. rewrite (mod_q _ _ _ _ F0).
  assert (H : forall k, (k <= q s)%nat ->
    let u := for_ k (fun j s =>
      let s := set_elem var_m0 j
        (1.0 / (1.0 / scal s sigma_m0
                + (vecs s M2norm).[j] / scal s sigma_e)) s in
      set_elem var_m1 j
        (1.0 / (1.0 / scal s sigma_m1
                + (vecs s M2norm).[j] / scal s sigma_e)) s) s0 in
    modifies [var_m0; var_m1] [] s u
    /\ length (vecs u var_m0) = q s /\ length (vecs u var_m1) = q s
    /\ forall j, (j < k)%nat ->
         (vecs u var_m0).[j]
         = 1 / (1 / scal s sigma_m0 + (vecs s M2norm).[j] / scal s sigma_e)
         /\ (vecs u var_m1).[j]
            = 1 / (1 / scal s sigma_m1
                   + (vecs s M2norm).[j] / scal s sigma_e)).
  { induction k as [|k IH]; intros Hk; cbv zeta.
    - rewrite for_0. split; [exact F0|]. split; [apply L0|].
      split; [apply L0|]. intros j Hj. lia.
    - rewrite for_S. destruct IH as (Fu & Lu0 & Lu1 & Vu); [lia|].
      cbv zeta in Fu, Lu0, Lu1, Vu.
      match goal with
      | |- context [for_ k ?b s0] => set (u := for_ k b s0) in *
      end.
      clearbody u. split.
      { apply modifies_set_elem; [reflexivity|].
        apply modifies_set_elem; [reflexivity | exact Fu]. }
      store. rewrite !length_vset.
      rewrite !(mod_scal _ _ _ _ Fu) by reflexivity.
      rewrite (mod_vecs _ _ _ _ Fu M2norm eq_refl).
      split; [exact Lu0|split; [exact Lu1|]].
      + intros j Hj. rewrite !nth_vset, Lu0, Lu1.
        destruct (Nat.eqb_spec j k) as [->|Hne].
        * replace (k <? q s)%nat with true
            by (symmetry; apply Nat.ltb_lt; lia).
          rewrite !one_dot_zero. split; reflexivity.
        * apply Vu. lia. }
  intros j Hj. destruct (H (q s)) as (_ & _ & _ & V); [lia|].
  apply V. exact Hj.
Qed.

(** The block [var_alpha_a and var_a]. *)
Lemma update_var_a_values s :
  (vecs (update_var_a s) var_alpha_a0).[0]
  = scal s sigma_g / (scal s sigma_g / scal s sigma_ma0 + (vecs s A2norm).[0])
  /\ (vecs (update_var_a s) var_alpha_a1).[0]
     = scal s sigma_g
       / (scal s sigma_g / scal s sigma_ma1 + (vecs s A2norm).[0])
  /\ (vecs (update_var_a s) var_a).[0]
     = scal s sigma_e / (scal s sigma_e / scal s sigma_a + (vecs s A2norm).[0]).
Proof.
  cbv delta [update_var_a]; cbv beta zeta. store.
  rewrite !nth_vset_eq by (rewrite length_resize; simpl; lia).
  repeat split.
Qed.

(** X16: the variances of the conditional distributions that an iteration
    leaves in the object: those of [beta_m[j]] are computed from the
    variances with which the iteration was entered, [sigma_e] included;
    those of [alpha_a[j]] and of [beta_a] use [sigma_g] and [sigma_e] as
    this iteration has redrawn them, and [sigma_ma0], [sigma_ma1], [sigma_a]
    as it was entered. *)
Theorem posterior_variances burnIn it s w :
  let s' := fst (Iteration burnIn it (s, w)) in
  (forall j, (j < q s)%nat ->
     (vecs s' var_m0).[j]
     = 1 / (1 / scal s sigma_m0 + (vecs s M2norm).[j] / scal s sigma_e)
     /\ (vecs s' var_m1).[j]
        = 1 / (1 / scal s sigma_m1 + (vecs s M2norm).[j] / scal s sigma_e))
  /\ (vecs s' var_alpha_a0).[0]
     = scal s' sigma_g
       / (scal s' sigma_g / scal s sigma_ma0 + (vecs s A2norm).[0])
  /\ (vecs s' var_alpha_a1).[0]
     = scal s' sigma_g
       / (scal s' sigma_g / scal s sigma_ma1 + (vecs s A2norm).[0])
  /\ (vecs s' var_a).[0]
     = scal s' sigma_e
       / (scal s' sigma_e / scal s sigma_a + (vecs s A2norm).[0]).
Proof.
  intros s'. subst s'. rewrite Iteration_fst.
  pose proof (update_pi_modifies (sweep it s) (srand it (rand_state w)))
    as Fpi.
  rewrite !(mod_vecs _ _ _ _ Fpi) by reflexivity.
  rewrite !(mod_scal _ _ _ _ Fpi) by reflexivity. clear Fpi.
  cbv delta [sweep]; cbv beta zeta.
  set (s0 := if (it =? 0)%nat then Residual s else s).
  assert (F0 : modifies [res1; res2; res2_c] [] s s0).
  { subst s0. destruct (it =? 0)%nat;
      [apply Residual_modifies | apply modifies_weaken with [] [];
                                 [reflexivity..|apply modifies_refl]]. }
  clearbody s0.
  pose proof (update_var_m_values s0) as Vm.
  pose proof (update_var_m_modifies s0) as F1.
  set (s1 := update_var_m s0) in *. clearbody s1.
  pose proof (update_sigma_e_g_modifies s1) as F2.
  set (s2 := update_sigma_e_g s1) in *. clearbody s2.
  pose proof (update_var_a_values s2) as (Va0 & Va1 & Va).
  pose proof (update_var_a_modifies s2) as F3.
  set (s3 := update_var_a s2) in *. clearbody s3.
  match goal with
  | |- context [update_sigma_m ?t] =>
      assert (F7 : modifies
        [beta_m; res1; alpha_a; res2; r1; r3; alpha_c; res2_c; beta_c;
         beta_a]
        [old; sigma_m1; sigma_a; sigma_ma1; sigma_m0; sigma_ma0]
        s3 (update_sigma_m t)) by frame;
      set (s7 := update_sigma_m t) in *
  end.
  clearbody s7.
  rewrite !(mod_vecs _ _ _ _ F7) by reflexivity.
  rewrite !(mod_scal _ _ _ _ F7 sigma_g eq_refl).
  rewrite !(mod_scal _ _ _ _ F7 sigma_e eq_refl).
  rewrite !(mod_scal _ _ _ _ F3) by reflexivity.
  rewrite Va0, Va1, Va.
  rewrite (mod_vecs _ _ _ _ F3 var_m0 eq_refl),
    (mod_vecs _ _ _ _ F3 var_m1 eq_refl),
    (mod_vecs _ _ _ _ F2 var_m0 eq_refl),
    (mod_vecs _ _ _ _ F2 var_m1 eq_refl).
  rewrite !(mod_vecs _ _ _ _ F2 A2norm eq_refl),
    !(mod_vecs _ _ _ _ F1 A2norm eq_refl),
    !(mod_vecs _ _ _ _ F0 A2norm eq_refl).
  rewrite !(mod_scal _ _ _ _ F2 sigma_ma0 eq_refl),
    !(mod_scal _ _ _ _ F2 sigma_ma1 eq_refl),
    !(mod_scal _ _ _ _ F2 sigma_a eq_refl).
  rewrite !(mod_scal _ _ _ _ F1) by reflexivity.
  rewrite !(mod_scal _ _ _ _ F0) by reflexivity.
  split; [|repeat split].
  intros j Hj. rewrite <- (mod_q _ _ _ _ F0) in Hj.
  destruct (Vm j Hj) as [-> ->].
  rewrite !(mod_scal _ _ _ _ F0) by reflexivity.
  rewrite (mod_vecs _ _ _ _ F0 M2norm eq_refl). split; reflexivity.
Qed.

End PosteriorVariances.

(** ** The standard output over a run *)

Section Output.

Context {G E : Type} {RS : RandomSource G E} {EO : EvaluationOrder}.

Implicit Types (s t : Variables G) (w : World E).

(** X17: over [k] iterations the standard output receives, iteration by
    iteration, the line of the seven variances when [it mod 10000 == 0],
    with the values the object had when the iteration was entered, and then
    the progress line when [it mod 1000 == 0]; nothing else is printed. *)
Theorem run_stdout burnIn k s w :
  stdout (snd (for_ k (Iteration burnIn) (s, w)))
  = stdout w
    ++ flat_map
         (fun it => printed it (fst (for_ it (Iteration burnIn) (s, w))))
         (seq 0 k).
Proof.
  induction k as [|k IH].
  - rewrite for_0. cbn [snd seq flat_map]. now rewrite app_nil_r.
  - rewrite seq_S, flat_map_app. cbn [Nat.add flat_map].
    rewrite app_nil_r, app_assoc, <- IH, for_S.
    destruct (for_ k (Iteration burnIn) (s, w)) as [t u].
    cbn [fst snd]. rewrite Iteration_stdout. unfold printed.
    now rewrite app_assoc.
Qed.

(** X18: where every current probability lies strictly between 0 and 1 and
    every proposed one is below 1, so that every logarithm of the
    acceptance test is finite, a proposal that does not lower the joint
    log-posterior is accepted whenever the uniform draw lies strictly
    between 0 and 1: both [pi_m] and [pi_a] are overwritten with their
    proposals. *)
Theorem improvement_is_accepted s (e : E) :
  (Z.of_nat (q s) < 4294967296)%Z ->
  length (vecs s pi_m) = q s -> length (vecs s pi_a) = q s ->
  (forall j, (j < q s)%nat ->
     0 < (vecs s pi_m).[j] < 1 /\ 0 < (vecs s pi_a).[j] < 1) ->
  let rm := Data_rand (-0.01) 0.01 (q s) e in
  let ra := Data_rand (-0.01) 0.01 (q s) (snd rm) in
  let pi_m' := fst (my_pi s (fst rm) (fst ra)) in
  let pi_a' := snd (my_pi s (fst rm) (fst ra)) in
  let u := (fst (Data_rand 0 1 1 (snd ra))).[0] in
  (forall j, (j < q s)%nat -> pi_m'.[j] < 1 /\ pi_a'.[j] < 1) ->
  0 < u < 1 ->
  0 <= logPosterior_real (q s) (vecs s r3) pi_a'
       - logPosterior_real (q s) (vecs s r3) (vecs s pi_a)
       + logPosterior_real (q s) (vecs s r1) pi_m'
       - logPosterior_real (q s) (vecs s r1) (vecs s pi_m) ->
  vecs (fst (update_pi s e)) pi_m = pi_m'
  /\ vecs (fst (update_pi s e)) pi_a = pi_a'.
Proof.
  intros Hq Lm La Hcur rm ra pi_m' pi_a' u Hnew Hu Hup.
  pose proof (update_pi_outcome s e Lm La) as H. cbv zeta in H.
  fold rm ra pi_m' pi_a' u in H. unfold probab in H.
  assert (Hln : ln u < 0).
  { rewrite <- ln_1. apply ln_increasing; lra. }
  destruct (my_pi_nth s (fst rm) (fst ra)) as (_ & _ & Hnth).
  fold pi_m' pi_a' in Hnth.
  assert (Hpos : forall j, (j < q s)%nat -> 0 < pi_m'.[j] /\ 0 < pi_a'.[j]).
  { intros j Hj. destruct (Hnth j Hj) as [-> ->].
    destruct (Hcur j Hj) as [Pm Pa].
    split; apply reflect_code_positive; try assumption; try lia;
      apply Rabs_pos_lt, Rgt_not_eq, Rmult_lt_0_compat;
      lra || apply exp_pos. }
  rewrite !PostDistribution1_logPosterior, !PostDistribution2_logPosterior in H.
  rewrite !logPosterior_finite in H;
    try (intros j Hj;
         destruct (Hcur j Hj) as [[? ?] [? ?]], (Hnew j Hj), (Hpos j Hj);
         split; assumption).
  rewrite xlog_positive in H by lra. cbn [xsub xadd xopp] in H.
  rewrite xgt_finite in H by lra.
  injection H as -> ->. split; reflexivity.
Qed.

End Output.

Lemma improvement_is_accepted_witness :
  let s := pi_low_object in
  let rm := Data_rand (-0.01) 0.01 (q s) tt in
  let ra := Data_rand (-0.01) 0.01 (q s) (snd rm) in
  let pi_m' := fst (my_pi s (fst rm) (fst ra)) in
  let pi_a' := snd (my_pi s (fst rm) (fst ra)) in
  vecs (fst (update_pi s tt)) pi_m = pi_m'
  /\ vecs (fst (update_pi s tt)) pi_a = pi_a'.
Proof.
  apply (improvement_is_accepted pi_low_object tt);
    try reflexivity; try (simpl; lia).
  - intros [|[|j]] Hj; simpl in *; try lia; lra.
  - rewrite pi_low_object_proposal.
    intros [|[|j]] Hj; simpl in *; try lia; lra.
  - cbn [Data_rand mean_source fst snd repeat nth]. lra.
  - rewrite pi_low_object_proposal. cbn [fst snd].
    unfold logPosterior_real.
    cbn [sum_for q vecs pi_low_object nth].
    assert (H1 : ln 0.3 < ln (5 / 6)) by (apply ln_increasing; lra).
    lra.
Defined.

(** ** The coefficients of the mediators *)

Section Mixture.

Context {G E : Type} {RS : RandomSource G E}.

Implicit Types (s t : Variables G).

(** A loop of assignments to entries of one member leaves the engine
    alone. *)
Lemma generator_entries_loop (f : member) (k : nat)
    (idx : nat -> nat) (val : nat -> Variables G -> R) s :
  generator (for_ k (fun i t => set_elem f (idx i) (val i t) t) s)
  = generator s.
Proof.
  induction k as [|k IH]; [reflexivity|]. rewrite for_S. exact IH.
Qed.

(** The assignment to [beta_m[ j ]] and the engine after it. *)
Lemma update_beta_m_value j m0 m1 s :
  (j < length (vecs s beta_m))%nat ->
  let d1 := normal_distribution m1 (sqrt (vecs s var_m1).[j])
              (generator s) in
  let d0 := normal_distribution m0 (sqrt (vecs s var_m0).[j]) (snd d1) in
  (vecs (update_beta_m j m0 m1 s) beta_m).[j]
  = (vecs s r1).[j] * fst d1 + (1 - (vecs s r1).[j]) * fst d0
  /\ generator (update_beta_m j m0 m1 s) = snd d0.
Proof.
  intros Hj d1 d0.
  cbv delta [update_beta_m draw_operands beta_m_left_first written_order];
    cbv beta iota zeta.
  cbv delta [draw]; cbv beta iota; cbn [fst snd].
  match goal with
  | |- context [for_ ?k ?b ?t] =>
      assert (F : modifies [res1] [] t (for_ k b t)) by frame;
      assert (Hg : generator (for_ k b t) = generator t)
        by apply (generator_entries_loop res1 k (fun i => i));
      set (u := for_ k b t) in *; set (t0 := t) in *
  end.
  rewrite Hg, (mod_vecs _ _ _ _ F) by reflexivity. clearbody u.
  subst t0. store. fold d1. fold d0.
  rewrite nth_vset_eq by exact Hj. split; reflexivity.
Qed.

Lemma update_alpha_a_value j a0 a1 s :
  (j < length (vecs s alpha_a))%nat ->
  let d1 := normal_distribution a1 (sqrt (vecs s var_alpha_a1).[0])
              (generator s) in
  let d0 := normal_distribution a0 (sqrt (vecs s var_alpha_a0).[0])
              (snd d1) in
  (vecs (update_alpha_a j a0 a1 s) alpha_a).[j]
  = (vecs s r3).[j] * fst d1 + (1 - (vecs s r3).[j]) * fst d0.
Proof.
  intros Hj d1 d0.
  cbv delta [update_alpha_a draw_operands alpha_a_left_first written_order];
    cbv beta iota zeta.
  cbv delta [draw]; cbv beta iota; cbn [fst snd].
  match goal with
  | |- context [for_ ?k ?b ?t] =>
      assert (F : modifies [res2] [] t (for_ k b t)) by frame;
      set (u := for_ k b t) in *; set (t0 := t) in *
  end.
  rewrite (mod_vecs _ _ _ _ F) by reflexivity. clearbody u.
  subst t0. store. fold d1. fold d0.
  rewrite nth_vset_eq by exact Hj. reflexivity.
Qed.

(** X19: in the build that evaluates the operands of a sum from left to
    right, in the body of the loop over the mediators two normal values are drawn
    for [beta_m[j]] and then two for [alpha_a[j]], the one with the
    "active" mean and variance first, whatever the indicators are; [r1[j]]
    and [r3[j]] as the body finds them (they are redrawn only afterwards)
    select which value is stored: the first when the indicator is 1, the
    second when it is 0. *)
Theorem coefficients_are_mixtures j s :
  (j < length (vecs s beta_m))%nat -> (j < length (vecs s alpha_a))%nat ->
  let b1 := normal_distribution (mu_mj1 j s) (sqrt (vecs s var_m1).[j])
              (generator s) in
  let b0 := normal_distribution (mu_mj0 j s) (sqrt (vecs s var_m0).[j])
              (snd b1) in
  let a1 := normal_distribution (mu_alpha_aj1 j s)
              (sqrt (vecs s var_alpha_a1).[0]) (snd b0) in
  let a0 := normal_distribution (mu_alpha_aj0 j s)
              (sqrt (vecs s var_alpha_a0).[0]) (snd a1) in
  let s' := update_mediator j s in
  ((vecs s r1).[j] = 1 -> (vecs s' beta_m).[j] = fst b1)
  /\ ((vecs s r1).[j] = 0 -> (vecs s' beta_m).[j] = fst b0)
  /\ ((vecs s r3).[j] = 1 -> (vecs s' alpha_a).[j] = fst a1)
  /\ ((vecs s r3).[j] = 0 -> (vecs s' alpha_a).[j] = fst a0).
Proof.
  intros Hb Ha b1 b0 a1 a0.
  cbv delta [update_mediator]; cbv beta zeta.
  destruct (update_beta_m_value j (mu_mj0 j s) (mu_mj1 j s) s Hb)
    as [Vb Gb].
  cbv zeta in Vb, Gb. fold b1 in Vb, Gb. fold b0 in Vb, Gb.
  pose proof (update_beta_m_modifies j (mu_mj0 j s) (mu_mj1 j s) s) as F1.
  set (s1 := update_beta_m j (mu_mj0 j s) (mu_mj1 j s) s) in *.
  assert (Ha1 : (j < length (vecs s1 alpha_a))%nat).
  { now rewrite (mod_vecs _ _ _ _ F1) by reflexivity. }
  pose proof (update_alpha_a_value j (mu_alpha_aj0 j s) (mu_alpha_aj1 j s)
                s1 Ha1) as Va.
  cbv zeta in Va.
  rewrite Gb, !(mod_vecs _ _ _ _ F1) in Va by reflexivity.
  fold a1 in Va. fold a0 in Va.
  pose proof (update_alpha_a_modifies j (mu_alpha_aj0 j s)
                (mu_alpha_aj1 j s) s1) as F2.
  set (s2 := update_alpha_a j (mu_alpha_aj0 j s) (mu_alpha_aj1 j s) s1)
    in *.
  clearbody s2. clearbody s1.
  match goal with
  | |- context [for_ ?k ?b ?t] =>
      assert (F5 : modifies [r1; r3; alpha_c; res2; res2_c] [old] s2
                     (for_ k b t)) by frame;
      set (s5 := for_ k b t) in *
  end.
  clearbody s5. cbv zeta.
  rewrite !(mod_vecs _ _ _ _ F5) by reflexivity.
  rewrite (mod_vecs _ _ _ _ F2 beta_m eq_refl), Vb, Va.
  repeat split; intros ->; lra.
Qed.

End Mixture.

Lemma coefficients_are_mixtures_witness :
  let s := small_state in
  let b1 := normal_distribution (mu_mj1 0 s) (sqrt (vecs s var_m1).[0])
              (generator s) in
  let b0 := normal_distribution (mu_mj0 0 s) (sqrt (vecs s var_m0).[0])
              (snd b1) in
  let a1 := normal_distribution (mu_alpha_aj1 0 s)
              (sqrt (vecs s var_alpha_a1).[0]) (snd b0) in
  let a0 := normal_distribution (mu_alpha_aj0 0 s)
              (sqrt (vecs s var_alpha_a0).[0]) (snd a1) in
  let s' := update_mediator 0 s in
  ((vecs s r1).[0] = 1 -> (vecs s' beta_m).[0] = fst b1)
  /\ ((vecs s r1).[0] = 0 -> (vecs s' beta_m).[0] = fst b0)
  /\ ((vecs s r3).[0] = 1 -> (vecs s' alpha_a).[0] = fst a1)
  /\ ((vecs s r3).[0] = 0 -> (vecs s' alpha_a).[0] = fst a0).
Proof.
  apply (coefficients_are_mixtures 0 small_state); simpl; lia.
Defined.

(** ** The order of the operands *)

(** X20: the value stored in [beta_m[j]] depends on the order in which the
    build evaluates the two operands of the sum.  On the source whose
    draws count the draws before them, the build that evaluates the left
    operand first and the one that evaluates the right operand first store
    values that differ by [1 - 2 * r1[j]], which is not zero when [r1[j]]
    is 0 or 1. *)
Theorem operand_order_matters (j : nat) (m0 m1 : R) (s : Variables nat) :
  (j < length (vecs s beta_m))%nat ->
  (vecs (@update_beta_m nat unit counting_source written_order j m0 m1 s)
     beta_m).[j]
  - (vecs (@update_beta_m nat unit counting_source right_to_left j m0 m1 s)
       beta_m).[j]
  = 1 - 2 * (vecs s r1).[j].
Proof.
  intros Hj.
  assert (H : forall (EO : EvaluationOrder),
    (vecs (@update_beta_m nat unit counting_source EO j m0 m1 s) beta_m).[j]
    = if @beta_m_left_first EO
      then (vecs s r1).[j] * (m1 + INR (generator s))
           + (1 - (vecs s r1).[j]) * (m0 + INR (Datatypes.S (generator s)))
      else (vecs s r1).[j] * (m1 + INR (Datatypes.S (generator s)))
           + (1 - (vecs s r1).[j]) * (m0 + INR (generator s))).
  { intros EO.
    cbv delta [update_beta_m draw_operands]; cbv beta zeta.
    destruct (@beta_m_left_first EO);
      cbv delta [draw]; cbv beta iota zeta; cbn [fst snd];
      match goal with
      | |- context [for_ ?k ?b ?t] =>
          assert (F : modifies [res1] [] t (for_ k b t)) by frame;
          set (u := for_ k b t) in *; set (t0 := t) in *
      end;
      rewrite (mod_vecs _ _ _ _ F) by reflexivity; clearbody u;
      subst t0; store;
      cbn [normal_distribution counting_source fst snd];
      rewrite nth_vset_eq by exact Hj; reflexivity. }
  rewrite !H. cbn [beta_m_left_first written_order right_to_left].
  rewrite S_INR. ring.
Qed.

(** On the small object, where [r1[0]] is 0, the two builds store values
    of [beta_m[0]] that differ by 1. *)
Lemma operand_order_matters_witness :
  (vecs (@update_beta_m nat unit counting_source written_order 0 0 0
           small_state) beta_m).[0]
  - (vecs (@update_beta_m nat unit counting_source right_to_left 0 0 0
             small_state) beta_m).[0]
  = 1 - 2 * (vecs small_state r1).[0].
Proof.
  apply (operand_order_matters 0 0 0 small_state). simpl. lia.
Defined.
